(** * Indexing orchestration engine: a shallow embedding of [index]

    The development follows the TypeScript entry point [index] and the
    token helper [getAccessToken] of [shared/auth.ts].  Remote collaborators
    (token exchange, ownership check, sitemap listing, status fetch,
    publish-metadata probe, indexing request) are fields of a [Remote]
    record acting on an abstract world; the orchestrator threads an explicit
    run state and leaves a trace of every observable effect. *)

From Stdlib Require Import Ascii String ZArith Lia.
From stdpp Require Import gmap strings list fin_maps.

Local Open Scope string_scope.
Local Open Scope Z_scope.
Local Open Scope list_scope.

(** ** Status enumeration ([shared/types]) *)

Module Status.

(** Modelled from the spec: the closed enumeration [Status] of
    [shared/types], which is imported by the entry point but not part of the
    sources at hand.  The constructors are the nine members the entry
    point itself names when it initialises [pagesPerStatus]. *)
Inductive t : Set :=
| SubmittedAndIndexed
| DuplicateWithoutUserSelectedCanonical
| CrawledCurrentlyNotIndexed
| DiscoveredCurrentlyNotIndexed
| PageWithRedirect
| URLIsUnknownToGoogle
| RateLimited
| Forbidden
| Error.

#[global] Instance eq_dec : EqDecision t.
Proof. solve_decision. Defined.

End Status.

(** ** Time and the staleness policy *)

(** Instants are milliseconds since the epoch, the value a JavaScript [Date]
    wraps; [lastCheckedAt] is stored as the ISO rendering of such an
    instant, which [new Date] reads back at the same millisecond. *)
Definition Timestamp := Z.

Definition CACHE_TIMEOUT : Z := 1000 * 60 * 60 * 24 * 14.

Definition indexableStatuses : list Status.t :=
  [ Status.DiscoveredCurrentlyNotIndexed;
    Status.CrawledCurrentlyNotIndexed;
    Status.URLIsUnknownToGoogle;
    Status.Forbidden;
    Status.Error;
    Status.RateLimited ].

(** [Array.prototype.includes] on a list of enumeration members. *)
Definition includes (l : list Status.t) (s : Status.t) : bool :=
  bool_decide (s ∈ l).

(** [shouldRecheck]; the reading of [Date.now()] is the explicit first
    argument. *)
Definition shouldRecheck (now : Timestamp) (status : Status.t)
    (lastCheckedAt : Timestamp) : bool :=
  let shouldIndexIt := includes indexableStatuses status in
  let isOld := lastCheckedAt <? now - CACHE_TIMEOUT in
  shouldIndexIt && isOld.

(** The indexable set as the specification lists it, and its freshness
    window in milliseconds. *)
Definition indexable (s : Status.t) : Prop :=
  s = Status.DiscoveredCurrentlyNotIndexed ∨
  s = Status.CrawledCurrentlyNotIndexed ∨
  s = Status.URLIsUnknownToGoogle ∨
  s = Status.Forbidden ∨
  s = Status.Error ∨
  s = Status.RateLimited.

Definition FOURTEEN_DAYS_MS : Z := 1209600000.

(** ** Data model *)

Record ServiceAccount : Set := {
  client_email : string;
  private_key : string
}.

(** One element of [validCredentials]. *)
Record AccountSession : Set := {
  credential : ServiceAccount;
  accessToken : string
}.

(** One value of the [statusPerUrl] object. *)
Record PageStatusRecord : Set := {
  status : Status.t;
  lastCheckedAt : Timestamp
}.

(** [statusPerUrl]: a JavaScript object used as a map from URL to record;
    the same type stands for the parsed cache document on disk. *)
Abbreviation Cache := (gmap string PageStatusRecord).

(** [pagesPerStatus]: an object whose keys are enumerated in insertion
    order by [Object.keys] and [Object.entries], hence an association
    list. *)
Abbreviation Partition := (list (Status.t * list string)).

Record Quota : Set := { rpmRetry : option bool }.

Record IndexOptions : Set := {
  opt_client_email : option string;
  opt_private_key : option string;
  opt_path : option string;
  opt_urls : option (list string);
  opt_quota : option Quota
}.

(** The environment variables [index] reads. *)
Record ProcessEnv : Set := {
  GIS_CLIENT_EMAIL : option string;
  GIS_PRIVATE_KEY : option string;
  GIS_PATH : option string;
  GIS_URLS : option string;
  GIS_QUOTA_RPM_RETRY : option string
}.

Module QUOTA.

Definition rpm_retries : nat := 3.

Definition rpm_waitingTime : Z := 60000.

End QUOTA.

(** JavaScript truthiness of a string, and of a possibly undefined one. *)
Definition nonEmpty (s : string) : bool :=
  match s with EmptyString => false | String _ _ => true end.

Definition truthy (o : option string) : bool :=
  match o with Some s => nonEmpty s | None => false end.

(** [String.prototype.split] with a one-character separator. *)
Fixpoint split (sep : ascii) (s : string) : list string :=
  match s with
  | EmptyString => [EmptyString]
  | String c rest =>
      if Ascii.eqb c sep then EmptyString :: split sep rest
      else match split sep rest with
           | [] => [String c EmptyString]
           | h :: t => String c h :: t
           end
  end.

(** ** Observable effects *)

(** The lines [index] and [getAccessToken] print, by content rather than
    by layout. *)
Inductive Line : Type :=
| MissingInput
| MissingClientEmail
| MissingPrivateKey
| ServiceAccountFileNotFound
| ProcessingSite (siteUrl : string)
| ServiceAccountFailed (client_email msg : string)
| NoServiceAccountWithAccess
| RotatingTo (client_email : string)
| FetchingSitemaps
| NoSitemapsFound
| FoundInSitemaps (pages sitemaps : nat)
| FoundInList (pages : nat)
| BatchComplete (batchNumber batchCount : nat)
| DoneStatus (pages : nat)
| StatusCount (status : Status.t) (pages : nat)
| NothingToIndex
| FoundIndexable (pages : nat)
| IndexablePage (url : string)
| ProcessingUrl (url : string)
| IndexingRequested
| AlreadyRequested
| FailedToProcess (url : string)
| AllDone.

(** Everything a run does that is visible from outside, in order: the
    remote calls with the answers they got, the cache write, the console. *)
Inductive Event : Type :=
| Authorize (client_email : string)
| CheckSiteUrl (accessToken siteUrl : string)
| GetSitemapPages (accessToken siteUrl : string)
| GetPageIndexingStatus (accessToken siteUrl url : string) (result : Status.t)
| GetPublishMetadata (accessToken url : string) (retriesOnRateLimit : nat)
    (code : Z)
| RequestIndexing (accessToken url : string) (code : Z)
| WriteFile (path : string) (doc : Cache)
| Console (line : Line).

(** ** Collaborators *)

(** A collaborator either returns or throws. *)
Inductive Attempt (A : Type) : Type :=
| Returns (a : A)
| Fails (msg : string).
Arguments Returns {A} a.
Arguments Fails {A} msg.

(** Modelled from the spec: the functions [index] imports from
    [shared/gsc], [shared/sitemap] and the libraries ([googleapis], [fs],
    [os]), none of which is among the sources at hand.  Their signatures
    are the external interfaces the specification lists: token exchange and
    ownership check may fail, the status fetch answers with a [Status], the
    probe and the indexing request with a numeric code.  Each acts on an
    abstract world [W], whose [clock] is what [Date.now()] reads. *)
Record Remote (W : Type) : Type := {
  clock : W → Timestamp;
  authorize : string → string → W → Attempt (option string) * W;
  checkSiteUrl : string → string → W → Attempt string * W;
  getSitemapPages :
    string → string → W → Attempt (list string * list string) * W;
  checkCustomUrls : string → list string → Attempt (list string);
  getPageIndexingStatus : string → string → string → W → Status.t * W;
  getPublishMetadata : string → string → nat → W → Z * W;
  requestIndexing : string → string → W → Z * W;
  convertToSiteUrl : string → string;
  convertToFilePath : string → string;
  homeServiceAccountPath : string;
  existsSync : string → W → bool;
  readServiceAccountFile :
    string → W → Attempt (ServiceAccount + list ServiceAccount)
}.
Arguments clock {W} _ _.
Arguments authorize {W} _ _ _ _.
Arguments checkSiteUrl {W} _ _ _ _.
Arguments getSitemapPages {W} _ _ _ _.
Arguments checkCustomUrls {W} _ _ _.
Arguments getPageIndexingStatus {W} _ _ _ _ _.
Arguments getPublishMetadata {W} _ _ _ _ _.
Arguments requestIndexing {W} _ _ _ _.
Arguments convertToSiteUrl {W} _ _.
Arguments convertToFilePath {W} _ _.
Arguments homeServiceAccountPath {W} _.
Arguments existsSync {W} _ _ _.
Arguments readServiceAccountFile {W} _ _ _.

(** ** Run state and the effect monad *)

(** How a piece of the program ends: it returns, throws, terminates the
    process through [process.exit], or (for the two rotation loops only)
    uses up the iteration allowance of the model. *)
Inductive Res (A : Type) : Type :=
| Ok (a : A)
| Throw (msg : string)
| Exit (code : Z)
| OutOfFuel.
Arguments Ok {A} a.
Arguments Throw {A} msg.
Arguments Exit {A} code.
Arguments OutOfFuel {A}.

(** The state shared by the closures of [index]: the world behind the
    collaborators, the session list and the round-robin index that
    [rotateAccount] mutates, the cache documents on disk (by path), and the
    effects so far, oldest first. *)
Record State (W : Type) : Type := mkState {
  world : W;
  validCredentials : list AccountSession;
  currentAccountIndex : nat;
  cacheFiles : gmap string Cache;
  trace : list Event
}.
Arguments mkState {W} _ _ _ _ _.
Arguments world {W} _.
Arguments validCredentials {W} _.
Arguments currentAccountIndex {W} _.
Arguments cacheFiles {W} _.
Arguments trace {W} _.

Definition M (W A : Type) : Type := State W → Res A * State W.

Section Monad.
Context {W : Type}.

Definition ret {A} (a : A) : M W A := λ st, (Ok a, st).

Definition bind {A B} (m : M W A) (k : A → M W B) : M W B :=
  λ st,
    match m st with
    | (Ok a, st') => k a st'
    | (Throw msg, st') => (Throw msg, st')
    | (Exit code, st') => (Exit code, st')
    | (OutOfFuel, st') => (OutOfFuel, st')
    end.

Definition throw {A} (msg : string) : M W A := λ st, (Throw msg, st).

(** [process.exit(code)] *)
Definition exit {A} (code : Z) : M W A := λ st, (Exit code, st).

(** [try { m } catch (error) { handler error.message }]: only a thrown
    error is caught; [process.exit] is not. *)
Definition tryCatch {A} (m : M W A) (handler : string → M W A) : M W A :=
  λ st,
    match m st with
    | (Throw msg, st') => handler msg st'
    | other => other
    end.

Definition get : M W (State W) := λ st, (Ok st, st).

Definition emit (e : Event) : M W unit :=
  λ st, (Ok tt, mkState (world st) (validCredentials st)
                  (currentAccountIndex st) (cacheFiles st) (trace st ++ [e])).

Definition console (l : Line) : M W unit := emit (Console l).

Definition setValidCredentials (l : list AccountSession) : M W unit :=
  λ st, (Ok tt, mkState (world st) l (currentAccountIndex st)
                  (cacheFiles st) (trace st)).

Definition setCurrentAccountIndex (i : nat) : M W unit :=
  λ st, (Ok tt, mkState (world st) (validCredentials st) i
                  (cacheFiles st) (trace st)).

(** [writeFileSync(path, JSON.stringify(doc))] *)
Definition writeFileSync (path : string) (doc : Cache) : M W unit :=
  λ st, (Ok tt, mkState (world st) (validCredentials st)
                  (currentAccountIndex st) (<[path := doc]> (cacheFiles st))
                  (trace st ++ [WriteFile path doc])).

(** A remote call that always answers; the answer is recorded with it. *)
Definition call {A} (f : W → A * W) (ev : A → Event) : M W A :=
  λ st,
    let '(a, w) := f (world st) in
    (Ok a, mkState w (validCredentials st) (currentAccountIndex st)
             (cacheFiles st) (trace st ++ [ev a])).

(** A remote call that may throw. *)
Definition callAttempt {A} (f : W → Attempt A * W) (ev : Event) : M W A :=
  λ st,
    let '(r, w) := f (world st) in
    let st' := mkState w (validCredentials st) (currentAccountIndex st)
                 (cacheFiles st) (trace st ++ [ev]) in
    match r with
    | Returns a => (Ok a, st')
    | Fails msg => (Throw msg, st')
    end.

End Monad.

Notation "'let*' x ':=' m 'in' k" := (bind m (λ x, k))
  (at level 10, x pattern, m at level 100, k at level 200).

(** ** [shared/auth.ts] *)

Section Program.
Context {W : Type} (R : Remote W).

(** A synchronous read that may throw and leaves no trace. *)
Definition liftAttempt {A} (r : Attempt A) : M W A :=
  match r with
  | Returns a => ret a
  | Fails msg => throw msg
  end.

Definition getServiceAccountCredentials (customPath : option string)
    : M W (list ServiceAccount) :=
  let filePath := "service_account.json" in
  let filePathFromHome := homeServiceAccountPath R in
  let* st := get in
  let isFile := existsSync R filePath (world st) in
  let isFileFromHome := existsSync R filePathFromHome (world st) in
  let isCustomFile :=
    truthy customPath && existsSync R (default "" customPath) (world st) in
  if negb isFile && negb isFileFromHome && negb isCustomFile then
    let* _ := console ServiceAccountFileNotFound in
    exit 1
  else
    let chosen :=
      if truthy customPath && isCustomFile then default "" customPath
      else if isFile then filePath else filePathFromHome in
    let* key := liftAttempt (readServiceAccountFile R chosen (world st)) in
    match key with
    | inr keys => ret keys
    | inl key => ret [key]
    end.

Definition getAccessToken (client_email private_key : string) : M W string :=
  if negb (nonEmpty client_email) then
    let* _ := console MissingClientEmail in
    exit 1
  else if negb (nonEmpty private_key) then
    let* _ := console MissingPrivateKey in
    exit 1
  else
    let* access_token :=
      callAttempt (authorize R client_email private_key)
        (Authorize client_email) in
    if negb (truthy access_token) then
      throw "Failed to retrieve access token."
    else ret (default "" access_token).

(** ** [index]: credential pool *)

(** The loop over [credentials] (one iteration per list element);
    [verifiedSiteUrl] is the loop-carried variable, [validCredentials] lives
    in the state. *)
Fixpoint verifyCredentials (siteUrl : string)
    (credentials : list ServiceAccount) (verifiedSiteUrl : option string)
    : M W (option string) :=
  match credentials with
  | [] => ret verifiedSiteUrl
  | credential :: rest =>
      let* verifiedSiteUrl :=
        tryCatch
          (let* accessToken :=
             getAccessToken (client_email credential)
               (private_key credential) in
           let* url :=
             callAttempt (checkSiteUrl R accessToken siteUrl)
               (CheckSiteUrl accessToken siteUrl) in
           let verifiedSiteUrl :=
             if negb (truthy verifiedSiteUrl) then Some url
             else verifiedSiteUrl in
           let* st := get in
           let* _ :=
             setValidCredentials
               (validCredentials st
                  ++ [{| credential := credential;
                         accessToken := accessToken |}]) in
           ret verifiedSiteUrl)
          (λ msg,
             let* _ :=
               console (ServiceAccountFailed (client_email credential) msg) in
             ret verifiedSiteUrl) in
      verifyCredentials siteUrl rest verifiedSiteUrl
  end.

(** Reading a property of [validCredentials[currentAccountIndex]]; an index
    outside the array yields [undefined], whose property access throws. *)
Definition currentSession : M W AccountSession :=
  let* st := get in
  match validCredentials st !! currentAccountIndex st with
  | Some session => ret session
  | None => throw "TypeError"
  end.

Definition rotateAccount : M W string :=
  let* st := get in
  let index :=
    ((currentAccountIndex st + 1) mod length (validCredentials st))%nat in
  let* _ := setCurrentAccountIndex index in
  match validCredentials st !! index with
  | None => throw "TypeError"
  | Some next =>
      let* _ := console (RotatingTo (client_email (credential next))) in
      let* token :=
        getAccessToken (client_email (credential next))
          (private_key (credential next)) in
      let* st' := get in
      let* _ :=
        setValidCredentials
          (<[index := {| credential := credential next;
                         accessToken := token |}]> (validCredentials st')) in
      ret token
  end.

(** The index [rotateAccount] moves to. *)
Definition nextIndex (st : State W) : nat :=
  ((currentAccountIndex st + 1) mod length (validCredentials st))%nat.

(** The state in which [rotateAccount] asks for the new token. *)
Definition rotating (st : State W) (next : AccountSession) : State W :=
  mkState (world st) (validCredentials st) (nextIndex st) (cacheFiles st)
    (trace st ++ [Console (RotatingTo (client_email (credential next)))]).

(** ** [index]: page-set resolution *)

Definition resolvePages (siteUrl : string) (urls : option (list string))
    : M W (list string) :=
  let pages := default [] urls in
  if (length pages =? 0)%nat then
    let* _ := console FetchingSitemaps in
    let* session := currentSession in
    let* (sitemaps, pagesFromSitemaps) :=
      callAttempt (getSitemapPages R (accessToken session) siteUrl)
        (GetSitemapPages (accessToken session) siteUrl) in
    if (length sitemaps =? 0)%nat then
      let* _ := console NoSitemapsFound in
      exit 1
    else
      let* _ :=
        console (FoundInSitemaps (length pagesFromSitemaps)
                   (length sitemaps)) in
      ret pagesFromSitemaps
  else
    let* pages := liftAttempt (checkCustomUrls R siteUrl pages) in
    let* _ := console (FoundInList (length pages)) in
    ret pages.

(** ** [index]: status phase *)

Definition initialPagesPerStatus : Partition :=
  [ (Status.SubmittedAndIndexed, []);
    (Status.DuplicateWithoutUserSelectedCanonical, []);
    (Status.CrawledCurrentlyNotIndexed, []);
    (Status.DiscoveredCurrentlyNotIndexed, []);
    (Status.PageWithRedirect, []);
    (Status.URLIsUnknownToGoogle, []);
    (Status.RateLimited, []);
    (Status.Forbidden, []);
    (Status.Error, []) ].

(** [pagesPerStatus[s]] *)
Fixpoint pagesOf (s : Status.t) (p : Partition) : option (list string) :=
  match p with
  | [] => None
  | (k, v) :: rest => if decide (k = s) then Some v else pagesOf s rest
  end.

(** [pagesPerStatus[s] = v]: an existing key keeps its place, a new one
    goes last. *)
Fixpoint assign (s : Status.t) (v : list string) (p : Partition) : Partition :=
  match p with
  | [] => [(s, v)]
  | (k, old) :: rest =>
      if decide (k = s) then (k, v) :: rest else (k, old) :: assign s v rest
  end.

(** Line 188: an array, even an empty one, is truthy. *)
Definition addPage (s : Status.t) (url : string) (p : Partition) : Partition :=
  assign s (match pagesOf s p with
            | Some pages => pages ++ [url]
            | None => [url]
            end) p.

(** The [while] loop of the per-URL status check.  [fuel] bounds the number
    of iterations of the model; [statusCheck] below supplies enough. *)
Fixpoint statusLoop (fuel : nat) (siteUrl url : string) (status : Status.t)
    (rotationCount : nat) : M W Status.t :=
  let* st := get in
  if (rotationCount <? length (validCredentials st))%nat then
    match fuel with
    | O => λ st, (OutOfFuel, st)
    | S fuel =>
        let* session := currentSession in
        let* status :=
          call (getPageIndexingStatus R (accessToken session) siteUrl url)
            (GetPageIndexingStatus (accessToken session) siteUrl url) in
        if decide (status = Status.RateLimited) then
          let* _ := rotateAccount in
          statusLoop fuel siteUrl url status (S rotationCount)
        else if decide (status = Status.Forbidden) then
          let* _ := rotateAccount in
          statusLoop fuel siteUrl url status (S rotationCount)
        else ret status
    end
  else ret status.

(** Lines 163 to 185: the live fetch, which replaces the record of [url]
    by the status the loop ends with and the current instant. *)
Definition fetchLive (siteUrl url : string) (statusPerUrl : Cache)
    : M W (PageStatusRecord * Cache) :=
  let* st := get in
  let* status :=
    statusLoop (length (validCredentials st)) siteUrl url Status.Error 0 in
  let* st' := get in
  let result := {| status := status; lastCheckedAt := clock R (world st') |} in
  ret (result, <[url := result]> statusPerUrl).

(** The per-URL operation handed to [batch]; the two objects it mutates
    are passed in and out. *)
Definition checkUrl (siteUrl url : string) (acc : Cache * Partition)
    : M W (Cache * Partition) :=
  let '(statusPerUrl, pagesPerStatus) := acc in
  let* st := get in
  let* (result, statusPerUrl) :=
    match statusPerUrl !! url with
    | None => fetchLive siteUrl url statusPerUrl
    | Some result =>
        if shouldRecheck (clock R (world st)) (status result)
             (lastCheckedAt result)
        then fetchLive siteUrl url statusPerUrl
        else ret (result, statusPerUrl)
    end in
  ret (statusPerUrl, addPage (status result) url pagesPerStatus).

(** Modelled from the spec: [batch] of [shared/utils], which is not among
    the sources at hand.  The specification asks that every item be
    processed, in slices of [size] items, and that the callback fire once
    per slice; this is the schedule in which the operations of a slice
    run one after the other in input order.  The specification lets the
    operations of a slice complete in any order, and line 188 then files
    the pages of a bucket in that order: what is stated of the partition
    is therefore stated up to the order within a bucket, and for every
    rearrangement of the page list where the order could matter.
    [settled] counts the items already processed. *)
Fixpoint batchFrom {S : Type} (task : string → S → M W S)
    (size batchCount settled : nat) (items : list string) (acc : S) : M W S :=
  match items with
  | [] => ret acc
  | item :: rest =>
      let* acc := task item acc in
      let settled := Datatypes.S settled in
      let* _ :=
        if ((settled mod size =? 0)%nat || (length rest =? 0)%nat)%bool then
          console (BatchComplete ((settled + size - 1) / size)%nat batchCount)
        else ret tt in
      batchFrom task size batchCount settled rest acc
  end.

Definition batch {S : Type} (task : string → S → M W S)
    (items : list string) (size : nat) (acc : S) : M W S :=
  batchFrom task size ((length items + size - 1) / size)%nat 0 items acc.

(** The summary loop over [Object.keys(pagesPerStatus)]. *)
Fixpoint printSummary (pagesPerStatus : Partition) : M W unit :=
  match pagesPerStatus with
  | [] => ret tt
  | (status, pages) :: rest =>
      let* _ :=
        if (length pages =? 0)%nat then ret tt
        else console (StatusCount status (length pages)) in
      printSummary rest
  end.

Definition indexablePagesOf (pagesPerStatus : Partition) : list string :=
  flat_map (λ '(status, pages),
              if includes indexableStatuses status then pages else [])
    pagesPerStatus.

Fixpoint printIndexable (indexablePages : list string) : M W unit :=
  match indexablePages with
  | [] => ret tt
  | url :: rest =>
      let* _ := console (IndexablePage url) in
      printIndexable rest
  end.

(** Lines 129 to 200: read the cache document, check every page, write the
    whole store back.  The disk holds parsed documents: a cache file that
    exists is taken to be readable and to parse, and the write to succeed;
    the errors [readFileSync], [JSON.parse], [mkdirSync] and
    [writeFileSync] can throw are not modelled: a run whose cache file is
    damaged or whose disk refuses the write is outside the model. *)
Definition statusPhase (cachePath siteUrl : string) (pages : list string)
    : M W Partition :=
  let* st := get in
  let statusPerUrl : Cache := default ∅ (cacheFiles st !! cachePath) in
  let* (statusPerUrl, pagesPerStatus) :=
    batch (checkUrl siteUrl) pages 50 (statusPerUrl, initialPagesPerStatus) in
  let* _ := console (DoneStatus (length pages)) in
  let* _ := writeFileSync cachePath statusPerUrl in
  ret pagesPerStatus.

(** ** [index]: indexing-request phase *)

Definition throttled (code : Z) : bool := (code =? 429) || (code =? 403).

(** The [while] loop of lines 227 to 252; the result is [processed]. *)
Fixpoint requestLoop (fuel : nat) (url : string) (retriesOnRateLimit : nat)
    (rotationCount : nat) : M W bool :=
  let* st := get in
  if (rotationCount <? length (validCredentials st))%nat then
    match fuel with
    | O => λ st, (OutOfFuel, st)
    | S fuel =>
        let* session := currentSession in
        let accessToken := accessToken session in
        let* status :=
          call (getPublishMetadata R accessToken url retriesOnRateLimit)
            (GetPublishMetadata accessToken url retriesOnRateLimit) in
        if throttled status then
          let* _ := rotateAccount in
          requestLoop fuel url retriesOnRateLimit (S rotationCount)
        else if status =? 404 then
          let* requestStatus :=
            call (requestIndexing R accessToken url)
              (RequestIndexing accessToken url) in
          if throttled requestStatus then
            let* _ := rotateAccount in
            requestLoop fuel url retriesOnRateLimit (S rotationCount)
          else
            let* _ := console IndexingRequested in
            ret true
        else
          let* _ :=
            if status <? 400 then console AlreadyRequested else ret tt in
          ret true
    end
  else ret false.

(** One iteration of the loop over [indexablePages]. *)
Definition processUrl (retriesOnRateLimit : nat) (url : string) : M W unit :=
  let* _ := console (ProcessingUrl url) in
  let* st := get in
  let* processed :=
    requestLoop (length (validCredentials st)) url retriesOnRateLimit 0 in
  if negb processed then console (FailedToProcess url) else ret tt.

Fixpoint requestPhase (retriesOnRateLimit : nat)
    (indexablePages : list string) : M W unit :=
  match indexablePages with
  | [] => ret tt
  | url :: rest =>
      let* _ := processUrl retriesOnRateLimit url in
      requestPhase retriesOnRateLimit rest
  end.

(** ** [index] *)

(** Lines 48 to 64: options left out are taken from the environment.  An
    array, even an empty one, is truthy, so only an absent [urls] is
    replaced. *)
Definition resolveOptions (env : ProcessEnv) (options : IndexOptions)
    : IndexOptions :=
  {| opt_client_email :=
       if negb (truthy (opt_client_email options)) then GIS_CLIENT_EMAIL env
       else opt_client_email options;
     opt_private_key :=
       if negb (truthy (opt_private_key options)) then GIS_PRIVATE_KEY env
       else opt_private_key options;
     opt_path :=
       if negb (truthy (opt_path options)) then GIS_PATH env
       else opt_path options;
     opt_urls :=
       match opt_urls options with
       | Some urls => Some urls
       | None =>
           if truthy (GIS_URLS env)
           then Some (split "," (default "" (GIS_URLS env)))
           else None
       end;
     opt_quota :=
       match opt_quota options with
       | Some quota => Some quota
       | None =>
           Some {| rpmRetry :=
                     Some (bool_decide (GIS_QUOTA_RPM_RETRY env = Some "true")) |}
       end |}.

(** [path.join(".cache", convertToFilePath(siteUrl) + ".json")] *)
Definition cachePathOf (siteUrl : string) : string :=
  (".cache/" ++ convertToFilePath R siteUrl ++ ".json")%string.

Definition retriesOf (options : IndexOptions) : nat :=
  match opt_quota options with
  | Some {| rpmRetry := Some true |} => QUOTA.rpm_retries
  | _ => 0%nat
  end.

(** Lines 77 to 99: the pool is filled from [credentials]; the run ends
    here when no session was added or no site URL was verified, and goes on
    with the verified site URL otherwise. *)
Definition buildPool (siteUrl : string) (credentials : list ServiceAccount)
    : M W string :=
  let* _ := setValidCredentials [] in
  let* verifiedSiteUrl := verifyCredentials siteUrl credentials None in
  let* st := get in
  if (length (validCredentials st) =? 0)%nat || negb (truthy verifiedSiteUrl)
  then
    let* _ := console NoServiceAccountWithAccess in
    exit 1
  else ret (default "" verifiedSiteUrl).

(** Lines 42 to 100, given the options as lines 48 to 64 complete them:
    the credentials are loaded, the pool is built and the round-robin
    index is set to its start; the result is the cache path and the
    verified site URL. *)
Definition prepare (input : string) (options : IndexOptions)
    : M W (string * string) :=
  if negb (nonEmpty input) then
    let* _ := console MissingInput in
    exit 1
  else
    let* credentials :=
      if truthy (opt_client_email options) && truthy (opt_private_key options)
      then ret [{| client_email := default "" (opt_client_email options);
                   private_key := default "" (opt_private_key options) |}]
      else getServiceAccountCredentials (opt_path options) in
    let siteUrl := convertToSiteUrl R input in
    let* _ := console (ProcessingSite siteUrl) in
    let cachePath := cachePathOf siteUrl in
    let* siteUrl := buildPool siteUrl credentials in
    let* _ := setCurrentAccountIndex 0 in
    ret (cachePath, siteUrl).

(** Lines 202 to 258: the summary, the selection of the indexable pages
    and the request phase. *)
Definition reportAndRequest (options : IndexOptions)
    (pagesPerStatus : Partition) : M W unit :=
  let* _ := printSummary pagesPerStatus in
  let indexablePages := indexablePagesOf pagesPerStatus in
  let* _ :=
    if (length indexablePages =? 0)%nat then console NothingToIndex
    else
      let* _ := console (FoundIndexable (length indexablePages)) in
      printIndexable indexablePages in
  let* _ := requestPhase (retriesOf options) indexablePages in
  console AllDone.

(** The entry point.  The completion of the options reads only the
    environment, so it is done first here although the source tests
    [input] before it. *)
Definition index (env : ProcessEnv) (input : string) (options : IndexOptions)
    : M W unit :=
  let options := resolveOptions env options in
  let* (cachePath, siteUrl) := prepare input options in
  let* pages := resolvePages siteUrl (opt_urls options) in
  let* pagesPerStatus := statusPhase cachePath siteUrl pages in
  reportAndRequest options pagesPerStatus.

End Program.

(** ** Reading a trace *)

(** The observations [f] makes of a piece of trace, in order. *)
Fixpoint collect {A B : Type} (f : A → option B) (l : list A) : list B :=
  match l with
  | [] => []
  | x :: rest =>
      match f x with
      | Some y => y :: collect f rest
      | None => collect f rest
      end
  end.

Definition rotationOf (e : Event) : option string :=
  match e with Console (RotatingTo email) => Some email | _ => None end.

(** The rotations a piece of trace contains, by the account rotated to. *)
Definition rotations (evs : list Event) : list string := collect rotationOf evs.

Definition statusResultOf (e : Event) : option (string * Status.t) :=
  match e with
  | GetPageIndexingStatus _ _ url result => Some (url, result)
  | _ => None
  end.

(** The status fetches of a piece of trace, with the URL and the answer. *)
Definition statusCalls (evs : list Event) : list (string * Status.t) :=
  collect statusResultOf evs.

Inductive IndexingCall : Set :=
| Probe (code : Z)
| Submit (code : Z).

Definition codeOf (c : IndexingCall) : Z :=
  match c with Probe code | Submit code => code end.

Definition indexingCallOf (e : Event) : option IndexingCall :=
  match e with
  | GetPublishMetadata _ _ _ code => Some (Probe code)
  | RequestIndexing _ _ code => Some (Submit code)
  | _ => None
  end.

(** The probes and indexing requests of a piece of trace. *)
Definition indexingCalls (evs : list Event) : list IndexingCall :=
  collect indexingCallOf evs.

Definition submissionOf (e : Event) : option (string * Z) :=
  match e with RequestIndexing _ url code => Some (url, code) | _ => None end.

Definition submissions (evs : list Event) : list (string * Z) :=
  collect submissionOf evs.

Definition writeOf (e : Event) : option (string * Cache) :=
  match e with WriteFile path doc => Some (path, doc) | _ => None end.

Definition writes (evs : list Event) : list (string * Cache) :=
  collect writeOf evs.

Definition failureOf (e : Event) : option string :=
  match e with Console (FailedToProcess url) => Some url | _ => None end.

(** The per-URL processing-failure messages of a piece of trace. *)
Definition failures (evs : list Event) : list string := collect failureOf evs.

(** Events that are neither a rotation, nor a status fetch, a probe, an
    indexing request, a cache write or a processing-failure message. *)
Definition silentEvent (e : Event) : Prop :=
  rotationOf e = None ∧ statusResultOf e = None ∧ indexingCallOf e = None ∧
  submissionOf e = None ∧ writeOf e = None ∧ failureOf e = None.

Definition silent (evs : list Event) : Prop := Forall silentEvent evs.

(** The two throttle signals of the status phase. *)
Definition throttle (s : Status.t) : bool :=
  bool_decide (s = Status.RateLimited) || bool_decide (s = Status.Forbidden).

(** ** A scripted world for concrete runs *)

Module Fixture.

(** The remote side answers from scripts, one entry per call; an exhausted
    script answers with the success value.  Every remote call takes one
    millisecond. *)
Record World : Set := mkWorld {
  time : Z;
  statusScript : list Status.t;
  probeScript : list Z;
  submitScript : list Z;
  sitemaps : list string;
  sitemapPages : list string;
  denied : list string;
  revoked : list string
}.

Definition tick (w : World) : World :=
  mkWorld (time w + 1) (statusScript w) (probeScript w) (submitScript w)
    (sitemaps w) (sitemapPages w) (denied w) (revoked w).

Definition nextStatus (w : World) : Status.t * World :=
  (hd Status.SubmittedAndIndexed (statusScript w),
   mkWorld (time w + 1) (tl (statusScript w)) (probeScript w) (submitScript w)
     (sitemaps w) (sitemapPages w) (denied w) (revoked w)).

Definition nextProbe (w : World) : Z * World :=
  (hd 200 (probeScript w),
   mkWorld (time w + 1) (statusScript w) (tl (probeScript w)) (submitScript w)
     (sitemaps w) (sitemapPages w) (denied w) (revoked w)).

Definition nextSubmit (w : World) : Z * World :=
  (hd 200 (submitScript w),
   mkWorld (time w + 1) (statusScript w) (probeScript w) (tl (submitScript w))
     (sitemaps w) (sitemapPages w) (denied w) (revoked w)).

Definition isDenied (w : World) (token : string) : bool :=
  bool_decide (token ∈ denied w).

(** Tokens are the account's e-mail address; an account on the [revoked]
    list gets no token; one on the [denied] list gets a token but fails
    the ownership check; custom URLs are kept when they start with the site
    URL. *)
Definition remote : Remote World :=
  {| clock := time;
     authorize := λ email _ w,
       (if bool_decide (email ∈ revoked w) then Fails "invalid_grant"
        else Returns (Some email),
        tick w);
     checkSiteUrl := λ token siteUrl w,
       (if isDenied w token then Fails "no access" else Returns siteUrl,
        tick w);
     getSitemapPages := λ _ _ w,
       (Returns (sitemaps w, sitemapPages w), tick w);
     checkCustomUrls := λ siteUrl urls,
       Returns (List.filter (String.prefix siteUrl) urls);
     getPageIndexingStatus := λ _ _ _ w, nextStatus w;
     getPublishMetadata := λ _ _ _ w, nextProbe w;
     requestIndexing := λ _ _ w, nextSubmit w;
     convertToSiteUrl := λ input, input;
     convertToFilePath := λ siteUrl, siteUrl;
     homeServiceAccountPath := "/home/.gis/service_account.json";
     existsSync := λ _ _, false;
     readServiceAccountFile := λ _ _, Fails "ENOENT" |}.

Definition quiet : World := mkWorld 0 [] [] [] [] [] [] [].

Definition account (email : string) : ServiceAccount :=
  {| client_email := email; private_key := "key" |}.

Definition session (email : string) : AccountSession :=
  {| credential := account email; accessToken := email |}.

(** A state with the given world and sessions, nothing on disk, no trace. *)
Definition start (w : World) (sessions : list AccountSession) : State World :=
  mkState w sessions 0 ∅ [].

Definition noEnv : ProcessEnv :=
  {| GIS_CLIENT_EMAIL := None; GIS_PRIVATE_KEY := None; GIS_PATH := None;
     GIS_URLS := None; GIS_QUOTA_RPM_RETRY := None |}.

End Fixture.

(** ** Vocabulary of the statements *)

(** The session pool as [index] leaves it before the two phases: the
    round-robin index points into a non-empty list. *)
Definition poolOk {W} (st : State W) : Prop :=
  (currentAccountIndex st < length (validCredentials st))%nat.

(** Time does not run backwards across a remote call. *)
Record MonotoneClock {W} (R : Remote W) : Prop := {
  authorize_clock : ∀ email key w,
    clock R w ≤ clock R (authorize R email key w).2;
  checkSiteUrl_clock : ∀ token siteUrl w,
    clock R w ≤ clock R (checkSiteUrl R token siteUrl w).2;
  getSitemapPages_clock : ∀ token siteUrl w,
    clock R w ≤ clock R (getSitemapPages R token siteUrl w).2;
  getPageIndexingStatus_clock : ∀ token siteUrl url w,
    clock R w ≤ clock R (getPageIndexingStatus R token siteUrl url w).2;
  getPublishMetadata_clock : ∀ token url retries w,
    clock R w ≤ clock R (getPublishMetadata R token url retries w).2;
  requestIndexing_clock : ∀ token url w,
    clock R w ≤ clock R (requestIndexing R token url w).2
}.

(** What the rotation loops leave alone between two states: the size and
    the membership of the pool, the validity of the index, the disk; and the
    clock only moves forward when the remote side's does. *)
Record Preserved {W} (R : Remote W) (st st' : State W) : Prop := {
  pres_length :
    length (validCredentials st') = length (validCredentials st);
  pres_credentials :
    credential <$> validCredentials st' = credential <$> validCredentials st;
  pres_poolOk : poolOk st → poolOk st';
  pres_cacheFiles : cacheFiles st' = cacheFiles st;
  pres_clock :
    MonotoneClock R → clock R (world st) ≤ clock R (world st')
}.

(** One attempt of the request loop that ends in a rotation: a throttled
    probe, or a 404 probe whose indexing request is throttled. *)
Inductive ThrottledAttempt : list IndexingCall → Prop :=
| throttled_probe (code : Z) :
    throttled code = true → ThrottledAttempt [Probe code]
| throttled_submit (code : Z) :
    throttled code = true → ThrottledAttempt [Probe 404; Submit code].

(** The attempt on which the request loop marks the URL processed: a probe
    that is neither throttled nor 404, or a 404 probe whose indexing request
    is not throttled. *)
Inductive FinalAttempt : list IndexingCall → Prop :=
| final_probe (code : Z) :
    throttled code = false → code ≠ 404 → FinalAttempt [Probe code]
| final_submit (code : Z) :
    throttled code = false → FinalAttempt [Probe 404; Submit code].

(** The shape of what one run of the request loop adds to the trace when
    [budget] rotations are left: throttled attempts, each followed by one
    rotation, and then either nothing more (the budget is used up, in which
    case the loop answers [false], or a rotation failed) or one final
    attempt, on which it answers [true]. *)
Definition RequestShape (url : string) (budget : nat) (outcome : Res bool)
    (evs : list Event) : Prop :=
  ∃ attempts,
    Forall ThrottledAttempt attempts ∧
    length (rotations evs) = length attempts ∧
    (length attempts ≤ budget)%nat ∧
    statusCalls evs = [] ∧ writes evs = [] ∧ failures evs = [] ∧
    Forall (λ p, p.1 = url) (submissions evs) ∧
    ((indexingCalls evs = concat attempts ∧
      ∀ b, outcome = Ok b → b = false ∧ length attempts = budget)
     ∨
     (∃ final, FinalAttempt final ∧
               indexingCalls evs = concat attempts ++ final ∧
               (length attempts < budget)%nat ∧
               outcome = Ok true)).

Definition submitCodeOf (c : IndexingCall) : option Z :=
  match c with Submit code => Some code | Probe _ => None end.

(** The property the rotation sub-protocol is described with, read on the
    calls of one URL's request loop: a call whose code is neither 429 nor
    403 is the last call of the loop. *)
Definition StopsAtFirstOther (calls : list IndexingCall) : Prop :=
  ∀ pre c post,
    calls = pre ++ c :: post → throttled (codeOf c) = false → post = [].

(** One credential tried on its own at world [w]: the token it obtains and
    the site URL its ownership check returns, or nothing when either step
    fails. *)
Definition verifyOne {W} (R : Remote W) (siteUrl : string)
    (c : ServiceAccount) (w : W) : option (string * string) * W :=
  match authorize R (client_email c) (private_key c) w with
  | (Returns (Some token), w1) =>
      if nonEmpty token then
        match checkSiteUrl R token siteUrl w1 with
        | (Returns url, w2) => (Some (token, url), w2)
        | (Fails _, w2) => (None, w2)
        end
      else (None, w1)
  | (_, w1) => (None, w1)
  end.

(** The credentials of a list that succeed when each is tried in turn,
    whatever happened to the ones before it, with the tokens they got. *)
Fixpoint survivors {W} (R : Remote W) (siteUrl : string)
    (credentials : list ServiceAccount) (w : W) : list AccountSession * W :=
  match credentials with
  | [] => ([], w)
  | c :: rest =>
      let '(r, w1) := verifyOne R siteUrl c w in
      let '(sessions, w2) := survivors R siteUrl rest w1 in
      (match r with
       | Some (token, _) =>
           {| credential := c; accessToken := token |} :: sessions
       | None => sessions
       end, w2)
  end.

Definition warningOf (e : Event) : option string :=
  match e with
  | Console (ServiceAccountFailed email _) => Some email
  | _ => None
  end.

(** The accounts a piece of trace warns about. *)
Definition warnings (evs : list Event) : list string := collect warningOf evs.

(** A credential whose two fields are present. *)
Definition complete (c : ServiceAccount) : Prop :=
  nonEmpty (client_email c) = true ∧ nonEmpty (private_key c) = true.

(** The accounts of a list that fail when each is tried in turn. *)
Fixpoint dropped {W} (R : Remote W) (siteUrl : string)
    (credentials : list ServiceAccount) (w : W) : list string :=
  match credentials with
  | [] => []
  | c :: rest =>
      let '(r, w1) := verifyOne R siteUrl c w in
      match r with
      | Some _ => dropped R siteUrl rest w1
      | None => client_email c :: dropped R siteUrl rest w1
      end
  end.

(** An ownership check for [siteUrl] that succeeds returns a site URL, not
    the empty string. *)
Definition SiteFormNonEmpty {W} (R : Remote W) (siteUrl : string) : Prop :=
  ∀ token w url,
    (checkSiteUrl R token siteUrl w).1 = Returns url → nonEmpty url = true.

(** Sitemap discovery, made from state [st] with the active session, finds
    no sitemap registered for [siteUrl]. *)
Definition ZeroSitemaps {W} (R : Remote W) (siteUrl : string) (st : State W)
    : Prop :=
  ∀ session,
    validCredentials st !! currentAccountIndex st = Some session →
    ∃ pages,
      (getSitemapPages R (accessToken session) siteUrl (world st)).1
        = Returns ([], pages).

(** The caller's options with the [urls] field set. *)
Definition withUrls (options : IndexOptions) (urls : option (list string))
    : IndexOptions :=
  {| opt_client_email := opt_client_email options;
     opt_private_key := opt_private_key options;
     opt_path := opt_path options;
     opt_urls := urls;
     opt_quota := opt_quota options |}.

Definition statusFor (url : string) (e : Event) : option Status.t :=
  match e with
  | GetPageIndexingStatus _ _ url' result =>
      if decide (url' = url) then Some result else None
  | _ => None
  end.

(** The answers of the status fetches made for [url], in order, and the
    last of them. *)
Definition statusesOf (url : string) (evs : list Event) : list Status.t :=
  collect (statusFor url) evs.

Definition liveStatus (url : string) (evs : list Event) : option Status.t :=
  last (statusesOf url evs).

(** The state after item number [settled] of a batch: the progress line is
    printed when a slice of [size] items, or the whole list, is done. *)
Definition afterItem {W} (size batchCount settled : nat) (rest : list string)
    (st : State W) : State W :=
  if ((settled mod size =? 0)%nat || (length rest =? 0)%nat)%bool then
    mkState (world st) (validCredentials st) (currentAccountIndex st)
      (cacheFiles st)
      (trace st
         ++ [Console (BatchComplete ((settled + size - 1) / size)%nat
                        batchCount)])
  else st.

(** A record that a check at instant [t] serves from the cache. *)
Definition Settled (t : Timestamp) (r : PageStatusRecord) : Prop :=
  shouldRecheck t (status r) (lastCheckedAt r) = false.


(** The partition obtained by filing each page, in order, under the status
    a store records for it. *)
Definition replay (cache : Cache) (pagesPerStatus : Partition)
    (pages : list string) : Partition :=
  foldl (λ p url,
           match cache !! url with
           | Some r => addPage (status r) url p
           | None => p
           end) pagesPerStatus pages.

(** The state after a status fetch answered [s]. *)
Definition afterStatus {W} (R : Remote W) (st : State W)
    (token siteUrl url : string) : State W :=
  let sw := getPageIndexingStatus R token siteUrl url (world st) in
  mkState sw.2 (validCredentials st) (currentAccountIndex st) (cacheFiles st)
    (trace st ++ [GetPageIndexingStatus token siteUrl url sw.1]).

(** The state after a probe, after an indexing request, and after a line
    is printed. *)
Definition afterProbe {W} (R : Remote W) (st : State W)
    (token url : string) (retries : nat) : State W :=
  let cw := getPublishMetadata R token url retries (world st) in
  mkState cw.2 (validCredentials st) (currentAccountIndex st) (cacheFiles st)
    (trace st ++ [GetPublishMetadata token url retries cw.1]).

Definition afterSubmit {W} (R : Remote W) (st : State W)
    (token url : string) : State W :=
  let cw := requestIndexing R token url (world st) in
  mkState cw.2 (validCredentials st) (currentAccountIndex st) (cacheFiles st)
    (trace st ++ [RequestIndexing token url cw.1]).

Definition logged {W} (st : State W) (line : Line) : State W :=
  mkState (world st) (validCredentials st) (currentAccountIndex st)
    (cacheFiles st) (trace st ++ [Console line]).

(** The answer of a status call, when it was made for [url]. *)
Definition answerFor (url : string) (p : string * Status.t)
    : option Status.t :=
  if decide (p.1 = url) then Some p.2 else None.

(** ** Vocabulary of the further properties *)

(** The ways a piece of the program is allowed to fail: which messages it
    may throw and which codes it may exit with. *)
Record Outcomes : Type := {
  okThrow : string → Prop;
  okExit : Z → Prop
}.

(** A result within the allowed outcomes; running out of fuel never is. *)
Definition admits {A} (o : Outcomes) (r : Res A) : Prop :=
  match r with
  | Ok _ => True
  | Throw msg => okThrow o msg
  | Exit code => okExit o code
  | OutOfFuel => False
  end.

(** From a state satisfying [I], the computation ends in a state
    satisfying [I], with an allowed outcome. *)
Definition Run {W A} (I : State W → Prop) (o : Outcomes) (m : M W A) : Prop :=
  ∀ st, I st → I (m st).2 ∧ admits o (m st).1.

(** An invariant of the two phases for a pool of [n] sessions: it fixes the
    size of the pool and keeps the index inside it, it survives a remote
    call or a printed line that is neither a rotation nor a file write, and
    [rotateAccount] keeps it with an allowed outcome. *)
Record PhaseInvariant {W} (R : Remote W) (n : nat) (I : State W → Prop)
    (o : Outcomes) : Prop := {
  inv_size : ∀ st,
    I st →
    length (validCredentials st) = n ∧ (currentAccountIndex st < n)%nat;
  inv_step : ∀ w e st,
    rotationOf e = None → writeOf e = None → I st →
    I (mkState w (validCredentials st) (currentAccountIndex st)
         (cacheFiles st) (trace st ++ [e]));
  inv_rotate : Run I o (rotateAccount R)
}.

(** Any thrown error, and exit code 1 only. *)
Definition exitOne : Outcomes :=
  {| okThrow := λ _, True; okExit := λ code, code = 1 |}.

(** No failure at all. *)
Definition noFailure : Outcomes :=
  {| okThrow := λ _, False; okExit := λ _, False |}.

(** Any thrown error, but no exit. *)
Definition throwOnly : Outcomes :=
  {| okThrow := λ _, True; okExit := λ _, False |}.

(** The state of a run during the two phases, seen from the trace [t0] it
    had when the pool counted [n] sessions with credentials [cs], the index
    stood at [i0] and the disk was [disk]: pool, credentials and disk are
    as they were, nothing was written, and the index has advanced by one,
    round the pool, for each rotation made since. *)
Definition PhaseState {W} (n i0 : nat) (cs : list ServiceAccount)
    (disk : gmap string Cache) (t0 : list Event) (st : State W) : Prop :=
  length (validCredentials st) = n ∧
  (currentAccountIndex st < n)%nat ∧
  credential <$> validCredentials st = cs ∧
  cacheFiles st = disk ∧
  ∃ evs, trace st = t0 ++ evs ∧ writes evs = [] ∧
         currentAccountIndex st = ((i0 + length (rotations evs)) mod n)%nat.

(** The state of a run that, since trace [t0] and disk [disk], has made
    only silent events and has left the disk alone. *)
Definition Undisturbed {W} (disk : gmap string Cache) (t0 : list Event)
    (st : State W) : Prop :=
  cacheFiles st = disk ∧ ∃ evs, trace st = t0 ++ evs ∧ silent evs.

(** The token exchange always answers with a non-empty token. *)
Definition ReliableTokens {W} (R : Remote W) : Prop :=
  ∀ email key w,
    ∃ token, (authorize R email key w).1 = Returns (Some token) ∧
             nonEmpty token = true.

(** A pool of [n] sessions whose credentials all have both fields, with
    the index inside it. *)
Definition CompletePool {W} (n : nat) (st : State W) : Prop :=
  length (validCredentials st) = n ∧
  (currentAccountIndex st < n)%nat ∧
  Forall complete (credential <$> validCredentials st).

(** A remote side that throttles every status fetch, probe and indexing
    request, while token exchange and ownership check always succeed. *)
Module Throttled.

Definition remote : Remote unit :=
  {| clock := λ _, 0;
     authorize := λ _ _ w, (Returns (Some "token"), w);
     checkSiteUrl := λ _ siteUrl w, (Returns siteUrl, w);
     getSitemapPages := λ _ _ w, (Returns ([], []), w);
     checkCustomUrls := λ _ urls, Returns urls;
     getPageIndexingStatus := λ _ _ _ w, (Status.RateLimited, w);
     getPublishMetadata := λ _ _ _ w, (429, w);
     requestIndexing := λ _ _ w, (403, w);
     convertToSiteUrl := λ input, input;
     convertToFilePath := λ siteUrl, siteUrl;
     homeServiceAccountPath := "/home/.gis/service_account.json";
     existsSync := λ _ _, false;
     readServiceAccountFile := λ _ _, Fails "ENOENT" |}.

Definition start (sessions : list AccountSession) : State unit :=
  mkState tt sessions 0 ∅ [].

End Throttled.

Definition authorizationOf (e : Event) : option string :=
  match e with Authorize email => Some email | _ => None end.

(** The token exchanges of a piece of trace, by account. *)
Definition authorizations (evs : list Event) : list string :=
  collect authorizationOf evs.

(** What [getServiceAccountCredentials] makes of the parsed content of the
    file it reads: an array is returned as it is, a single object as a
    one-element array, and a failed read or parse is thrown. *)
Definition keysOf (content : Attempt (ServiceAccount + list ServiceAccount))
    : Res (list ServiceAccount) :=
  match content with
  | Returns (inl key) => Ok [key]
  | Returns (inr keys) => Ok keys
  | Fails msg => Throw msg
  end.

Definition startedOf (e : Event) : option string :=
  match e with Console (ProcessingUrl url) => Some url | _ => None end.

(** The URLs whose handling a piece of trace of the request phase starts,
    in order. *)
Definition started (evs : list Event) : list string := collect startedOf evs.

(** The credentials of a list that come before the first one lacking a
    field, and that one when there is one. *)
Fixpoint completePrefix (cs : list ServiceAccount)
    : list ServiceAccount * option ServiceAccount :=
  match cs with
  | [] => ([], None)
  | c :: rest =>
      if nonEmpty (client_email c) && nonEmpty (private_key c)
      then (c :: (completePrefix rest).1, (completePrefix rest).2)
      else ([], Some c)
  end.

(** The line [getAccessToken] prints for a credential that lacks a field. *)
Definition missingField (c : ServiceAccount) : Line :=
  if nonEmpty (client_email c) then MissingPrivateKey else MissingClientEmail.

(** The pages of a list whose record in a document has status [s], in the
    order of the list. *)
Definition filedUnder (doc : Cache) (s : Status.t) (pages : list string)
    : list string :=
  filter (λ url, status <$> doc !! url = Some s) pages.

(** * Properties *)

(** ** The staleness policy *)

Lemma CACHE_TIMEOUT_value : CACHE_TIMEOUT = FOURTEEN_DAYS_MS.
Proof. reflexivity. Qed.

Lemma includes_indexable (s : Status.t) :
  includes indexableStatuses s = true ↔ indexable s.
Proof.
  unfold includes, indexable, indexableStatuses.
  rewrite bool_decide_eq_true.
  rewrite !elem_of_cons, elem_of_nil. tauto.
Qed.

(** C2: [shouldRecheck status lastCheckedAt] is true exactly when the status
    is one of the six indexable ones and [lastCheckedAt] lies strictly more
    than fourteen days before the current instant; for every other status
    it is false whatever the age. *)
Theorem shouldRecheck_spec (now : Timestamp) (s : Status.t) (t : Timestamp) :
  (shouldRecheck now s t = true ↔ indexable s ∧ now - t > FOURTEEN_DAYS_MS) ∧
  (¬ indexable s → shouldRecheck now s t = false).
Proof.
  unfold shouldRecheck. rewrite <- CACHE_TIMEOUT_value. split.
  - rewrite andb_true_iff, includes_indexable, Z.ltb_lt. intuition lia.
  - intros Hn. apply andb_false_iff. left.
    apply not_true_is_false. now rewrite includes_indexable.
Qed.

(** ** Traces *)

Lemma collect_app {A B} (f : A → option B) (l l' : list A) :
  collect f (l ++ l') = collect f l ++ collect f l'.
Proof.
  induction l as [|x l IH]; simpl; [reflexivity|].
  destruct (f x); simpl; now rewrite IH.
Qed.

Lemma collect_none_nil {A B} (f : A → option B) (l : list A) :
  Forall (λ x, f x = None) l → collect f l = [].
Proof.
  induction 1 as [|x l Hx _ IH]; simpl; [reflexivity|].
  now rewrite Hx.
Qed.

Lemma silent_app (evs evs' : list Event) :
  silent evs → silent evs' → silent (evs ++ evs').
Proof. apply Forall_app_2. Qed.

Lemma silent_nil : silent [].
Proof. constructor. Qed.

Lemma silent_authorize (email : string) : silent [Authorize email].
Proof. repeat constructor. Qed.

Lemma silent_rotations evs : silent evs → rotations evs = [].
Proof. intros H. apply collect_none_nil. eapply Forall_impl; [exact H|]. now intros e (?&?). Qed.

Lemma silent_statusCalls evs : silent evs → statusCalls evs = [].
Proof. intros H. apply collect_none_nil. eapply Forall_impl; [exact H|]. now intros e (?&?&?). Qed.

Lemma silent_indexingCalls evs : silent evs → indexingCalls evs = [].
Proof. intros H. apply collect_none_nil. eapply Forall_impl; [exact H|]. now intros e (?&?&?&?). Qed.

Lemma silent_submissions evs : silent evs → submissions evs = [].
Proof. intros H. apply collect_none_nil. eapply Forall_impl; [exact H|]. now intros e (?&?&?&?&?). Qed.

Lemma silent_writes evs : silent evs → writes evs = [].
Proof. intros H. apply collect_none_nil. eapply Forall_impl; [exact H|]. now intros e (?&?&?&?&?&?). Qed.

Lemma silent_failures evs : silent evs → failures evs = [].
Proof. intros H. apply collect_none_nil. eapply Forall_impl; [exact H|]. now intros e (?&?&?&?&?&?). Qed.

Lemma rotations_app a b : rotations (a ++ b) = rotations a ++ rotations b.
Proof. apply collect_app. Qed.

Lemma statusCalls_app a b : statusCalls (a ++ b) = statusCalls a ++ statusCalls b.
Proof. apply collect_app. Qed.

Lemma indexingCalls_app a b :
  indexingCalls (a ++ b) = indexingCalls a ++ indexingCalls b.
Proof. apply collect_app. Qed.

Lemma submissions_app a b : submissions (a ++ b) = submissions a ++ submissions b.
Proof. apply collect_app. Qed.

Lemma writes_app a b : writes (a ++ b) = writes a ++ writes b.
Proof. apply collect_app. Qed.

Lemma failures_app a b : failures (a ++ b) = failures a ++ failures b.
Proof. apply collect_app. Qed.

(** Unfolding the monad at a state. *)
Ltac mrun :=
  unfold bind, ret, get, throw, exit, console, emit, setValidCredentials,
    setCurrentAccountIndex, writeFileSync, call, callAttempt, tryCatch,
    liftAttempt in *; simpl in *.

(** Normalising observations of a concatenated trace. *)
Ltac observe :=
  unfold rotations, statusCalls, indexingCalls, submissions, writes,
    failures in *;
  repeat (rewrite ?collect_app; simpl);
  repeat match goal with
         | H : collect _ _ = [] |- _ => rewrite !H
         end;
  simpl.

(** The observations of a silent piece of trace, as hypotheses. *)
Ltac silence H :=
  pose proof (silent_rotations _ H);
  pose proof (silent_statusCalls _ H);
  pose proof (silent_indexingCalls _ H);
  pose proof (silent_submissions _ H);
  pose proof (silent_writes _ H);
  pose proof (silent_failures _ H).

Section TokenAndRotation.
Context {W : Type} (R : Remote W).

(** [getAccessToken] touches only the world and the trace, and what it adds
    to the trace is silent. *)
Lemma getAccessToken_frame (email key : string) (st : State W) :
  ∃ evs,
    trace (getAccessToken R email key st).2 = trace st ++ evs ∧ silent evs ∧
    validCredentials (getAccessToken R email key st).2 = validCredentials st ∧
    currentAccountIndex (getAccessToken R email key st).2
      = currentAccountIndex st ∧
    cacheFiles (getAccessToken R email key st).2 = cacheFiles st ∧
    (getAccessToken R email key st).1 ≠ OutOfFuel.
Proof.
  unfold getAccessToken.
  destruct (nonEmpty email); simpl.
  2:{ mrun. eexists; repeat split; try reflexivity; [|discriminate].
      repeat constructor. }
  destruct (nonEmpty key); simpl.
  2:{ mrun. eexists; repeat split; try reflexivity; [|discriminate].
      repeat constructor. }
  mrun. destruct (authorize R email key (world st)) as [[tok|msg] w]; simpl.
  - destruct (truthy tok); simpl;
      (eexists; repeat split; try reflexivity;
       [apply silent_authorize|discriminate]).
  - eexists; repeat split; try reflexivity;
      [apply silent_authorize|discriminate].
Qed.

Lemma nextIndex_lt (st : State W) :
  (0 < length (validCredentials st))%nat →
  (nextIndex st < length (validCredentials st))%nat.
Proof. intros H. apply Nat.mod_upper_bound. lia. Qed.

Lemma rotateAccount_unfold (st : State W) (next : AccountSession) :
  validCredentials st !! nextIndex st = Some next →
  rotateAccount R st =
    match getAccessToken R (client_email (credential next))
            (private_key (credential next)) (rotating st next) with
    | (Ok token, st') =>
        (Ok token,
         mkState (world st')
           (<[nextIndex st := {| credential := credential next;
                                 accessToken := token |}]>
              (validCredentials st'))
           (currentAccountIndex st') (cacheFiles st') (trace st'))
    | other => other
    end.
Proof.
  intros Hnext. unfold rotateAccount, rotating. mrun.
  fold (nextIndex st). rewrite Hnext. simpl.
  destruct (getAccessToken R _ _ _) as [[tok|msg|code|] st']; reflexivity.
Qed.

Lemma rotateAccount_frame (st : State W) :
  (0 < length (validCredentials st))%nat →
  ∃ next evs,
    validCredentials st !! nextIndex st = Some next ∧
    trace (rotateAccount R st).2
      = trace st ++ Console (RotatingTo (client_email (credential next))) :: evs ∧
    silent evs ∧
    currentAccountIndex (rotateAccount R st).2 = nextIndex st ∧
    cacheFiles (rotateAccount R st).2 = cacheFiles st ∧
    (rotateAccount R st).1 ≠ OutOfFuel ∧
    validCredentials (rotateAccount R st).2 =
      match (rotateAccount R st).1 with
      | Ok token =>
          <[nextIndex st := {| credential := credential next;
                               accessToken := token |}]> (validCredentials st)
      | _ => validCredentials st
      end.
Proof.
  intros Hpos.
  destruct (lookup_lt_is_Some_2 _ _ (nextIndex_lt st Hpos)) as [next Hnext].
  exists next.
  rewrite (rotateAccount_unfold st next Hnext).
  destruct (getAccessToken_frame (client_email (credential next))
              (private_key (credential next)) (rotating st next))
    as (evs & Htr & Hsil & Hvc & Hidx & Hcf & Hfuel).
  exists evs.
  destruct (getAccessToken R _ _ _) as [[tok|msg|code|] st']; simpl in *;
    rewrite ?Htr, ?Hvc, ?Hidx, ?Hcf; simpl; rewrite <- ?app_assoc; simpl;
    repeat split; auto; discriminate.
Qed.

Lemma rotateAccount_length (st : State W) :
  (0 < length (validCredentials st))%nat →
  length (validCredentials (rotateAccount R st).2)
    = length (validCredentials st).
Proof.
  intros Hpos.
  destruct (rotateAccount_frame st Hpos) as (next & evs & _ & _ & _ & _ & _ & _ & Hvc).
  rewrite Hvc. destruct (rotateAccount R st).1; auto using length_insert.
Qed.

Lemma rotateAccount_credentials (st : State W) :
  (0 < length (validCredentials st))%nat →
  credential <$> validCredentials (rotateAccount R st).2
    = credential <$> validCredentials st.
Proof.
  intros Hpos.
  destruct (rotateAccount_frame st Hpos)
    as (next & evs & Hnext & _ & _ & _ & _ & _ & Hvc).
  rewrite Hvc. destruct (rotateAccount R st).1; auto.
  rewrite list_fmap_insert. simpl.
  apply list_insert_id. rewrite list_lookup_fmap, Hnext. reflexivity.
Qed.

Lemma Preserved_refl (st : State W) : Preserved R st st.
Proof. split; auto; intros; lia. Qed.

Lemma Preserved_trans (st1 st2 st3 : State W) :
  Preserved R st1 st2 → Preserved R st2 st3 → Preserved R st1 st3.
Proof.
  intros [] []. split; try congruence; auto.
  intros HM. etransitivity; eauto.
Qed.

Lemma poolOk_pos (st : State W) :
  poolOk st → (0 < length (validCredentials st))%nat.
Proof. unfold poolOk. lia. Qed.

Lemma getAccessToken_clock (email key : string) (st : State W) :
  MonotoneClock R →
  clock R (world st) ≤ clock R (world (getAccessToken R email key st).2).
Proof.
  intros HM. unfold getAccessToken.
  destruct (nonEmpty email); simpl; [|mrun; lia].
  destruct (nonEmpty key); simpl; [|mrun; lia].
  mrun. pose proof (authorize_clock R HM email key (world st)) as Hc.
  destruct (authorize R email key (world st)) as [[tok|msg] w]; simpl in *.
  - destruct (truthy tok); simpl; exact Hc.
  - exact Hc.
Qed.

Lemma rotateAccount_preserved (st : State W) :
  poolOk st → Preserved R st (rotateAccount R st).2.
Proof.
  intros Hok. pose proof (poolOk_pos st Hok) as Hpos.
  destruct (rotateAccount_frame st Hpos)
    as (next & evs & Hnext & _ & _ & Hidx & Hcf & _ & _).
  split.
  - now apply rotateAccount_length.
  - now apply rotateAccount_credentials.
  - intros _. unfold poolOk. rewrite Hidx, rotateAccount_length by done.
    now apply nextIndex_lt.
  - exact Hcf.
  - intros HM. rewrite (rotateAccount_unfold st next Hnext).
    pose proof (getAccessToken_clock (client_email (credential next))
                  (private_key (credential next)) (rotating st next) HM) as Hc.
    destruct (getAccessToken R _ _ _) as [[tok|msg|code|] st']; exact Hc.
Qed.

(** C7: a rotation moves the active-session index one step forward modulo
    the number of valid sessions, asks for a fresh token for the session it
    lands on and stores that token in the session's slot of the shared
    list; no session is removed or added, so the size of the pool and the
    credentials it holds, in order, are what they were.  The rotation ends
    as the token request ends: it is made in the state in which the index
    has moved and the rotation line is printed, its result is the result of
    the rotation, and the world and trace it leaves are those the rotation
    leaves.  So when the credential has both fields and the token exchange
    answers with a non-empty token, the rotation returns that token, the
    slot of the session holds it, and the trace shows the rotation line
    followed by the one token exchange; and when the rotation does not
    return, the list is as it was. *)
Theorem rotateAccount_round_robin (st : State W)
    (Hpool : (0 < length (validCredentials st))%nat) :
  let n := length (validCredentials st) in
  let i := ((currentAccountIndex st + 1) mod n)%nat in
  ∃ next,
    let email := client_email (credential next) in
    let key := private_key (credential next) in
    let refreshed token :=
      {| credential := credential next; accessToken := token |} in
    validCredentials st !! i = Some next ∧
    currentAccountIndex (rotateAccount R st).2 = i ∧
    (∀ token,
       (rotateAccount R st).1 = Ok token →
       (getAccessToken R email key (rotating st next)).1 = Ok token ∧
       validCredentials (rotateAccount R st).2 =
         <[i := refreshed token]> (validCredentials st)) ∧
    length (validCredentials (rotateAccount R st).2) = n ∧
    credential <$> validCredentials (rotateAccount R st).2
      = credential <$> validCredentials st ∧
    (rotateAccount R st).1 = (getAccessToken R email key (rotating st next)).1 ∧
    world (rotateAccount R st).2
      = world (getAccessToken R email key (rotating st next)).2 ∧
    trace (rotateAccount R st).2
      = trace (getAccessToken R email key (rotating st next)).2 ∧
    (∀ token,
       complete (credential next) →
       (authorize R email key (world st)).1 = Returns (Some token) →
       nonEmpty token = true →
       (rotateAccount R st).1 = Ok token ∧
       validCredentials (rotateAccount R st).2
         = <[i := refreshed token]> (validCredentials st) ∧
       validCredentials (rotateAccount R st).2 !! i = Some (refreshed token) ∧
       trace (rotateAccount R st).2
         = trace st ++ [Console (RotatingTo email); Authorize email]) ∧
    ((∀ token, (rotateAccount R st).1 ≠ Ok token) →
     validCredentials (rotateAccount R st).2 = validCredentials st).
Proof.
  intros n i.
  destruct (rotateAccount_frame st Hpool)
    as (next & evs & Hnext & _ & _ & Hidx & _ & _ & Hvc).
  pose proof (nextIndex_lt st Hpool) as Hlt.
  exists next. intros email key refreshed.
  split; [exact Hnext|]. split; [exact Hidx|].
  split.
  { intros token Hok. split.
    - revert Hok. rewrite (rotateAccount_unfold st next Hnext).
      fold email key.
      destruct (getAccessToken R email key (rotating st next))
        as [[tok|msg|code|] st']; simpl; congruence.
    - rewrite Hvc, Hok. reflexivity. }
  split; [now apply rotateAccount_length|].
  split; [now apply rotateAccount_credentials|].
  assert (Hends :
    (rotateAccount R st).1 = (getAccessToken R email key (rotating st next)).1 ∧
    world (rotateAccount R st).2
      = world (getAccessToken R email key (rotating st next)).2 ∧
    trace (rotateAccount R st).2
      = trace (getAccessToken R email key (rotating st next)).2).
  { rewrite (rotateAccount_unfold st next Hnext). fold email key.
    destruct (getAccessToken R email key (rotating st next))
      as [[tok|msg|code|] st']; auto. }
  destruct Hends as (Hres & Hworld & Htrace).
  do 3 (split; [assumption|]).
  split.
  - intros token [Hemail Hkey] Hauth Htoken.
    assert (Hget : getAccessToken R email key (rotating st next)
                   = (Ok token,
                      mkState (authorize R email key (world st)).2
                        (validCredentials st) (nextIndex st) (cacheFiles st)
                        ((trace st ++ [Console (RotatingTo email)])
                           ++ [Authorize email]))).
    { unfold getAccessToken. fold email key in Hemail, Hkey.
      rewrite Hemail, Hkey. simpl. unfold rotating. mrun. fold email.
      destruct (authorize R email key (world st)) as [r w].
      simpl in Hauth. subst r. simpl. rewrite Htoken. reflexivity. }
    assert (Hok : (rotateAccount R st).1 = Ok token)
      by (rewrite Hres, Hget; reflexivity).
    split; [exact Hok|].
    assert (Hstored : validCredentials (rotateAccount R st).2
                      = <[i := refreshed token]> (validCredentials st))
      by (rewrite Hvc, Hok; reflexivity).
    split; [exact Hstored|].
    split; [rewrite Hstored; now apply list_lookup_insert_eq|].
    rewrite Htrace, Hget. simpl. now rewrite <- app_assoc.
  - intros Hno. rewrite Hvc.
    destruct (rotateAccount R st).1 as [token|msg|code|]; try reflexivity.
    now destruct (Hno token).
Qed.

End TokenAndRotation.

Lemma rotateAccount_round_robin_witness :
  let stale := {| credential := Fixture.account "b"; accessToken := "stale" |} in
  let st := Fixture.start Fixture.quiet [Fixture.session "a"; stale] in
  (rotateAccount Fixture.remote st).1 = Ok "b" ∧
  currentAccountIndex (rotateAccount Fixture.remote st).2 = 1%nat ∧
  validCredentials (rotateAccount Fixture.remote st).2
  = [Fixture.session "a"; Fixture.session "b"] ∧
  trace (rotateAccount Fixture.remote st).2
  = [Console (RotatingTo "b"); Authorize "b"].
Proof.
  intros stale st.
  assert (Hpos : (0 < length (validCredentials st))%nat) by (simpl; lia).
  destruct (rotateAccount_round_robin Fixture.remote st Hpos)
    as (next & Hnext & Hidx & _ & _ & _ & _ & _ & _ & Hrefresh & _).
  injection Hnext as <-.
  destruct (Hrefresh "b") as (Hok & Hstored & _ & Htrace).
  - split; reflexivity.
  - reflexivity.
  - reflexivity.
  - split; [exact Hok|]. split; [exact Hidx|].
    split; [exact Hstored|exact Htrace].
Defined.

(** ** The rotation loop of the status phase *)

Section StatusLoop.
Context {W : Type} (R : Remote W).

Lemma statusLoop_exit fuel siteUrl url s0 k (st : State W) :
  (length (validCredentials st) ≤ k)%nat →
  statusLoop R fuel siteUrl url s0 k st = (Ok s0, st).
Proof.
  intros Hk. destruct fuel; simpl; mrun;
    (destruct (Nat.ltb_spec k (length (validCredentials st))); [lia|reflexivity]).
Qed.

Lemma statusLoop_step fuel siteUrl url s0 k (st : State W) session :
  (k < length (validCredentials st))%nat →
  validCredentials st !! currentAccountIndex st = Some session →
  statusLoop R (S fuel) siteUrl url s0 k st =
    let s := (getPageIndexingStatus R (accessToken session) siteUrl url
                (world st)).1 in
    let st1 := afterStatus R st (accessToken session) siteUrl url in
    if throttle s then
      bind (rotateAccount R) (λ _, statusLoop R fuel siteUrl url s (S k)) st1
    else (Ok s, st1).
Proof.
  intros Hk Hs. unfold afterStatus. simpl. mrun.
  destruct (Nat.ltb_spec k (length (validCredentials st))); [|lia].
  unfold currentSession. mrun. rewrite Hs. simpl.
  destruct (getPageIndexingStatus R _ _ _ _) as [s w]. simpl.
  unfold throttle.
  destruct (decide (s = Status.RateLimited)) as [->|Hrl]; simpl.
  { reflexivity. }
  rewrite (bool_decide_eq_false_2 _ Hrl). simpl.
  destruct (decide (s = Status.Forbidden)) as [->|Hfb]; simpl.
  { reflexivity. }
  rewrite (bool_decide_eq_false_2 _ Hfb). reflexivity.
Qed.

Lemma afterStatus_preserved (st : State W) token siteUrl url :
  Preserved R st (afterStatus R st token siteUrl url).
Proof.
  unfold afterStatus. split; simpl; auto.
  intros HM. apply (getPageIndexingStatus_clock R HM).
Qed.

(** The shape of one run of the status loop from rotation count [k]: a
    run of throttled answers [ts], each followed by a rotation, and then
    either nothing more (the counter is used up, or a rotation failed) or
    one answer that is not a throttle signal. *)
Lemma statusLoop_shape fuel :
  ∀ siteUrl url s0 k (st : State W),
    poolOk st →
    (length (validCredentials st) ≤ k + fuel)%nat →
    let n := length (validCredentials st) in
    let r := statusLoop R fuel siteUrl url s0 k st in
    ∃ evs ts,
      trace r.2 = trace st ++ evs ∧
      Preserved R st r.2 ∧
      r.1 ≠ OutOfFuel ∧
      Forall (λ s, throttle s = true) ts ∧
      length (rotations evs) = length ts ∧
      (length ts ≤ n - k)%nat ∧
      (indexingCalls evs = [] ∧ submissions evs = [] ∧ writes evs = [] ∧
       failures evs = []) ∧
      ((statusCalls evs = map (pair url) ts ∧
        ∀ s, r.1 = Ok s →
             length ts = (n - k)%nat ∧ last (s0 :: ts) = Some s)
       ∨
       (∃ s, throttle s = false ∧
             statusCalls evs = map (pair url) ts ++ [(url, s)] ∧
             (length ts < n - k)%nat ∧
             r.1 = Ok s)).
Proof.
  induction fuel as [|fuel IH]; intros siteUrl url s0 k st Hok Hfuel n r.
  - subst r. rewrite statusLoop_exit by lia.
    exists [], []. simpl. rewrite app_nil_r.
    repeat split; auto using Preserved_refl; try discriminate; try lia.
    left. split; [reflexivity|]. intros s [= <-]. split; [lia|reflexivity].
  - destruct (Nat.le_gt_cases n k) as [Hge|Hlt].
    { subst r. rewrite statusLoop_exit by (subst n; lia).
      exists [], []. simpl. rewrite app_nil_r.
      repeat split; auto using Preserved_refl; try discriminate; try lia.
      left. split; [reflexivity|]. intros s [= <-]. split; [lia|reflexivity]. }
    destruct (lookup_lt_is_Some_2 _ _ Hok) as [session Hsession].
    subst r. rewrite (statusLoop_step fuel siteUrl url s0 k st session Hlt Hsession).
    cbv zeta.
    pose proof (afterStatus_preserved st (accessToken session) siteUrl url) as Hp1.
    set (st1 := afterStatus R st (accessToken session) siteUrl url) in *.
    set (s := (getPageIndexingStatus R (accessToken session) siteUrl url
                 (world st)).1).
    assert (Htr1 : trace st1 = trace st
                   ++ [GetPageIndexingStatus (accessToken session) siteUrl url s])
      by reflexivity.
    destruct (throttle s) eqn:Hth.
    + (* a throttle signal: rotate *)
      assert (Hok1 : poolOk st1) by (apply Hp1; exact Hok).
      pose proof (rotateAccount_preserved R st1 Hok1) as Hp2.
      destruct (rotateAccount_frame R st1 (poolOk_pos st1 Hok1))
        as (next & evr & _ & Htr2 & Hsil & _ & _ & Hnf & _).
      unfold bind.
      destruct (rotateAccount R st1) as [[tok|msg|code|] st2] eqn:Hrot;
        simpl in *; [| | |congruence].
      * (* the rotation succeeded: next iteration *)
        assert (Hlen2 : length (validCredentials st2) = n)
          by (rewrite (pres_length _ _ _ Hp2), (pres_length _ _ _ Hp1); reflexivity).
        destruct (IH siteUrl url s (S k) st2) as
          (evs & ts & Htr & Hp3 & Hnf3 & Hts & Hrots & Hbound & Hnone & Hshape).
        { apply Hp2, Hok1. }
        { rewrite Hlen2. subst n. lia. }
        rewrite Hlen2 in Hbound, Hshape.
        destruct Hnone as (Hi & Hsu & Hw & Hf).
        silence Hsil.
        exists ([GetPageIndexingStatus (accessToken session) siteUrl url s]
                  ++ (Console (RotatingTo (client_email (credential next))) :: evr)
                  ++ evs), (s :: ts).
        split.
        { rewrite Htr, Htr2, Htr1. now rewrite <- !app_assoc. }
        split; [eauto using Preserved_trans|].
        split; [exact Hnf3|].
        split; [constructor; auto|].
        observe.
        split; [congruence|].
        split; [lia|].
        split; [repeat split; congruence|].
        destruct Hshape as [[Hcalls Hlast]|(s' & Hs' & Hcalls & Hlt' & Hres)].
        -- left. split; [congruence|].
           intros s' Hs'. destruct (Hlast s' Hs') as [Hl1 Hl2].
           split; [lia|]. exact Hl2.
        -- right. exists s'. split; [exact Hs'|].
           split; [congruence|]. split; [lia|exact Hres].
      * (* the rotation threw *)
        silence Hsil.
        exists ([GetPageIndexingStatus (accessToken session) siteUrl url s]
                  ++ Console (RotatingTo (client_email (credential next))) :: evr),
               [s].
        split; [rewrite Htr2, Htr1; now rewrite <- !app_assoc|].
        split; [eauto using Preserved_trans|].
        split; [discriminate|].
        split; [repeat constructor; auto|].
        observe.
        split; [congruence|].
        split; [subst n; lia|].
        split; [repeat split; congruence|].
        left. split; [congruence|discriminate].
      * (* the rotation ended the process *)
        silence Hsil.
        exists ([GetPageIndexingStatus (accessToken session) siteUrl url s]
                  ++ Console (RotatingTo (client_email (credential next))) :: evr),
               [s].
        split; [rewrite Htr2, Htr1; now rewrite <- !app_assoc|].
        split; [eauto using Preserved_trans|].
        split; [discriminate|].
        split; [repeat constructor; auto|].
        observe.
        split; [congruence|].
        split; [subst n; lia|].
        split; [repeat split; congruence|].
        left. split; [congruence|discriminate].
    + (* any other answer ends the loop *)
      exists [GetPageIndexingStatus (accessToken session) siteUrl url s], [].
      split; [exact Htr1|].
      split; [exact Hp1|].
      split; [discriminate|].
      split; [constructor|].
      split; [reflexivity|].
      split; [simpl; lia|].
      split; [auto|].
      right. exists s. repeat split; auto. simpl. lia.
Qed.

End StatusLoop.

(** ** The rotation loop of the indexing-request phase *)

Section RequestLoop.
Context {W : Type} (R : Remote W).

Lemma requestLoop_exit fuel url retries k (st : State W) :
  (length (validCredentials st) ≤ k)%nat →
  requestLoop R fuel url retries k st = (Ok false, st).
Proof.
  intros Hk. destruct fuel; simpl; mrun;
    (destruct (Nat.ltb_spec k (length (validCredentials st))); [lia|reflexivity]).
Qed.

Lemma requestLoop_step fuel url retries k (st : State W) session :
  (k < length (validCredentials st))%nat →
  validCredentials st !! currentAccountIndex st = Some session →
  requestLoop R (S fuel) url retries k st =
    let token := accessToken session in
    let code := (getPublishMetadata R token url retries (world st)).1 in
    let st1 := afterProbe R st token url retries in
    if throttled code then
      bind (rotateAccount R) (λ _, requestLoop R fuel url retries (S k)) st1
    else if code =? 404 then
      let code' := (requestIndexing R token url (world st1)).1 in
      let st2 := afterSubmit R st1 token url in
      if throttled code' then
        bind (rotateAccount R) (λ _, requestLoop R fuel url retries (S k)) st2
      else (Ok true, logged st2 IndexingRequested)
    else if code <? 400 then (Ok true, logged st1 AlreadyRequested)
    else (Ok true, st1).
Proof.
  intros Hk Hs. unfold afterProbe, afterSubmit, logged. simpl. mrun.
  destruct (Nat.ltb_spec k (length (validCredentials st))); [|lia].
  unfold currentSession. mrun. rewrite Hs. simpl.
  destruct (getPublishMetadata R _ _ _ _) as [code w]. simpl.
  destruct (throttled code); [reflexivity|].
  destruct (code =? 404).
  - destruct (requestIndexing R _ _ _) as [code' w']. simpl.
    destruct (throttled code'); reflexivity.
  - destruct (code <? 400); reflexivity.
Qed.

Lemma afterProbe_preserved (st : State W) token url retries :
  Preserved R st (afterProbe R st token url retries).
Proof.
  unfold afterProbe. split; simpl; auto.
  intros HM. apply (getPublishMetadata_clock R HM).
Qed.

Lemma afterSubmit_preserved (st : State W) token url :
  Preserved R st (afterSubmit R st token url).
Proof.
  unfold afterSubmit. split; simpl; auto.
  intros HM. apply (requestIndexing_clock R HM).
Qed.

Lemma logged_trace (st : State W) line :
  trace (logged st line) = trace st ++ [Console line].
Proof. reflexivity. Qed.

Lemma logged_preserved (st : State W) line : Preserved R st (logged st line).
Proof. unfold logged. split; simpl; auto. intros _. lia. Qed.

(** A rotation followed by the rest of a loop: either the rotation
    succeeds and the rest runs from a state where the pool is as it was, or
    the whole ends as the rotation did. *)
Lemma rotate_then {A} (rest : M W A) (st : State W) :
  poolOk st →
  ∃ email evr,
    silent evr ∧
    ((∃ st', bind (rotateAccount R) (λ _, rest) st = rest st' ∧
             trace st' = trace st ++ Console (RotatingTo email) :: evr ∧
             Preserved R st st' ∧ poolOk st')
     ∨
     (trace (bind (rotateAccount R) (λ _, rest) st).2
        = trace st ++ Console (RotatingTo email) :: evr ∧
      Preserved R st (bind (rotateAccount R) (λ _, rest) st).2 ∧
      (bind (rotateAccount R) (λ _, rest) st).1 ≠ OutOfFuel ∧
      ∀ a, (bind (rotateAccount R) (λ _, rest) st).1 ≠ Ok a)).
Proof.
  intros Hok.
  pose proof (rotateAccount_preserved R st Hok) as Hp.
  destruct (rotateAccount_frame R st (poolOk_pos st Hok))
    as (next & evr & _ & Htr & Hsil & _ & _ & Hnf & _).
  exists (client_email (credential next)), evr. split; [exact Hsil|].
  unfold bind.
  destruct (rotateAccount R st) as [[tok|msg|code|] st'];
    simpl in *; [| | |congruence].
  - left. exists st'. repeat split; auto; apply Hp; auto.
  - right. repeat split; auto; try apply Hp; auto; discriminate.
  - right. repeat split; auto; try apply Hp; auto; discriminate.
Qed.

Lemma RequestShape_exhausted url : RequestShape url 0 (Ok false) [].
Proof.
  exists []. do 7 (split; [auto|]).
  left. split; [reflexivity|]. intros b [= <-]. auto.
Qed.

Lemma RequestShape_final url budget pre final :
  FinalAttempt final → indexingCalls pre = final →
  rotations pre = [] → statusCalls pre = [] → writes pre = [] →
  failures pre = [] → Forall (λ p, p.1 = url) (submissions pre) →
  RequestShape url (S budget) (Ok true) pre.
Proof.
  intros Hfin Hcalls Hr Hs Hw Hf Hsub.
  exists []. rewrite Hr. do 7 (split; [auto; simpl; lia|]).
  right. exists final. repeat split; auto. simpl. lia.
Qed.

Lemma RequestShape_rotated url budget outcome pre attempt email evr evs :
  ThrottledAttempt attempt → indexingCalls pre = attempt →
  rotations pre = [] → statusCalls pre = [] → writes pre = [] →
  failures pre = [] → Forall (λ p, p.1 = url) (submissions pre) →
  silent evr →
  RequestShape url budget outcome evs →
  RequestShape url (S budget) outcome
    (pre ++ Console (RotatingTo email) :: evr ++ evs).
Proof.
  intros Hat Hcalls Hr Hs Hw Hf Hsub Hsil
    (ats & Hats & Hrot & Hlen & Hs' & Hw' & Hf' & Hsub' & Hshape).
  silence Hsil.
  exists (attempt :: ats).
  split; [constructor; auto|].
  split.
  { rewrite rotations_app, Hr. observe. congruence. }
  split; [simpl; lia|].
  split; [rewrite statusCalls_app, Hs; observe; congruence|].
  split; [rewrite writes_app, Hw; observe; congruence|].
  split; [rewrite failures_app, Hf; observe; congruence|].
  split.
  { rewrite submissions_app. apply Forall_app_2; [exact Hsub|].
    change (Console (RotatingTo email) :: evr ++ evs)
      with ([Console (RotatingTo email)] ++ evr ++ evs).
    rewrite !submissions_app. simpl.
    rewrite (silent_submissions _ Hsil). exact Hsub'. }
  assert (Hic : indexingCalls (pre ++ Console (RotatingTo email) :: evr ++ evs)
                = attempt ++ indexingCalls evs).
  { rewrite indexingCalls_app, Hcalls. f_equal.
    change (Console (RotatingTo email) :: evr ++ evs)
      with ([Console (RotatingTo email)] ++ evr ++ evs).
    rewrite !indexingCalls_app. simpl.
    now rewrite (silent_indexingCalls _ Hsil). }
  rewrite Hic. simpl.
  destruct Hshape as [[Hc Hout]|(fin & Hfin & Hc & Hlt & Hout)].
  - left. split; [now rewrite Hc|].
    intros b Hb. destruct (Hout b Hb). split; [assumption|lia].
  - right. exists fin. repeat split; auto; [|lia].
    rewrite Hc. now rewrite app_assoc.
Qed.

Lemma RequestShape_aborted url budget (outcome : Res bool) pre attempt
    email evr :
  ThrottledAttempt attempt → indexingCalls pre = attempt →
  rotations pre = [] → statusCalls pre = [] → writes pre = [] →
  failures pre = [] → Forall (λ p, p.1 = url) (submissions pre) →
  silent evr →
  (∀ b, outcome ≠ Ok b) →
  RequestShape url (S budget) outcome
    (pre ++ Console (RotatingTo email) :: evr).
Proof.
  intros Hat Hcalls Hr Hs Hw Hf Hsub Hsil Hout.
  pose proof (RequestShape_rotated url budget outcome pre attempt email evr []
                Hat Hcalls Hr Hs Hw Hf Hsub Hsil) as H.
  rewrite app_nil_r in H. apply H.
  exists []. do 7 (split; [auto; simpl; lia|]).
  left. split; [reflexivity|]. intros b Hb. now destruct (Hout b).
Qed.

Lemma throttled_404 : throttled 404 = false.
Proof. reflexivity. Qed.

Lemma requestLoop_shape fuel :
  ∀ url retries k (st : State W),
    poolOk st →
    (length (validCredentials st) ≤ k + fuel)%nat →
    let n := length (validCredentials st) in
    let r := requestLoop R fuel url retries k st in
    ∃ evs,
      trace r.2 = trace st ++ evs ∧
      Preserved R st r.2 ∧
      r.1 ≠ OutOfFuel ∧
      RequestShape url (n - k) r.1 evs.
Proof.
  induction fuel as [|fuel IH]; intros url retries k st Hok Hfuel n r.
  - subst r. rewrite requestLoop_exit by lia.
    exists []. simpl. rewrite app_nil_r.
    replace (n - k)%nat with 0%nat by (subst n; lia).
    auto using Preserved_refl, RequestShape_exhausted.
  - destruct (Nat.le_gt_cases n k) as [Hge|Hlt].
    { subst r. rewrite requestLoop_exit by (subst n; lia).
      exists []. simpl. rewrite app_nil_r.
      replace (n - k)%nat with 0%nat by lia.
      auto using Preserved_refl, RequestShape_exhausted. }
    destruct (lookup_lt_is_Some_2 _ _ Hok) as [session Hsession].
    subst r. rewrite (requestLoop_step fuel url retries k st session Hlt Hsession).
    cbv zeta.
    replace (n - k)%nat with (S (n - S k)) by lia.
    set (token := accessToken session).
    pose proof (afterProbe_preserved st token url retries) as Hp1.
    set (st1 := afterProbe R st token url retries) in *.
    set (code := (getPublishMetadata R token url retries (world st)).1).
    assert (Htr1 : trace st1
                   = trace st ++ [GetPublishMetadata token url retries code])
      by reflexivity.
    assert (Hok1 : poolOk st1) by (apply Hp1; exact Hok).
    (* what happens after a rotation, whatever attempt led to it *)
    assert (Hrotate :
      ∀ st' pre attempt,
        trace st' = trace st ++ pre → Preserved R st st' →
        ThrottledAttempt attempt → indexingCalls pre = attempt →
        rotations pre = [] → statusCalls pre = [] → writes pre = [] →
        failures pre = [] → Forall (λ p, p.1 = url) (submissions pre) →
        let r := bind (rotateAccount R)
                   (λ _, requestLoop R fuel url retries (S k)) st' in
        ∃ evs, trace r.2 = trace st ++ evs ∧ Preserved R st r.2 ∧
               r.1 ≠ OutOfFuel ∧ RequestShape url (S (n - S k)) r.1 evs).
    { intros st' pre attempt Htr' Hp' Hat Hcalls Hr Hs Hw Hf Hsub.
      assert (Hok' : poolOk st') by (apply Hp'; exact Hok).
      destruct (rotate_then (requestLoop R fuel url retries (S k)) st' Hok')
        as (email & evr & Hsil & [(st2 & Heq & Htr2 & Hp2 & Hok2)
                                 |(Htr2 & Hp2 & Hnf & Hnok)]).
      - cbv zeta. rewrite Heq.
        assert (Hlen2 : length (validCredentials st2) = n)
          by (rewrite (pres_length _ _ _ Hp2), (pres_length _ _ _ Hp');
              reflexivity).
        destruct (IH url retries (S k) st2 Hok2) as (evs & Htr & Hp3 & Hnf & Hsh).
        { rewrite Hlen2. subst n. lia. }
        rewrite Hlen2 in Hsh.
        exists (pre ++ Console (RotatingTo email) :: evr ++ evs).
        split.
        { rewrite Htr, Htr2, Htr'. now rewrite <- !app_assoc. }
        split; [eauto using Preserved_trans|].
        split; [exact Hnf|].
        eapply RequestShape_rotated; eauto.
      - cbv zeta.
        exists (pre ++ Console (RotatingTo email) :: evr).
        split; [rewrite Htr2, Htr'; now rewrite <- !app_assoc|].
        split; [eauto using Preserved_trans|].
        split; [exact Hnf|].
        eapply RequestShape_aborted; eauto. }
    destruct (throttled code) eqn:Hth.
    + (* a throttled probe *)
      apply (Hrotate st1 [GetPublishMetadata token url retries code]
               [Probe code]); auto.
      now constructor.
    + destruct (Z.eqb_spec code 404) as [H404|Hne].
      * (* never submitted: request indexing *)
        pose proof (afterSubmit_preserved st1 token url) as Hp2.
        set (st2 := afterSubmit R st1 token url) in *.
        set (code' := (requestIndexing R token url (world st1)).1).
        assert (Htr2 : trace st2
                       = trace st ++ [GetPublishMetadata token url retries code;
                                      RequestIndexing token url code']).
        { change (trace st2)
            with (trace st1 ++ [RequestIndexing token url code']).
          rewrite Htr1. now rewrite <- app_assoc. }
        destruct (throttled code') eqn:Hth'.
        -- apply (Hrotate st2 [GetPublishMetadata token url retries code;
                                RequestIndexing token url code']
                    [Probe 404; Submit code']);
             eauto using Preserved_trans.
           ++ now constructor.
           ++ simpl. now rewrite H404.
           ++ repeat constructor.
        -- cbn [fst snd].
           exists [GetPublishMetadata token url retries code;
                   RequestIndexing token url code';
                   Console IndexingRequested].
           split.
           { rewrite logged_trace, Htr2. now rewrite <- app_assoc. }
           split; [eauto using Preserved_trans, logged_preserved|].
           split; [discriminate|].
           apply (RequestShape_final url _ _ [Probe 404; Submit code']);
             auto; [now constructor|simpl; now rewrite H404|repeat constructor].
      * (* already submitted, or an error code: nothing to do *)
        destruct (code <? 400).
        -- cbn [fst snd].
           exists [GetPublishMetadata token url retries code;
                   Console AlreadyRequested].
           split.
           { rewrite logged_trace, Htr1. now rewrite <- app_assoc. }
           split; [eauto using Preserved_trans, logged_preserved|].
           split; [discriminate|].
           apply (RequestShape_final url _ _ [Probe code]);
             auto; solve [now constructor|constructor].
        -- cbn [fst snd].
           exists [GetPublishMetadata token url retries code].
           split; [exact Htr1|].
           split; [exact Hp1|].
           split; [discriminate|].
           apply (RequestShape_final url _ _ [Probe code]);
             auto; solve [now constructor|constructor].
Qed.

End RequestLoop.

(** ** One URL in each phase *)

Section OneUrl.
Context {W : Type} (R : Remote W).

Lemma processUrl_unfold retries url (st : State W) :
  processUrl R retries url st =
    match requestLoop R (length (validCredentials st)) url retries 0
            (logged st (ProcessingUrl url)) with
    | (Ok processed, st') =>
        if processed then (Ok tt, st')
        else (Ok tt, logged st' (FailedToProcess url))
    | (Throw msg, st') => (Throw msg, st')
    | (Exit code, st') => (Exit code, st')
    | (OutOfFuel, st') => (OutOfFuel, st')
    end.
Proof.
  unfold processUrl, logged. mrun.
  destruct (requestLoop R _ _ _ _ _) as [[[|]|msg|code|] st']; reflexivity.
Qed.

(** What handling one URL in the request phase adds to the trace. *)
Lemma processUrl_shape retries url (st : State W) :
  poolOk st →
  let n := length (validCredentials st) in
  let r := processUrl R retries url st in
  ∃ evs attempts,
    trace r.2 = trace st ++ evs ∧
    Preserved R st r.2 ∧
    r.1 ≠ OutOfFuel ∧
    Forall ThrottledAttempt attempts ∧
    length (rotations evs) = length attempts ∧
    (length attempts ≤ n)%nat ∧
    statusCalls evs = [] ∧ writes evs = [] ∧
    Forall (λ p, p.1 = url) (submissions evs) ∧
    ((indexingCalls evs = concat attempts ∧
      (r.1 = Ok tt → length attempts = n ∧ failures evs = [url]) ∧
      (r.1 ≠ Ok tt → failures evs = []))
     ∨
     (∃ final, FinalAttempt final ∧
               indexingCalls evs = concat attempts ++ final ∧
               (length attempts < n)%nat ∧
               r.1 = Ok tt ∧ failures evs = [])).
Proof.
  intros Hok n r. subst r n. rewrite processUrl_unfold.
  pose proof (logged_preserved R st (ProcessingUrl url)) as Hp0.
  set (st0 := logged st (ProcessingUrl url)) in *.
  assert (Hok0 : poolOk st0) by (apply Hp0; exact Hok).
  destruct (requestLoop_shape R (length (validCredentials st)) url retries 0
              st0 Hok0) as (evs & Htr & Hp & Hnf & Hsh).
  { change (length (validCredentials st0)) with (length (validCredentials st)).
    lia. }
  change (length (validCredentials st0))
    with (length (validCredentials st)) in Hsh.
  rewrite Nat.sub_0_r in Hsh.
  destruct Hsh as (ats & Hats & Hrot & Hlen & Hs & Hw & Hf & Hsub & Hshape).
  destruct (requestLoop R _ url retries 0 st0) as [[[|]|msg|code|] st'];
    cbn [fst snd] in *; try congruence.
  - (* processed *)
    exists (Console (ProcessingUrl url) :: evs), ats.
    split; [rewrite Htr; unfold st0; rewrite logged_trace;
            now rewrite <- app_assoc|].
    split; [eauto using Preserved_trans|].
    split; [discriminate|].
    observe. repeat (split; [solve [auto]|]).
    destruct Hshape as [[_ Hout]|(fin & Hfin & Hc & Hlt & _)].
    + now destruct (Hout true eq_refl).
    + right. exists fin. auto.
  - (* not processed *)
    exists (Console (ProcessingUrl url) :: evs ++ [Console (FailedToProcess url)]),
           ats.
    split; [rewrite logged_trace, Htr; unfold st0; rewrite logged_trace;
            now rewrite <- !app_assoc|].
    split; [eauto using Preserved_trans, logged_preserved|].
    split; [discriminate|].
    observe. rewrite ?app_nil_r.
    repeat (split; [solve [auto]|]).
    destruct Hshape as [[Hc Hout]|(fin & _ & _ & _ & Hout)]; [|discriminate].
    left. destruct (Hout false eq_refl). repeat split; auto. congruence.
  - exists (Console (ProcessingUrl url) :: evs), ats.
    split; [rewrite Htr; unfold st0; rewrite logged_trace;
            now rewrite <- app_assoc|].
    split; [eauto using Preserved_trans|].
    split; [discriminate|].
    observe. repeat (split; [solve [auto]|]).
    destruct Hshape as [[Hc Hout]|(fin & _ & _ & _ & Hout)]; [|discriminate].
    left. repeat split; auto; discriminate.
  - exists (Console (ProcessingUrl url) :: evs), ats.
    split; [rewrite Htr; unfold st0; rewrite logged_trace;
            now rewrite <- app_assoc|].
    split; [eauto using Preserved_trans|].
    split; [discriminate|].
    observe. repeat (split; [solve [auto]|]).
    destruct Hshape as [[Hc Hout]|(fin & _ & _ & _ & Hout)]; [|discriminate].
    left. repeat split; auto; discriminate.
Qed.

Lemma fetchLive_unfold siteUrl url (cache : Cache) (st : State W) :
  fetchLive R siteUrl url cache st =
    match statusLoop R (length (validCredentials st)) siteUrl url
            Status.Error 0 st with
    | (Ok s, st') =>
        let result := {| status := s; lastCheckedAt := clock R (world st') |} in
        (Ok (result, <[url := result]> cache), st')
    | (Throw msg, st') => (Throw msg, st')
    | (Exit code, st') => (Exit code, st')
    | (OutOfFuel, st') => (OutOfFuel, st')
    end.
Proof.
  unfold fetchLive. mrun.
  destruct (statusLoop R _ _ _ _ _ _) as [[s|msg|code|] st']; reflexivity.
Qed.

Lemma last_cons_ne {A} (x : A) (l : list A) : l ≠ [] → last (x :: l) = last l.
Proof. destruct l; [congruence|reflexivity]. Qed.

(** What a live fetch adds to the trace, and what it records. *)
Lemma fetchLive_shape siteUrl url (cache : Cache) (st : State W) :
  poolOk st →
  let n := length (validCredentials st) in
  let r := fetchLive R siteUrl url cache st in
  ∃ evs ts,
    trace r.2 = trace st ++ evs ∧
    Preserved R st r.2 ∧
    r.1 ≠ OutOfFuel ∧
    Forall (λ s, throttle s = true) ts ∧
    length (rotations evs) = length ts ∧
    (length ts ≤ n)%nat ∧
    (indexingCalls evs = [] ∧ submissions evs = [] ∧ writes evs = [] ∧
     failures evs = []) ∧
    (∀ result cache',
       r.1 = Ok (result, cache') →
       cache' = <[url := result]> cache ∧
       lastCheckedAt result = clock R (world r.2)) ∧
    ((statusCalls evs = map (pair url) ts ∧
      ∀ result cache',
        r.1 = Ok (result, cache') →
        length ts = n ∧ last ts = Some (status result))
     ∨
     (∃ s, throttle s = false ∧
           statusCalls evs = map (pair url) ts ++ [(url, s)] ∧
           (length ts < n)%nat ∧
           ∃ result cache', r.1 = Ok (result, cache') ∧ status result = s)).
Proof.
  intros Hok n r. subst r n. rewrite fetchLive_unfold.
  destruct (statusLoop_shape R (length (validCredentials st)) siteUrl url
              Status.Error 0 st Hok)
    as (evs & ts & Htr & Hp & Hnf & Hts & Hrot & Hlen & Hnone & Hshape);
    [lia|].
  rewrite Nat.sub_0_r in Hlen, Hshape.
  exists evs, ts.
  destruct (statusLoop R _ siteUrl url Status.Error 0 st)
    as [[s|msg|code|] st']; cbn [fst snd] in *; try congruence.
  - do 7 (split; [solve [auto] || discriminate|]).
    split; [intros result cache' [= <- <-]; auto|].
    destruct Hshape as [[Hc Hlast]|(s' & Hs' & Hc & Hlt & Hres)].
    + left. split; [exact Hc|].
      intros result cache' [= <- <-]. simpl.
      destruct (Hlast s eq_refl) as [Hl1 Hl2]. split; [exact Hl1|].
      rewrite <- Hl2. symmetry. apply last_cons_ne.
      intros ->. simpl in Hl1. unfold poolOk in Hok. lia.
    + right. exists s'. repeat split; auto.
      injection Hres as <-. eauto.
  - do 7 (split; [solve [auto] || discriminate|]).
    split; [intros; discriminate|].
    destruct Hshape as [[Hc _]|(s' & _ & _ & _ & Hres)]; [|discriminate].
    left. split; [exact Hc|]. intros; discriminate.
  - do 7 (split; [solve [auto] || discriminate|]).
    split; [intros; discriminate|].
    destruct Hshape as [[Hc _]|(s' & _ & _ & _ & Hres)]; [|discriminate].
    left. split; [exact Hc|]. intros; discriminate.
Qed.

(** C1 (amended): for one URL, either rotation loop rotates at most as
    many times as there are valid sessions.  In the status phase the
    answers are a run of throttle signals (RateLimited or Forbidden), one
    rotation after each, followed either by nothing, when as many rotations
    as sessions were made, and then the last answer seen is the status
    recorded, or by one other answer, which ends the loop at once and is
    the status recorded.  In the request phase the calls are a run of
    throttled attempts, one rotation after each, where a throttled attempt
    is a probe answering 429 or 403, or a probe answering 404 followed by an
    indexing request answering 429 or 403; they are followed either by
    nothing, when as many rotations as sessions were made, and then the
    failure message for the URL is printed, or by one final attempt, a probe
    with any other code than 404, or a 404 probe with its indexing request
    not throttled, which ends the loop with the URL processed. *)
Theorem rotation_loops_bounded (st : State W) (siteUrl url : string)
    (cache : Cache) (retries : nat) (Hpool : poolOk st) :
  let n := length (validCredentials st) in
  (let r := fetchLive R siteUrl url cache st in
   ∃ evs ts,
     trace r.2 = trace st ++ evs ∧
     r.1 ≠ OutOfFuel ∧
     Forall (λ s, throttle s = true) ts ∧
     length (rotations evs) = length ts ∧
     (length ts ≤ n)%nat ∧
     ((statusCalls evs = map (pair url) ts ∧
       ∀ result cache',
         r.1 = Ok (result, cache') →
         length ts = n ∧ last ts = Some (status result))
      ∨
      (∃ s, throttle s = false ∧
            statusCalls evs = map (pair url) ts ++ [(url, s)] ∧
            (length ts < n)%nat ∧
            ∃ result cache', r.1 = Ok (result, cache') ∧ status result = s)))
  ∧
  (let r := processUrl R retries url st in
   ∃ evs attempts,
     trace r.2 = trace st ++ evs ∧
     r.1 ≠ OutOfFuel ∧
     Forall ThrottledAttempt attempts ∧
     length (rotations evs) = length attempts ∧
     (length attempts ≤ n)%nat ∧
     ((indexingCalls evs = concat attempts ∧
       (r.1 = Ok tt → length attempts = n ∧ failures evs = [url]))
      ∨
      (∃ final, FinalAttempt final ∧
                indexingCalls evs = concat attempts ++ final ∧
                (length attempts < n)%nat ∧
                r.1 = Ok tt ∧ failures evs = []))).
Proof.
  intros n. split.
  - destruct (fetchLive_shape siteUrl url cache st Hpool)
      as (evs & ts & Htr & _ & Hnf & Hts & Hrot & Hlen & _ & _ & Hshape).
    exists evs, ts. auto 10.
  - destruct (processUrl_shape retries url st Hpool)
      as (evs & ats & Htr & _ & Hnf & Hats & Hrot & Hlen & _ & _ & _ & Hshape).
    exists evs, ats. do 5 (split; [assumption|]).
    destruct Hshape as [(Hc & Hok & _)|Hfin]; [left|right]; auto.
Qed.

End OneUrl.

Lemma rotation_loops_bounded_witness :
  let st := Fixture.start Fixture.quiet
              [Fixture.session "a"; Fixture.session "b"] in
  poolOk st ∧
  ∃ evs,
    trace (processUrl Fixture.remote 0 "https://a/1" st).2 = trace st ++ evs ∧
    (length (rotations evs) ≤ 2)%nat.
Proof.
  intros st.
  assert (Hpool : poolOk st) by (unfold poolOk; simpl; lia).
  split; [exact Hpool|].
  destruct (rotation_loops_bounded Fixture.remote st "https://a" "https://a/1"
              ∅ 0 Hpool) as [_ (evs & ats & Htr & _ & _ & Hrot & Hlen & _)].
  exists evs. split; [exact Htr|]. rewrite Hrot. exact Hlen.
Defined.

(** C1 as stated fails in the request phase: with two sessions, a probe
    answers 404, which is neither 429 nor 403, and the loop does not end
    with it: the indexing request that follows is throttled, the session is
    rotated and the URL is probed again. *)
Lemma rotation_loops_counterexample :
  let w := Fixture.mkWorld 0 [] [404; 200] [429] [] [] [] [] in
  let st := Fixture.start w [Fixture.session "a"; Fixture.session "b"] in
  let r := processUrl Fixture.remote 0 "https://a/1" st in
  r.1 = Ok tt ∧
  indexingCalls (trace r.2) = [Probe 404; Submit 429; Probe 200] ∧
  rotations (trace r.2) = ["b"] ∧
  ¬ StopsAtFirstOther (indexingCalls (trace r.2)).
Proof.
  intros w st r.
  assert (Hcalls : indexingCalls (trace r.2)
                   = [Probe 404; Submit 429; Probe 200]) by reflexivity.
  split; [reflexivity|]. split; [exact Hcalls|]. split; [reflexivity|].
  rewrite Hcalls. intros Hstop.
  specialize (Hstop [] (Probe 404) [Submit 429; Probe 200] eq_refl eq_refl).
  discriminate Hstop.
Qed.

(** ** Outcomes of the request phase for one URL *)

Lemma submissions_codes (evs : list Event) :
  map snd (submissions evs) = collect submitCodeOf (indexingCalls evs).
Proof.
  unfold submissions, indexingCalls.
  induction evs as [|e evs IH]; [reflexivity|].
  destruct e; simpl; rewrite ?IH; reflexivity.
Qed.

Lemma throttled_attempts_probes (attempts : list (list IndexingCall)) :
  Forall ThrottledAttempt attempts →
  (∀ code, In (Submit code) (concat attempts) → throttled code = false) →
  collect submitCodeOf (concat attempts) = [] ∧
  ¬ In (Probe 404) (concat attempts).
Proof.
  induction 1 as [|a attempts Ha _ IH]; intros Hsub; simpl.
  - split; [reflexivity|tauto].
  - destruct Ha as [code Hth|code Hth].
    + destruct IH as [IH1 IH2].
      { intros c Hc. apply Hsub. simpl. right. exact Hc. }
      simpl. split; [exact IH1|].
      intros [[= ->]|Hin]; [discriminate Hth|tauto].
    + exfalso. specialize (Hsub code). simpl in Hsub.
      rewrite Hsub in Hth by auto. discriminate.
Qed.

Section RequestOutcomes.
Context {W : Type} (R : Remote W).

(** C8: when, while a URL is handled in the request phase, a probe answers
    404 and no indexing request for it answers 429 or 403, the trace the
    URL adds holds exactly one indexing request, made for that URL. *)
Theorem requestIndexing_once (st : State W) (retries : nat) (url : string)
    (evs : list Event)
    (Hpool : poolOk st)
    (Hrun : trace (processUrl R retries url st).2 = trace st ++ evs)
    (Hprobe : In (Probe 404) (indexingCalls evs))
    (Hsubmit : ∀ code, In (Submit code) (indexingCalls evs) →
                       throttled code = false) :
  ∃ code, submissions evs = [(url, code)] ∧ throttled code = false.
Proof.
  destruct (processUrl_shape R retries url st Hpool)
    as (evs' & ats & Htr & _ & _ & Hats & _ & _ & _ & _ & Hurl & Hshape).
  cbv zeta in Htr. rewrite Hrun in Htr. apply app_inv_head in Htr. subst evs'.
  pose proof (submissions_codes evs) as Hcodes.
  assert (Hcalls : ∃ tail, indexingCalls evs = concat ats ++ tail ∧
                           (tail = [] ∨ FinalAttempt tail)).
  { destruct Hshape as [(Hc & _)|(fin & Hfin & Hc & _)].
    - exists []. rewrite app_nil_r. auto.
    - exists fin. auto. }
  destruct Hcalls as (tail & Hc & Htail).
  rewrite Hc in Hprobe, Hsubmit, Hcodes.
  destruct (throttled_attempts_probes ats Hats) as [Hnone Hno404].
  { intros c Hin. apply Hsubmit. apply in_or_app. now left. }
  rewrite collect_app, Hnone in Hcodes. simpl in Hcodes.
  apply in_app_or in Hprobe. destruct Hprobe as [Hin|Hin]; [tauto|].
  destruct Htail as [->|Hfin]; [destruct Hin|].
  destruct Hfin as [code Hth Hne|code Hth].
  - destruct Hin as [[= ->]|[]]. congruence.
  - exists code. split; [|exact Hth].
    simpl in Hcodes.
    destruct (submissions evs) as [|[u c] [|? ?]]; try discriminate.
    injection Hcodes as ->. apply Forall_inv in Hurl. simpl in Hurl.
    now subst u.
Qed.

End RequestOutcomes.

Lemma requestIndexing_once_witness :
  let w := Fixture.mkWorld 0 [] [429; 404] [200] [] [] [] [] in
  let st := Fixture.start w [Fixture.session "a"; Fixture.session "b"] in
  ∃ code,
    submissions (trace (processUrl Fixture.remote 0 "https://a/1" st).2)
      = [("https://a/1", code)] ∧
    throttled code = false.
Proof.
  intros w st.
  apply (requestIndexing_once Fixture.remote st 0 "https://a/1"
           (trace (processUrl Fixture.remote 0 "https://a/1" st).2)).
  - unfold poolOk. simpl. lia.
  - reflexivity.
  - vm_compute. auto.
  - intros code Hin. vm_compute in Hin.
    destruct Hin as [[=]|[[=]|[[= <-]|[]]]]. reflexivity.
Defined.

(** A probe that is neither throttled nor 404 cannot sit inside a run of
    throttled attempts. *)
Lemma other_probe_in_tail (attempts : list (list IndexingCall))
    (tail pre post : list IndexingCall) (code : Z) :
  Forall ThrottledAttempt attempts →
  concat attempts ++ tail = pre ++ Probe code :: post →
  throttled code = false → code ≠ 404 →
  ∃ pre', tail = pre' ++ Probe code :: post.
Proof.
  intros Hats. revert pre.
  induction Hats as [|a attempts Ha _ IH]; intros pre Heq Hth Hne; simpl in Heq.
  - eauto.
  - destruct Ha as [c Hc|c Hc]; simpl in Heq.
    + destruct pre as [|x pre]; simpl in Heq.
      * injection Heq as -> _. congruence.
      * injection Heq as _ Heq. eauto.
    + destruct pre as [|x [|y pre]]; simpl in Heq.
      * injection Heq as Heq _. congruence.
      * discriminate Heq.
      * injection Heq as _ _ Heq. eauto.
Qed.

(** A run of throttled attempts followed by a final attempt is not a run
    of throttled attempts. *)
Lemma final_not_throttled (attempts : list (list IndexingCall)) :
  Forall ThrottledAttempt attempts →
  ∀ attempts' final,
    Forall ThrottledAttempt attempts' → FinalAttempt final →
    concat attempts ++ final ≠ concat attempts'.
Proof.
  induction 1 as [|a attempts Ha _ IH]; intros attempts' final Hats' Hfin Heq;
    simpl in Heq.
  - destruct Hats' as [|a' attempts' Ha' _]; simpl in Heq.
    + destruct Hfin; discriminate.
    + destruct Hfin as [c Hc Hne|c Hc], Ha' as [c' Hc'|c' Hc'];
        simpl in Heq; injection Heq; intros; subst;
        try congruence;
        match goal with H : throttled 404 = true |- _ => discriminate H end.
  - destruct Hats' as [|a' attempts' Ha' Hats']; simpl in Heq.
    + destruct Ha; discriminate.
    + destruct Ha as [c Hc|c Hc], Ha' as [c' Hc'|c' Hc']; simpl in Heq;
        injection Heq; intros; subst;
        try (eapply IH; eauto; fail);
        match goal with H : throttled 404 = true |- _ => discriminate H end.
Qed.

Section ProbeOutcomes.
Context {W : Type} (R : Remote W).

(** C10 (amended): while a URL is handled in the request phase, a probe
    whose code is none of 429, 403 and 404 (500, say) is the last call made
    for the URL: the URL counts as processed, no indexing request follows
    and no failure message is printed.  The failure message for the URL is
    printed exactly when its handling returns after as many attempts as
    there are valid sessions, every one of them throttled (a 429 or 403
    probe, or a 404 probe whose indexing request answers 429 or 403); it is
    printed at most once. *)
Theorem probe_outcomes (st : State W) (retries : nat) (url : string)
    (Hpool : poolOk st) :
  let n := length (validCredentials st) in
  let r := processUrl R retries url st in
  ∃ evs,
    trace r.2 = trace st ++ evs ∧
    (∀ pre code post,
       indexingCalls evs = pre ++ Probe code :: post →
       throttled code = false → code ≠ 404 →
       post = [] ∧ r.1 = Ok tt ∧ failures evs = []) ∧
    (failures evs = [url] ↔
       r.1 = Ok tt ∧
       ∃ attempts, Forall ThrottledAttempt attempts ∧ length attempts = n ∧
                   indexingCalls evs = concat attempts) ∧
    (failures evs = [] ∨ failures evs = [url]).
Proof.
  intros n r.
  destruct (processUrl_shape R retries url st Hpool)
    as (evs & ats & Htr & _ & _ & Hats & _ & _ & _ & _ & _ & Hshape).
  fold r in Htr, Hshape. fold n in Hshape.
  exists evs. split; [exact Htr|]. split; [|split].
  - intros pre code post Heq Hth Hne.
    destruct Hshape as [(Hc & _)|(fin & Hfin & Hc & _ & Hok & Hf)].
    + rewrite Hc, <- (app_nil_r (concat ats)) in Heq.
      destruct (other_probe_in_tail ats [] pre post code Hats Heq Hth Hne)
        as (pre' & Hnil).
      now destruct pre'.
    + rewrite Hc in Heq.
      destruct (other_probe_in_tail ats fin pre post code Hats Heq Hth Hne)
        as (pre' & Hfin').
      destruct Hfin as [c Hc' Hne'|c Hc'];
        destruct pre' as [|x [|y [|z pre']]];
        simpl in Hfin'; try discriminate;
        injection Hfin'; intros; subst; try congruence; auto.
  - destruct Hshape as [(Hc & Hok & Hnok)|(fin & Hfin & Hc & _ & Hok & Hf)].
    + split.
      * intros Hfail.
        assert (Hr : r.1 = Ok tt).
        { destruct r.1 as [[]|msg|code|] eqn:Hr1; auto;
            rewrite Hnok in Hfail by discriminate; discriminate. }
        split; [exact Hr|]. exists ats. destruct (Hok Hr). auto.
      * intros [Hr _]. now destruct (Hok Hr).
    + split.
      * rewrite Hf. discriminate.
      * intros (_ & ats' & Hats' & _ & Hc'). exfalso.
        rewrite Hc in Hc'.
        exact (final_not_throttled ats Hats ats' fin Hats' Hfin Hc').
  - destruct Hshape as [(Hc & Hok & Hnok)|(fin & Hfin & Hc & _ & Hok & Hf)];
      [|now left].
    destruct r.1 as [[]|msg|code|] eqn:Hr1.
    + right. now destruct (Hok eq_refl).
    + left. apply Hnok. discriminate.
    + left. apply Hnok. discriminate.
    + left. apply Hnok. discriminate.
Qed.

End ProbeOutcomes.

Lemma probe_outcomes_witness :
  let w := Fixture.mkWorld 0 [] [500] [] [] [] [] [] in
  let st := Fixture.start w [Fixture.session "a"] in
  poolOk st ∧
  ∃ evs,
    trace (processUrl Fixture.remote 0 "https://a/1" st).2 = trace st ++ evs ∧
    (failures evs = [] ∨ failures evs = ["https://a/1"]).
Proof.
  intros w st.
  assert (Hpool : poolOk st) by (unfold poolOk; simpl; lia).
  split; [exact Hpool|].
  destruct (probe_outcomes Fixture.remote st 0 "https://a/1" Hpool)
    as (evs & Htr & _ & _ & Hfail).
  exists evs. split; [exact Htr|exact Hfail].
Defined.

(** C10 as stated fails for a probe answering 404: with a single session,
    the probe answers 404, which is neither 429 nor 403, and yet an
    indexing request is made; it answers 429, the URL is not processed on
    that attempt, and the failure message is printed. *)
Lemma probe_outcomes_counterexample :
  let w := Fixture.mkWorld 0 [] [404] [429] [] [] [] [] in
  let st := Fixture.start w [Fixture.session "a"] in
  let r := processUrl Fixture.remote 0 "https://a/1" st in
  r.1 = Ok tt ∧
  indexingCalls (trace r.2) = [Probe 404; Submit 429] ∧
  throttled 404 = false ∧
  submissions (trace r.2) = [("https://a/1", 429)] ∧
  failures (trace r.2) = ["https://a/1"].
Proof. repeat split; reflexivity. Qed.

(** ** The credential pool *)

Section Pool.
Context {W : Type} (R : Remote W).

(** One iteration of the loop over the credentials, for a credential with
    both fields: the loop goes on, with the session added when the
    credential succeeds and a warning printed when it fails. *)
Lemma verifyCredentials_cons siteUrl c rest v (st : State W) :
  complete c →
  ∃ st1 v1 evs1,
    verifyCredentials R siteUrl (c :: rest) v st
      = verifyCredentials R siteUrl rest v1 st1 ∧
    trace st1 = trace st ++ evs1 ∧
    world st1 = (verifyOne R siteUrl c (world st)).2 ∧
    currentAccountIndex st1 = currentAccountIndex st ∧
    cacheFiles st1 = cacheFiles st ∧
    statusCalls evs1 = [] ∧ indexingCalls evs1 = [] ∧ writes evs1 = [] ∧
    match (verifyOne R siteUrl c (world st)).1 with
    | Some (token, url) =>
        validCredentials st1
          = validCredentials st ++ [{| credential := c; accessToken := token |}] ∧
        v1 = (if negb (truthy v) then Some url else v) ∧
        warnings evs1 = []
    | None =>
        validCredentials st1 = validCredentials st ∧ v1 = v ∧
        warnings evs1 = [client_email c]
    end.
Proof.
  intros [Hemail Hkey]. simpl. unfold getAccessToken, verifyOne.
  rewrite Hemail, Hkey. mrun.
  destruct (authorize R (client_email c) (private_key c) (world st))
    as [[[token|]|msg] w1]; simpl.
  - destruct (nonEmpty token) eqn:Htok; simpl.
    + destruct (checkSiteUrl R token siteUrl w1) as [[url|msg] w2]; simpl.
      * eexists _, _, [Authorize (client_email c); CheckSiteUrl token siteUrl].
        split; [reflexivity|]. simpl. rewrite <- app_assoc.
        repeat split; reflexivity.
      * eexists _, _, [Authorize (client_email c); CheckSiteUrl token siteUrl;
                       Console (ServiceAccountFailed (client_email c) msg)].
        split; [reflexivity|]. simpl. rewrite <- !app_assoc.
        repeat split; reflexivity.
    + eexists _, _, [Authorize (client_email c);
                     Console (ServiceAccountFailed (client_email c)
                                "Failed to retrieve access token.")].
      split; [reflexivity|]. simpl. rewrite <- !app_assoc.
      repeat split; reflexivity.
  - eexists _, _, [Authorize (client_email c);
                   Console (ServiceAccountFailed (client_email c)
                              "Failed to retrieve access token.")].
    split; [reflexivity|]. simpl. rewrite <- !app_assoc.
    repeat split; reflexivity.
  - eexists _, _, [Authorize (client_email c);
                   Console (ServiceAccountFailed (client_email c) msg)].
    split; [reflexivity|]. simpl. rewrite <- !app_assoc.
    repeat split; reflexivity.
Qed.

Lemma verifyOne_url siteUrl c (w : W) token url :
  SiteFormNonEmpty R siteUrl →
  (verifyOne R siteUrl c w).1 = Some (token, url) → nonEmpty url = true.
Proof.
  intros Hne. unfold verifyOne.
  destruct (authorize R _ _ w) as [[[tok|]|msg] w1]; simpl; try discriminate.
  destruct (nonEmpty tok); simpl; try discriminate.
  pose proof (Hne tok w1) as Hurl.
  destruct (checkSiteUrl R tok siteUrl w1) as [[u|msg] w2]; simpl in *;
    try discriminate.
  intros [= _ <-]. now apply Hurl.
Qed.

Lemma warnings_app a b : warnings (a ++ b) = warnings a ++ warnings b.
Proof. apply collect_app. Qed.

(** The whole loop over credentials that all have both fields: it always
    returns; the sessions it adds are the survivors, the warnings it prints
    are for the dropped accounts. *)
Lemma verifyCredentials_spec siteUrl cs :
  Forall complete cs →
  ∀ v (st : State W),
    let r := verifyCredentials R siteUrl cs v st in
    ∃ v' evs,
      r.1 = Ok v' ∧
      trace r.2 = trace st ++ evs ∧
      validCredentials r.2
        = validCredentials st ++ (survivors R siteUrl cs (world st)).1 ∧
      currentAccountIndex r.2 = currentAccountIndex st ∧
      cacheFiles r.2 = cacheFiles st ∧
      warnings evs = dropped R siteUrl cs (world st) ∧
      (statusCalls evs = [] ∧ indexingCalls evs = [] ∧ writes evs = []) ∧
      (SiteFormNonEmpty R siteUrl →
       truthy v' = true ↔
       truthy v = true ∨ (survivors R siteUrl cs (world st)).1 ≠ []).
Proof.
  induction 1 as [|c cs Hc _ IH]; intros v st r.
  - exists v, []. subst r. simpl. rewrite !app_nil_r.
    repeat split; auto. tauto.
  - subst r.
    destruct (verifyCredentials_cons siteUrl c cs v st Hc)
      as (st1 & v1 & evs1 & Heq & Htr1 & Hw1 & Hi1 & Hcf1 & Hs1 & Hic1 & Hwr1
          & Hcase).
    rewrite Heq.
    destruct (IH v1 st1) as (v' & evs & Hres & Htr & Hvc & Hi & Hcf & Hwarn
                             & (Hs & Hic & Hwr) & Htruthy).
    exists v', (evs1 ++ evs).
    split; [exact Hres|].
    split; [rewrite Htr, Htr1; now rewrite app_assoc|].
    simpl survivors. simpl dropped.
    pose proof (verifyOne_url siteUrl c (world st)) as Hurl.
    destruct (verifyOne R siteUrl c (world st)) as [[[token url]|] w1] eqn:Hone;
      simpl in Hw1, Hcase, Hurl; subst w1;
      destruct (survivors R siteUrl cs (world st1)) as [sessions w2] eqn:Hsurv;
      simpl in *.
    + destruct Hcase as (Hvc1 & -> & Hwarn1).
      split; [rewrite Hvc, Hvc1; now rewrite <- app_assoc|].
      split; [congruence|]. split; [congruence|].
      split; [rewrite warnings_app, Hwarn1, Hwarn; reflexivity|].
      split.
      { rewrite statusCalls_app, indexingCalls_app, writes_app,
          Hs1, Hic1, Hwr1, Hs, Hic, Hwr. auto. }
      intros Hne. specialize (Htruthy Hne). rewrite Htruthy.
      specialize (Hurl token url Hne eq_refl).
      destruct (truthy v) eqn:Hv; simpl; rewrite ?Hv.
      * split; intros _; left; reflexivity.
      * rewrite Hurl. split; intros _; [right; discriminate|left; reflexivity].
    + destruct Hcase as (Hvc1 & -> & Hwarn1).
      split; [rewrite Hvc, Hvc1; reflexivity|].
      split; [congruence|]. split; [congruence|].
      split; [rewrite warnings_app, Hwarn1, Hwarn; reflexivity|].
      split.
      { rewrite statusCalls_app, indexingCalls_app, writes_app,
          Hs1, Hic1, Hwr1, Hs, Hic, Hwr. auto. }
      exact Htruthy.
Qed.

(** The loop over credentials that all have both fields leaves the world
    the attempts on them leave. *)
Lemma verifyCredentials_world siteUrl cs :
  Forall complete cs →
  ∀ v (st : State W),
    world (verifyCredentials R siteUrl cs v st).2
    = (survivors R siteUrl cs (world st)).2.
Proof.
  induction 1 as [|c cs Hc _ IH]; intros v st; [reflexivity|].
  destruct (verifyCredentials_cons siteUrl c cs v st Hc)
    as (st1 & v1 & evs1 & Heq & _ & Hw1 & _).
  rewrite Heq, IH, Hw1. simpl.
  destruct (verifyOne R siteUrl c (world st)) as [r w1]. simpl.
  now destruct (survivors R siteUrl cs w1).
Qed.

Lemma survivors_dropped_length siteUrl cs (w : W) :
  (length (survivors R siteUrl cs w).1 + length (dropped R siteUrl cs w)
   = length cs)%nat.
Proof.
  revert w. induction cs as [|c cs IH]; intros w; simpl; [reflexivity|].
  destruct (verifyOne R siteUrl c w) as [[[token url]|] w1].
  - specialize (IH w1). destruct (survivors R siteUrl cs w1). simpl in *. lia.
  - specialize (IH w1). destruct (survivors R siteUrl cs w1). simpl in *. lia.
Qed.

Lemma completePrefix_spec (cs : list ServiceAccount) :
  Forall complete (completePrefix cs).1 ∧
  match (completePrefix cs).2 with
  | None => (completePrefix cs).1 = cs
  | Some c => ¬ complete c ∧ ∃ post, cs = (completePrefix cs).1 ++ c :: post
  end.
Proof.
  induction cs as [|c cs [IHc IHs]]; simpl.
  - split; [constructor|reflexivity].
  - destruct (nonEmpty (client_email c)) eqn:He;
      [destruct (nonEmpty (private_key c)) eqn:Hk|]; simpl.
    + split; [constructor; [split; assumption|exact IHc]|].
      destruct (completePrefix cs).2 as [c'|].
      * destruct IHs as (Hc' & post & Hpost). split; [exact Hc'|].
        exists post. now rewrite <- Hpost.
      * now rewrite IHs.
    + split; [constructor|]. split; [|now exists cs].
      intros [_ Hk']. congruence.
    + split; [constructor|]. split; [|now exists cs].
      intros [He' _]. congruence.
Qed.

Lemma completePrefix_complete (cs : list ServiceAccount) :
  Forall complete cs ↔ (completePrefix cs).2 = None.
Proof.
  destruct (completePrefix_spec cs) as [Hc Hs]. split.
  - intros Hall. destruct (completePrefix cs).2 as [c|]; [|reflexivity].
    destruct Hs as (Hno & post & Hpost). exfalso. apply Hno.
    rewrite Hpost in Hall. apply Forall_app in Hall. destruct Hall as [_ Hall].
    now apply Forall_cons in Hall.
  - intros Hnone. rewrite Hnone in Hs. now rewrite <- Hs.
Qed.

(** The loop over a list made of two parts is the loop over the first
    followed by the loop over the second. *)
Lemma verifyCredentials_app siteUrl (cs cs' : list ServiceAccount) :
  ∀ v (st : State W),
    verifyCredentials R siteUrl (cs ++ cs') v st =
      match verifyCredentials R siteUrl cs v st with
      | (Ok v', st') => verifyCredentials R siteUrl cs' v' st'
      | other => other
      end.
Proof.
  induction cs as [|c cs IH]; intros v st; [reflexivity|].
  rewrite <- app_comm_cons. simpl.
  unfold bind at 1. symmetry. unfold bind at 1. symmetry.
  destruct (tryCatch _ _ st) as [[v1|msg|code|] st1]; try reflexivity.
  apply IH.
Qed.

(** A credential that lacks a field ends the loop, and the process, in
    [getAccessToken]: its line is the last thing printed. *)
Lemma verifyCredentials_incomplete siteUrl c rest v (st : State W) :
  ¬ complete c →
  verifyCredentials R siteUrl (c :: rest) v st
  = (Exit 1, logged st (missingField c)).
Proof.
  intros Hno. simpl. unfold getAccessToken, missingField, logged.
  destruct (nonEmpty (client_email c)) eqn:He; simpl; [|reflexivity].
  destruct (nonEmpty (private_key c)) eqn:Hk; simpl; [|reflexivity].
  exfalso. apply Hno. now split.
Qed.

(** C3 (amended): pool construction tries the credentials in turn up to
    the first one that lacks a client e-mail or a private key.  Each
    credential tried is handled whatever happened to the others: the pool
    holds exactly those whose token exchange and ownership check both
    succeed, and a warning is printed for each of the others, so every
    credential tried is either kept or warned about.  When every credential
    has both fields, all are tried; the run ends there with exit code 1
    when none succeeds and, given that a successful ownership check returns
    a non-empty site URL, only then: otherwise it goes on.  When a
    credential lacks a field, the process ends at that credential with exit
    code 1, whatever the credentials before it did and whatever those after
    it would do: its line is the last thing printed, no warning is printed
    for it, and the credentials after it are not tried. *)
Theorem pool_construction (siteUrl : string) (cs : list ServiceAccount)
    (st : State W) :
  let tried := (completePrefix cs).1 in
  let pool := (survivors R siteUrl tried (world st)).1 in
  let r := buildPool R siteUrl cs st in
  ∃ evs,
    trace r.2 = trace st ++ evs ∧
    validCredentials r.2 = pool ∧
    world r.2 = (survivors R siteUrl tried (world st)).2 ∧
    warnings evs = dropped R siteUrl tried (world st) ∧
    (length pool + length (warnings evs) = length tried)%nat ∧
    (Forall complete cs ↔ (completePrefix cs).2 = None) ∧
    match (completePrefix cs).2 with
    | None =>
        tried = cs ∧
        (pool = [] → r.1 = Exit 1) ∧
        (SiteFormNonEmpty R siteUrl →
         (r.1 = Exit 1 ↔ pool = []) ∧
         (pool ≠ [] → ∃ url, r.1 = Ok url))
    | Some c =>
        ¬ complete c ∧
        (∃ post, cs = tried ++ c :: post) ∧
        r.1 = Exit 1 ∧
        last evs = Some (Console (missingField c))
    end.
Proof.
  intros tried pool r. subst r.
  destruct (completePrefix_spec cs) as [Htried Hstop].
  fold tried in Htried, Hstop.
  set (st0 := mkState (world st) [] (currentAccountIndex st) (cacheFiles st)
                (trace st)).
  destruct (verifyCredentials_spec siteUrl tried Htried None st0)
    as (v' & evs & Hres & Htr & Hvc & _ & _ & Hwarn & _ & Htruthy).
  pose proof (verifyCredentials_world siteUrl tried Htried None st0) as Hworld.
  change (world st0) with (world st) in *. fold pool in Hvc, Htruthy.
  simpl in Hvc, Htr.
  assert (Hlen : (length pool + length (warnings evs) = length tried)%nat).
  { rewrite Hwarn. apply survivors_dropped_length. }
  destruct (completePrefix cs).2 as [c|] eqn:Hwhich.
  - destruct Hstop as (Hno & post & Hpost).
    assert (Hloop : verifyCredentials R siteUrl cs None st0
                    = (Exit 1,
                       logged (verifyCredentials R siteUrl tried None st0).2
                         (missingField c))).
    { rewrite Hpost at 1. rewrite verifyCredentials_app.
      destruct (verifyCredentials R siteUrl tried None st0)
        as [[v|msg|code|] st1]; simpl in Hres; try discriminate.
      now apply verifyCredentials_incomplete. }
    unfold buildPool. mrun. fold st0. rewrite Hloop. simpl.
    exists (evs ++ [Console (missingField c)]).
    assert (Hquiet : warnings [Console (missingField c)] = [])
      by (unfold missingField; now destruct (nonEmpty (client_email c))).
    rewrite Htr, Hvc, Hworld, warnings_app, Hwarn, Hquiet, app_nil_r.
    rewrite <- app_assoc.
    do 3 (split; [reflexivity|]). split; [reflexivity|].
    split; [rewrite <- Hwarn; exact Hlen|].
    split; [rewrite (completePrefix_complete cs), Hwhich; split; discriminate|].
    split; [exact Hno|]. split; [now exists post|].
    split; [reflexivity|]. now rewrite last_app.
  - assert (Hcs : tried = cs) by exact Hstop.
    unfold buildPool. mrun. fold st0. rewrite <- Hcs.
    destruct (verifyCredentials R siteUrl tried None st0) as [[v|msg|code|] st1];
      simpl in Hres; try discriminate.
    injection Hres as ->. simpl in *.
    rewrite Hvc.
    assert (Hall : Forall complete tried
                   ↔ None = (None : option ServiceAccount))
      by (split; [reflexivity|intros _; exact Htried]).
    destruct pool as [|session pool'] eqn:Hpool; simpl.
    + exists (evs ++ [Console NoServiceAccountWithAccess]).
      rewrite Htr, app_assoc.
      rewrite warnings_app in *. simpl. rewrite app_nil_r.
      do 4 (split; [solve [auto]|]). split; [exact Hlen|].
      split; [exact Hall|]. repeat split; auto; congruence.
    + destruct (truthy v') eqn:Hv; simpl.
      * exists evs.
        do 4 (split; [solve [auto]|]). split; [exact Hlen|].
        split; [exact Hall|].
        split; [reflexivity|]. split; [discriminate|].
        intros _. repeat split; try discriminate. eauto.
      * exists (evs ++ [Console NoServiceAccountWithAccess]).
        rewrite Htr, app_assoc.
        rewrite warnings_app in *. simpl. rewrite app_nil_r.
        do 4 (split; [solve [auto]|]). split; [exact Hlen|].
        split; [exact Hall|].
        split; [reflexivity|]. split; [discriminate|].
        intros Hsite. exfalso.
        assert (Hyes : false = true)
          by (apply (Htruthy Hsite); right; discriminate).
        discriminate Hyes.
Qed.

End Pool.

Lemma pool_construction_witness :
  let w := Fixture.mkWorld 0 [] [] [] [] [] ["c"] ["b"] in
  let cs := [Fixture.account "a"; Fixture.account "b"; Fixture.account "c"] in
  let r := buildPool Fixture.remote "https://a" cs (Fixture.start w []) in
  ∃ evs,
    trace r.2 = evs ∧
    validCredentials r.2 = [Fixture.session "a"] ∧
    warnings evs = ["b"; "c"] ∧
    r.1 ≠ Exit 1.
Proof.
  intros w cs r.
  assert (Hsite : SiteFormNonEmpty Fixture.remote "https://a").
  { intros token w' url. simpl.
    destruct (Fixture.isDenied w' token); simpl; [discriminate|].
    intros [= <-]. reflexivity. }
  destruct (pool_construction Fixture.remote "https://a" cs
              (Fixture.start w []))
    as (evs & Htr & Hvc & _ & Hwarn & _ & _ & _ & _ & Hgoes).
  destruct (Hgoes Hsite) as [Hexit _].
  exists evs. split; [exact Htr|]. split; [exact Hvc|]. split; [exact Hwarn|].
  intros He. apply Hexit in He. discriminate He.
Defined.

(** C3 as stated fails for a credential without a client e-mail: the first
    credential succeeds and is in the pool, the second has an empty
    e-mail, for which [getAccessToken] ends the process with exit code 1;
    no warning is printed. *)
Lemma pool_construction_counterexample :
  let cs := [Fixture.account "a";
             {| client_email := ""; private_key := "key" |}] in
  let r := buildPool Fixture.remote "https://a" cs
             (Fixture.start Fixture.quiet []) in
  r.1 = Exit 1 ∧
  validCredentials r.2 = [Fixture.session "a"] ∧
  warnings (trace r.2) = [].
Proof. repeat split; reflexivity. Qed.

(** ** Page-set resolution *)

Section PageSource.
Context {W : Type} (R : Remote W).

Lemma silent_cons (e : Event) (evs : list Event) :
  silentEvent e → silent evs → silent (e :: evs).
Proof. now constructor. Qed.

Lemma verifyCredentials_unfold siteUrl c cs v (st : State W) :
  verifyCredentials R siteUrl (c :: cs) v st =
    match getAccessToken R (client_email c) (private_key c) st with
    | (Ok token, st0) =>
        match checkSiteUrl R token siteUrl (world st0) with
        | (Returns url, w1) =>
            verifyCredentials R siteUrl cs
              (if negb (truthy v) then Some url else v)
              (mkState w1
                 (validCredentials st0
                    ++ [{| credential := c; accessToken := token |}])
                 (currentAccountIndex st0) (cacheFiles st0)
                 (trace st0 ++ [CheckSiteUrl token siteUrl]))
        | (Fails msg, w1) =>
            verifyCredentials R siteUrl cs v
              (mkState w1 (validCredentials st0) (currentAccountIndex st0)
                 (cacheFiles st0)
                 ((trace st0 ++ [CheckSiteUrl token siteUrl])
                    ++ [Console (ServiceAccountFailed (client_email c) msg)]))
        end
    | (Throw msg, st0) =>
        verifyCredentials R siteUrl cs v
          (mkState (world st0) (validCredentials st0)
             (currentAccountIndex st0) (cacheFiles st0)
             (trace st0
                ++ [Console (ServiceAccountFailed (client_email c) msg)]))
    | (Exit code, st0) => (Exit code, st0)
    | (OutOfFuel, st0) => (OutOfFuel, st0)
    end.
Proof.
  simpl. mrun.
  destruct (getAccessToken R (client_email c) (private_key c) st)
    as [[token|msg|code|] st0]; simpl; try reflexivity.
  destruct (checkSiteUrl R token siteUrl (world st0)) as [[url|msg] w1];
    reflexivity.
Qed.

(** The loop over the credentials, whatever they are, adds only silent
    events and leaves index and disk alone. *)
Lemma verifyCredentials_silent siteUrl cs :
  ∀ v (st : State W),
    let r := verifyCredentials R siteUrl cs v st in
    ∃ evs, trace r.2 = trace st ++ evs ∧ silent evs ∧
           currentAccountIndex r.2 = currentAccountIndex st ∧
           cacheFiles r.2 = cacheFiles st ∧
           r.1 ≠ OutOfFuel.
Proof.
  induction cs as [|c cs IH]; intros v st r; subst r.
  - exists []. simpl. rewrite app_nil_r.
    repeat split; auto using silent_nil; discriminate.
  - rewrite verifyCredentials_unfold.
    destruct (getAccessToken_frame R (client_email c) (private_key c) st)
      as (ev0 & Htr0 & Hsil0 & Hvc0 & Hi0 & Hcf0 & Hnf0).
    destruct (getAccessToken R (client_email c) (private_key c) st)
      as [[token|msg|code|] st0]; simpl in Htr0, Hvc0, Hi0, Hcf0, Hnf0;
      try congruence.
    + destruct (checkSiteUrl R token siteUrl (world st0)) as [[url|msg] w1].
      * match goal with
        | |- context [verifyCredentials R siteUrl cs ?v1 ?s1] =>
            destruct (IH v1 s1) as (evs & Htr & Hsil & Hi & Hcf & Hnf)
        end.
        simpl in Htr, Hi, Hcf.
        exists (ev0 ++ [CheckSiteUrl token siteUrl] ++ evs).
        split; [rewrite Htr, Htr0; now rewrite <- !app_assoc|].
        split; [|repeat split; congruence].
        apply silent_app; [exact Hsil0|].
        apply silent_cons; [repeat split|exact Hsil].
      * match goal with
        | |- context [verifyCredentials R siteUrl cs ?v1 ?s1] =>
            destruct (IH v1 s1) as (evs & Htr & Hsil & Hi & Hcf & Hnf)
        end.
        simpl in Htr, Hi, Hcf.
        exists (ev0 ++ [CheckSiteUrl token siteUrl;
                        Console (ServiceAccountFailed (client_email c) msg)]
                  ++ evs).
        split; [rewrite Htr, Htr0; now rewrite <- !app_assoc|].
        split; [|repeat split; congruence].
        apply silent_app; [exact Hsil0|].
        apply silent_cons; [repeat split|].
        apply silent_cons; [repeat split|exact Hsil].
    + match goal with
      | |- context [verifyCredentials R siteUrl cs ?v1 ?s1] =>
          destruct (IH v1 s1) as (evs & Htr & Hsil & Hi & Hcf & Hnf)
      end.
      simpl in Htr, Hi, Hcf.
      exists (ev0 ++ [Console (ServiceAccountFailed (client_email c) msg)]
                ++ evs).
      split; [rewrite Htr, Htr0; now rewrite <- !app_assoc|].
      split; [|repeat split; congruence].
      apply silent_app; [exact Hsil0|].
      apply silent_cons; [repeat split|exact Hsil].
    + exists ev0. simpl. repeat split; auto; discriminate.
Qed.

Lemma buildPool_ok siteUrl cs (st st1 : State W) url :
  buildPool R siteUrl cs st = (Ok url, st1) →
  (0 < length (validCredentials st1))%nat ∧
  currentAccountIndex st1 = currentAccountIndex st ∧
  cacheFiles st1 = cacheFiles st ∧
  ∃ evs, trace st1 = trace st ++ evs ∧ silent evs.
Proof.
  unfold buildPool. mrun.
  set (st0 := mkState (world st) [] (currentAccountIndex st) (cacheFiles st)
                (trace st)).
  destruct (verifyCredentials_silent siteUrl cs None st0)
    as (evs & Htr & Hsil & Hi & Hcf & _).
  destruct (verifyCredentials R siteUrl cs None st0) as [[v|msg|code|] st'];
    simpl in *; try discriminate.
  destruct (Nat.eqb_spec (length (validCredentials st')) 0) as [|Hne];
    simpl; [discriminate|].
  destruct (truthy v); simpl; [|discriminate].
  intros [= _ <-]. repeat split; auto; [lia|]. eauto.
Qed.

Lemma getServiceAccountCredentials_ok path (st st1 : State W) cs :
  getServiceAccountCredentials R path st = (Ok cs, st1) → st1 = st.
Proof.
  unfold getServiceAccountCredentials. mrun.
  destruct (negb (existsSync R _ (world st)) && negb (existsSync R _ (world st))
            && negb (truthy path && existsSync R _ (world st)));
    simpl; [discriminate|].
  destruct (readServiceAccountFile R _ (world st)) as [[key|keys]|msg];
    simpl; congruence.
Qed.

(** A run that gets past its preparation has a pool whose index points at
    the first session; so far it has only made silent events and has not
    touched the disk. *)
Lemma prepare_ok input options (st st1 : State W) cachePath siteUrl :
  prepare R input options st = (Ok (cachePath, siteUrl), st1) →
  poolOk st1 ∧ currentAccountIndex st1 = 0%nat ∧
  cacheFiles st1 = cacheFiles st ∧
  ∃ evs, trace st1 = trace st ++ evs ∧ silent evs.
Proof.
  unfold prepare.
  destruct (nonEmpty input); simpl; [|mrun; discriminate].
  unfold bind at 1.
  destruct ((if truthy (opt_client_email options)
                && truthy (opt_private_key options)
             then ret _ else getServiceAccountCredentials R (opt_path options))
              st) as [[cs|msg|code|] st0] eqn:Hcs; try discriminate.
  assert (Hst0 : st0 = st).
  { destruct (truthy (opt_client_email options)
              && truthy (opt_private_key options)).
    - unfold ret in Hcs. congruence.
    - eapply getServiceAccountCredentials_ok; eauto. }
  subst st0. unfold bind at 1. unfold console, emit.
  unfold bind at 1.
  match goal with
  | |- context [buildPool R ?u cs ?s] =>
      pose proof (buildPool_ok u cs s) as Hpool;
      destruct (buildPool R u cs s) as [[url|msg|code|] st2]; try discriminate
  end.
  destruct (Hpool st2 url eq_refl) as (Hpos & Hi & Hcf & evs & Htr & Hsil).
  mrun. intros [= _ <- <-]. unfold poolOk. simpl.
  repeat split; auto.
  exists (Console (ProcessingSite (convertToSiteUrl R input)) :: evs).
  split; [rewrite Htr; now rewrite <- app_assoc|].
  apply silent_cons; [repeat split|exact Hsil].
Qed.

Lemma index_after_prepare env input options (st st1 : State W)
    cachePath siteUrl :
  prepare R input (resolveOptions env options) st
    = (Ok (cachePath, siteUrl), st1) →
  index R env input options st =
    bind (resolvePages R siteUrl (opt_urls (resolveOptions env options)))
      (λ pages,
         bind (statusPhase R cachePath siteUrl pages)
           (reportAndRequest R (resolveOptions env options))) st1.
Proof. intros Hprep. unfold index. unfold bind at 1. now rewrite Hprep. Qed.

(** Discovery that finds no sitemap ends the run: three events and exit
    code 1.  An absent list and an empty one take this same path. *)
Lemma resolvePages_zero_sitemaps siteUrl urls (st : State W) :
  default [] urls = [] → poolOk st → ZeroSitemaps R siteUrl st →
  ∃ token,
    (resolvePages R siteUrl urls st).1 = Exit 1 ∧
    trace (resolvePages R siteUrl urls st).2
      = trace st ++ [Console FetchingSitemaps; GetSitemapPages token siteUrl;
                     Console NoSitemapsFound] ∧
    cacheFiles (resolvePages R siteUrl urls st).2 = cacheFiles st.
Proof.
  intros Hurls Hok Hzero. unfold resolvePages. rewrite Hurls. simpl.
  destruct (lookup_lt_is_Some_2 _ _ Hok) as [session Hsession].
  destruct (Hzero session Hsession) as [pages Hpages].
  exists (accessToken session).
  unfold currentSession. mrun. rewrite Hsession. simpl.
  destruct (getSitemapPages R (accessToken session) siteUrl (world st))
    as [r w]. simpl in Hpages. subst r. simpl.
  rewrite <- !app_assoc. repeat split; reflexivity.
Qed.


(** C9: an explicit but empty URL list is not used as the page set.  With
    no URL list in the environment either, the run is the very run made
    when no list is supplied; and in any case it goes to sitemap discovery,
    so that, once past its preparation, it ends with exit code 1 when
    discovery finds no sitemap. *)
Theorem empty_list_falls_through (env : ProcessEnv) (input : string)
    (options : IndexOptions) (st : State W) :
  (truthy (GIS_URLS env) = false →
   index R env input (withUrls options (Some [])) st
     = index R env input (withUrls options None) st)
  ∧
  (∀ cachePath siteUrl st1,
     prepare R input (resolveOptions env (withUrls options (Some []))) st
       = (Ok (cachePath, siteUrl), st1) →
     ZeroSitemaps R siteUrl st1 →
     let r := index R env input (withUrls options (Some [])) st in
     r.1 = Exit 1 ∧
     ∃ token,
       trace r.2
         = trace st1 ++ [Console FetchingSitemaps;
                         GetSitemapPages token siteUrl;
                         Console NoSitemapsFound]).
Proof.
  split.
  - intros Henv. unfold index, resolveOptions, withUrls. simpl.
    rewrite Henv. reflexivity.
  - intros cachePath siteUrl st1 Hprep Hzero r. subst r.
    rewrite (index_after_prepare _ _ _ _ _ _ _ Hprep).
    destruct (prepare_ok _ _ _ _ _ _ Hprep) as (Hok & _).
    change (opt_urls (resolveOptions env (withUrls options (Some []))))
      with (Some (@nil string)).
    destruct (resolvePages_zero_sitemaps siteUrl (Some []) st1 eq_refl Hok Hzero)
      as (token & Hres & Htr & _).
    unfold bind at 1. unfold bind at 2.
    destruct (resolvePages R siteUrl (Some []) st1) as [[pages|msg|code|] st2];
      simpl in Hres, Htr; try discriminate.
    injection Hres as ->. simpl. eauto.
Qed.

End PageSource.



Lemma empty_list_falls_through_witness :
  let options :=
    {| opt_client_email := Some "a"; opt_private_key := Some "key";
       opt_path := None; opt_urls := None; opt_quota := None |} in
  let st := Fixture.start Fixture.quiet [] in
  index Fixture.remote Fixture.noEnv "https://a"
    (withUrls options (Some [])) st
  = index Fixture.remote Fixture.noEnv "https://a" (withUrls options None) st
  ∧
  (index Fixture.remote Fixture.noEnv "https://a"
     (withUrls options (Some [])) st).1 = Exit 1.
Proof.
  intros options st.
  destruct (empty_list_falls_through Fixture.remote Fixture.noEnv "https://a"
              options st) as [Hsame Hfatal].
  split; [apply Hsame; reflexivity|].
  set (p := prepare Fixture.remote "https://a"
              (resolveOptions Fixture.noEnv (withUrls options (Some []))) st).
  assert (Hprep : p = (Ok (".cache/https://a.json", "https://a"), p.2))
    by reflexivity.
  apply (Hfatal _ _ _ Hprep).
  intros session Hsession. exists []. reflexivity.
Defined.

(** ** The status phase *)

Section StatusPhase.
Context {W : Type} (R : Remote W).

Lemma checkUrl_unfold siteUrl url (cache : Cache) pps (st : State W) :
  checkUrl R siteUrl url (cache, pps) st =
    match cache !! url with
    | Some result =>
        if shouldRecheck (clock R (world st)) (status result)
             (lastCheckedAt result)
        then
          match fetchLive R siteUrl url cache st with
          | (Ok (result', cache'), st') =>
              (Ok (cache', addPage (status result') url pps), st')
          | (Throw msg, st') => (Throw msg, st')
          | (Exit code, st') => (Exit code, st')
          | (OutOfFuel, st') => (OutOfFuel, st')
          end
        else (Ok (cache, addPage (status result) url pps), st)
    | None =>
        match fetchLive R siteUrl url cache st with
        | (Ok (result', cache'), st') =>
            (Ok (cache', addPage (status result') url pps), st')
        | (Throw msg, st') => (Throw msg, st')
        | (Exit code, st') => (Exit code, st')
        | (OutOfFuel, st') => (OutOfFuel, st')
        end
    end.
Proof.
  unfold checkUrl. unfold bind at 1. unfold get. unfold bind at 1.
  destruct (cache !! url) as [result|].
  - destruct (shouldRecheck _ _ _).
    + destruct (fetchLive R siteUrl url cache st)
        as [[[result' cache']|msg|code|] st']; reflexivity.
    + reflexivity.
  - destruct (fetchLive R siteUrl url cache st)
      as [[[result' cache']|msg|code|] st']; reflexivity.
Qed.

Lemma batchFrom_cons {Acc : Type} (task : string → Acc → M W Acc)
    size batchCount settled item rest acc (st : State W) :
  batchFrom task size batchCount settled (item :: rest) acc st =
    match task item acc st with
    | (Ok acc', st') =>
        batchFrom task size batchCount (S settled) rest acc'
          (afterItem size batchCount (S settled) rest st')
    | (Throw msg, st') => (Throw msg, st')
    | (Exit code, st') => (Exit code, st')
    | (OutOfFuel, st') => (OutOfFuel, st')
    end.
Proof.
  simpl. unfold bind at 1.
  destruct (task item acc st) as [[acc'|msg|code|] st']; try reflexivity.
  unfold afterItem. unfold bind at 1.
  destruct ((S settled mod size =? 0)%nat || (length rest =? 0)%nat)%bool;
    reflexivity.
Qed.

Lemma afterItem_trace size batchCount settled rest (st : State W) :
  ∃ evs, trace (afterItem size batchCount settled rest st) = trace st ++ evs ∧
         silent evs.
Proof.
  unfold afterItem.
  destruct ((settled mod size =? 0)%nat || (length rest =? 0)%nat)%bool.
  - eexists. split; [reflexivity|]. repeat constructor.
  - exists []. rewrite app_nil_r. split; [reflexivity|constructor].
Qed.

Lemma afterItem_preserved size batchCount settled rest (st : State W) :
  Preserved R st (afterItem size batchCount settled rest st) ∧
  world (afterItem size batchCount settled rest st) = world st.
Proof.
  unfold afterItem.
  destruct ((settled mod size =? 0)%nat || (length rest =? 0)%nat)%bool;
    (split; [split; simpl; auto; intros; lia|reflexivity]).
Qed.

Lemma statusesOf_calls url (evs : list Event) :
  statusesOf url evs = collect (answerFor url) (statusCalls evs).
Proof.
  unfold statusesOf, statusCalls.
  induction evs as [|e evs IH]; [reflexivity|].
  destruct e; simpl; auto.
  unfold answerFor. simpl. destruct (decide (url0 = url)); now rewrite IH.
Qed.

Lemma answers_same url (ts : list Status.t) :
  collect (answerFor url) (map (pair url) ts) = ts.
Proof.
  induction ts as [|t ts IH]; [reflexivity|].
  simpl. unfold answerFor at 1. simpl.
  destruct (decide (url = url)); [now rewrite IH|congruence].
Qed.

Lemma answers_other url v (ts : list Status.t) :
  v ≠ url → collect (answerFor v) (map (pair url) ts) = [].
Proof.
  intros Hne. induction ts as [|t ts IH]; [reflexivity|].
  simpl. unfold answerFor at 1. simpl.
  destruct (decide (url = v)); [congruence|exact IH].
Qed.



(** A URL whose check returns: either its cached record was fresh and
    nothing happened, or it was fetched live and its record is replaced by
    the status last answered and the instant the fetch ended. *)
Lemma checkUrl_ok siteUrl url (cache cache' : Cache) pps pps'
    (st st' : State W) :
  poolOk st →
  checkUrl R siteUrl url (cache, pps) st = (Ok (cache', pps'), st') →
  ∃ result evs,
    cache' !! url = Some result ∧
    pps' = addPage (status result) url pps ∧
    trace st' = trace st ++ evs ∧
    Preserved R st st' ∧
    writes evs = [] ∧ indexingCalls evs = [] ∧
    (∀ v, v ≠ url → statusesOf v evs = []) ∧
    ((cache !! url = Some result ∧
      shouldRecheck (clock R (world st)) (status result)
        (lastCheckedAt result) = false ∧
      cache' = cache ∧ st' = st ∧ evs = [])
     ∨
     ((cache !! url = None ∨
       ∃ old, cache !! url = Some old ∧
              shouldRecheck (clock R (world st)) (status old)
                (lastCheckedAt old) = true) ∧
      cache' = <[url := result]> cache ∧
      lastCheckedAt result = clock R (world st') ∧
      liveStatus url evs = Some (status result))).
Proof.
  intros Hok. rewrite checkUrl_unfold.
  assert (Hlive :
    (cache !! url = None ∨
     ∃ old, cache !! url = Some old ∧
            shouldRecheck (clock R (world st)) (status old)
              (lastCheckedAt old) = true) →
    match fetchLive R siteUrl url cache st with
    | (Ok (result', cache'0), st'0) =>
        (Ok (cache'0, addPage (status result') url pps), st'0)
    | (Throw msg, st'0) => (Throw msg, st'0)
    | (Exit code, st'0) => (Exit code, st'0)
    | (OutOfFuel, st'0) => (OutOfFuel, st'0)
    end = (Ok (cache', pps'), st') →
    ∃ result evs,
      cache' !! url = Some result ∧
      pps' = addPage (status result) url pps ∧
      trace st' = trace st ++ evs ∧
      Preserved R st st' ∧
      writes evs = [] ∧ indexingCalls evs = [] ∧
      (∀ v, v ≠ url → statusesOf v evs = []) ∧
      ((cache !! url = Some result ∧
        shouldRecheck (clock R (world st)) (status result)
          (lastCheckedAt result) = false ∧
        cache' = cache ∧ st' = st ∧ evs = [])
       ∨
       ((cache !! url = None ∨
         ∃ old, cache !! url = Some old ∧
                shouldRecheck (clock R (world st)) (status old)
                  (lastCheckedAt old) = true) ∧
        cache' = <[url := result]> cache ∧
        lastCheckedAt result = clock R (world st') ∧
        liveStatus url evs = Some (status result)))).
  { intros Hstale.
    destruct (fetchLive_shape R siteUrl url cache st Hok)
      as (evs & ts & Htr & Hp & _ & _ & _ & _ & (Hic & _ & Hw & _) & Hrec
          & Hshape).
    destruct (fetchLive R siteUrl url cache st)
      as [[[result cache1]|msg|code|] st1]; cbn [fst snd] in *;
      try discriminate.
    intros [= <- <- <-].
    destruct (Hrec result cache1 eq_refl) as [-> Hts].
    exists result, evs.
    split; [apply lookup_insert_eq|].
    do 5 (split; [solve [auto]|]).
    split.
    { intros v Hv. rewrite statusesOf_calls.
      destruct Hshape as [[Hc _]|(s & _ & Hc & _)]; rewrite Hc.
      - now apply answers_other.
      - rewrite collect_app, answers_other by exact Hv.
        simpl. unfold answerFor. simpl.
        destruct (decide (url = v)); [congruence|reflexivity]. }
    right. do 3 (split; [solve [auto]|]).
    unfold liveStatus. rewrite statusesOf_calls.
    destruct Hshape as [[Hc Hlast]|(s & _ & Hc & _ & r' & c' & Hres & Hs)];
      rewrite Hc.
    - rewrite answers_same. now destruct (Hlast result _ eq_refl).
    - rewrite collect_app, answers_same. simpl. unfold answerFor. simpl.
      destruct (decide (url = url)); [|congruence].
      rewrite last_snoc. injection Hres as <- _. now rewrite Hs. }
  destruct (cache !! url) as [result|] eqn:Hlookup.
  - destruct (shouldRecheck _ _ _) eqn:Hstale.
    + apply Hlive. right. eauto.
    + intros [= <- <- <-]. exists result, [].
      rewrite app_nil_r.
      do 7 (split; [solve [auto using Preserved_refl]|]).
      left. auto.
  - apply Hlive. now left.
Qed.


Lemma statusPhase_unfold cachePath siteUrl pages (st : State W) :
  statusPhase R cachePath siteUrl pages st =
    match batch (checkUrl R siteUrl) pages 50
            (default ∅ (cacheFiles st !! cachePath), initialPagesPerStatus)
            st with
    | (Ok (statusPerUrl, pagesPerStatus), st') =>
        (Ok pagesPerStatus,
         mkState (world st') (validCredentials st') (currentAccountIndex st')
           (<[cachePath := statusPerUrl]> (cacheFiles st'))
           ((trace st' ++ [Console (DoneStatus (length pages))])
              ++ [WriteFile cachePath statusPerUrl]))
    | (Throw msg, st') => (Throw msg, st')
    | (Exit code, st') => (Exit code, st')
    | (OutOfFuel, st') => (OutOfFuel, st')
    end.
Proof.
  unfold statusPhase. unfold bind at 1. unfold get. unfold bind at 1.
  destruct (batch _ _ _ _ _) as [[[c p]|msg|code|] st']; reflexivity.
Qed.


End StatusPhase.



(** ** Two runs in succession *)



Section Succession.
Context {W : Type} (R : Remote W).

(** A batch in which every item has a record fresh at the current instant
    fetches nothing: the store is returned as it is, the partition is the
    replay of the store, and only progress lines are printed. *)
Lemma statusBatch_hits siteUrl size batchCount (cache : Cache) :
  ∀ items settled pps (st : State W),
    (∀ v, v ∈ items → ∃ r, cache !! v = Some r ∧
                            Settled (clock R (world st)) r) →
    ∃ st',
      batchFrom (checkUrl R siteUrl) size batchCount settled items (cache, pps)
        st = (Ok (cache, replay cache pps items), st') ∧
      world st' = world st ∧
      validCredentials st' = validCredentials st ∧
      currentAccountIndex st' = currentAccountIndex st ∧
      cacheFiles st' = cacheFiles st ∧
      ∃ evs, trace st' = trace st ++ evs ∧ silent evs.
Proof.
  induction items as [|url rest IH]; intros settled pps st Hall.
  - exists st. simpl. unfold ret. repeat split; auto.
    exists []. rewrite app_nil_r. split; [reflexivity|constructor].
  - destruct (Hall url) as (r & Hr & Hfresh); [apply elem_of_cons; now left|].
    rewrite batchFrom_cons, checkUrl_unfold, Hr.
    unfold Settled in Hfresh. rewrite Hfresh.
    destruct (afterItem_preserved R size batchCount (S settled) rest st)
      as [Hp Hw].
    destruct (afterItem_trace size batchCount (S settled) rest st)
      as (evB & HtrB & HsilB).
    set (st1 := afterItem size batchCount (S settled) rest st) in *.
    destruct (IH (S settled) (addPage (status r) url pps) st1)
      as (st' & Hrun & Hw' & Hvc & Hi & Hcf & evs & Htr & Hsil).
    { intros v Hv. rewrite Hw. apply Hall. apply elem_of_cons. now right. }
    exists st'. split.
    { rewrite Hrun. simpl. unfold replay. simpl. now rewrite Hr. }
    split; [congruence|].
    split; [rewrite Hvc; unfold st1, afterItem; now destruct (_ || _)%bool|].
    split; [rewrite Hi; unfold st1, afterItem; now destruct (_ || _)%bool|].
    split; [rewrite Hcf; unfold st1, afterItem; now destruct (_ || _)%bool|].
    exists (evB ++ evs). split; [rewrite Htr, HtrB; now rewrite app_assoc|].
    now apply silent_app.
Qed.


End Succession.

(** * Further properties *)

(** ** Invariants and outcomes, compositionally *)

Section RunRules.
Context {W : Type} (I : State W → Prop) (o : Outcomes).

Lemma Run_ret {A} (a : A) : Run I o (ret a).
Proof. intros st HI. split; [exact HI|exact Logic.I]. Qed.

Lemma Run_bind {A B} (m : M W A) (k : A → M W B) :
  Run I o m → (∀ a, Run I o (k a)) → Run I o (bind m k).
Proof.
  intros Hm Hk st HI. unfold bind.
  destruct (Hm st HI) as [HI' Hout].
  destruct (m st) as [[a|msg|code|] st']; simpl in *; auto.
  apply Hk, HI'.
Qed.

(** Reading the state: what follows may rely on the state read being the
    current one and satisfying the invariant. *)
Lemma Run_bind_get {A} (k : State W → M W A) :
  (∀ st, I st → I (k st st).2 ∧ admits o (k st st).1) →
  Run I o (bind get k).
Proof. intros Hk st HI. unfold bind, get. now apply Hk. Qed.

Lemma Run_throw {A} (msg : string) : okThrow o msg → Run I o (@throw W A msg).
Proof. intros Hmsg st HI. split; [exact HI|exact Hmsg]. Qed.

Lemma Run_exit {A} (code : Z) : okExit o code → Run I o (@exit W A code).
Proof. intros Hcode st HI. split; [exact HI|exact Hcode]. Qed.

End RunRules.

Section Walk.
Context {W : Type} (R : Remote W) (n : nat) (I : State W → Prop)
  (o : Outcomes) (HI : PhaseInvariant R n I o).

Lemma Run_call {A} (f : W → A * W) (ev : A → Event) :
  (∀ a, rotationOf (ev a) = None ∧ writeOf (ev a) = None) →
  Run I o (call f ev).
Proof.
  intros Hev st Hst. unfold call.
  destruct (f (world st)) as [a w]. simpl.
  split; [|exact Logic.I]. now apply (inv_step R n I o HI); try apply Hev.
Qed.

Lemma Run_console (line : Line) :
  rotationOf (Console line) = None → Run I o (console line).
Proof.
  intros Hline st Hst. unfold console, emit. simpl.
  split; [|exact Logic.I]. now apply (inv_step R n I o HI).
Qed.

Lemma Run_currentSession : Run I o (currentSession).
Proof.
  apply Run_bind_get. intros st Hst.
  destruct (inv_size R n I o HI st Hst) as [Hlen Hidx].
  destruct (lookup_lt_is_Some_2 (validCredentials st) (currentAccountIndex st))
    as [session Hsession]; [lia|].
  rewrite Hsession. now apply Run_ret.
Qed.

Lemma Run_statusLoop fuel :
  ∀ siteUrl url status k,
    (n ≤ k + fuel)%nat → Run I o (statusLoop R fuel siteUrl url status k).
Proof.
  induction fuel as [|fuel IH]; intros siteUrl url status k Hfuel.
  - intros st Hst. destruct (inv_size R n I o HI st Hst) as [Hlen _].
    rewrite statusLoop_exit by lia. split; [exact Hst|exact Logic.I].
  - simpl. apply Run_bind_get. intros st Hst.
    destruct (inv_size R n I o HI st Hst) as [Hlen _].
    destruct (Nat.ltb_spec k (length (validCredentials st)));
      [|now apply Run_ret].
    revert st Hst Hlen H. 
    assert (Hbody : Run I o
      (let* session := currentSession
       in let* status0 :=
            call (getPageIndexingStatus R (accessToken session) siteUrl url)
              (GetPageIndexingStatus (accessToken session) siteUrl url)
          in if decide (status0 = Status.RateLimited)
             then let* _ := rotateAccount R
                  in statusLoop R fuel siteUrl url status0 (S k)
             else if decide (status0 = Status.Forbidden)
                  then let* _ := rotateAccount R
                       in statusLoop R fuel siteUrl url status0 (S k)
                  else ret status0)).
    { apply Run_bind; [apply Run_currentSession|]. intros session.
      apply Run_bind; [apply Run_call; intros; split; reflexivity|].
      intros status0.
      destruct (decide (status0 = Status.RateLimited)).
      - apply Run_bind; [apply (inv_rotate R n I o HI)|].
        intros _. apply IH. lia.
      - destruct (decide (status0 = Status.Forbidden)).
        + apply Run_bind; [apply (inv_rotate R n I o HI)|].
          intros _. apply IH. lia.
        + apply Run_ret. }
    intros st Hst _ _. now apply Hbody.
Qed.

End Walk.

Section WalkPhases.
Context {W : Type} (R : Remote W) (n : nat) (I : State W → Prop)
  (o : Outcomes) (HI : PhaseInvariant R n I o).

Lemma Run_fetchLive siteUrl url (cache : Cache) :
  Run I o (fetchLive R siteUrl url cache).
Proof.
  unfold fetchLive. apply Run_bind_get. intros st Hst.
  destruct (inv_size R n I o HI st Hst) as [Hlen _].
  apply Run_bind; [|intros status; apply Run_bind_get; intros st' Hst';
                    now apply Run_ret|exact Hst].
  apply (Run_statusLoop R n I o HI). lia.
Qed.

Lemma Run_checkUrl siteUrl url (acc : Cache * Partition) :
  Run I o (checkUrl R siteUrl url acc).
Proof.
  unfold checkUrl. destruct acc as [cache pps].
  apply Run_bind_get. intros st Hst.
  apply Run_bind; [|intros [result cache']; apply Run_ret|exact Hst].
  destruct (cache !! url) as [result|]; [|apply Run_fetchLive].
  destruct (shouldRecheck _ _ _); [apply Run_fetchLive|apply Run_ret].
Qed.

Lemma Run_batchFrom {Acc : Type} (task : string → Acc → M W Acc)
    size batchCount :
  (∀ item acc, Run I o (task item acc)) →
  ∀ items settled acc,
    Run I o (batchFrom task size batchCount settled items acc).
Proof.
  intros Htask. induction items as [|item rest IH]; intros settled acc; simpl.
  - apply Run_ret.
  - apply Run_bind; [apply Htask|]. intros acc'.
    apply Run_bind; [|intros _; apply IH].
    destruct (_ || _)%bool; [|apply Run_ret].
    now apply (Run_console R n I o HI).
Qed.

Lemma Run_requestLoop fuel :
  ∀ url retries k,
    (n ≤ k + fuel)%nat → Run I o (requestLoop R fuel url retries k).
Proof.
  induction fuel as [|fuel IH]; intros url retries k Hfuel.
  - intros st Hst. destruct (inv_size R n I o HI st Hst) as [Hlen _].
    rewrite requestLoop_exit by lia. split; [exact Hst|exact Logic.I].
  - simpl. apply Run_bind_get. intros st Hst.
    destruct (inv_size R n I o HI st Hst) as [Hlen _].
    destruct (Nat.ltb_spec k (length (validCredentials st)));
      [|now apply Run_ret].
    revert st Hst Hlen H.
    assert (Hbody : Run I o
      (let* session := currentSession
       in let* status :=
            call (getPublishMetadata R (accessToken session) url retries)
              (GetPublishMetadata (accessToken session) url retries)
          in if throttled status
             then let* _ := rotateAccount R
                  in requestLoop R fuel url retries (S k)
             else if status =? 404
                  then let* requestStatus :=
                         call (requestIndexing R (accessToken session) url)
                           (RequestIndexing (accessToken session) url)
                       in if throttled requestStatus
                          then let* _ := rotateAccount R
                               in requestLoop R fuel url retries (S k)
                          else let* _ := console IndexingRequested in ret true
                  else let* _ :=
                         (if status <? 400 then console AlreadyRequested
                          else ret ())
                       in ret true)).
    { apply Run_bind; [apply (Run_currentSession R n I o HI)|]. intros session.
      apply Run_bind;
        [apply (Run_call R n I o HI); intros; split; reflexivity|].
      intros status.
      destruct (throttled status).
      - apply Run_bind; [apply (inv_rotate R n I o HI)|].
        intros _. apply IH. lia.
      - destruct (status =? 404).
        + apply Run_bind;
            [apply (Run_call R n I o HI); intros; split; reflexivity|].
          intros requestStatus. destruct (throttled requestStatus).
          * apply Run_bind; [apply (inv_rotate R n I o HI)|].
            intros _. apply IH. lia.
          * apply Run_bind; [now apply (Run_console R n I o HI)|].
            intros _. apply Run_ret.
        + apply Run_bind; [|intros _; apply Run_ret].
          destruct (status <? 400); [|apply Run_ret].
          now apply (Run_console R n I o HI). }
    intros st Hst _ _. now apply Hbody.
Qed.

Lemma Run_processUrl retries url : Run I o (processUrl R retries url).
Proof.
  unfold processUrl.
  apply Run_bind; [now apply (Run_console R n I o HI)|]. intros _.
  apply Run_bind_get. intros st Hst.
  destruct (inv_size R n I o HI st Hst) as [Hlen _].
  apply Run_bind; [apply Run_requestLoop; lia| |exact Hst].
  intros [|]; simpl; [apply Run_ret|].
  now apply (Run_console R n I o HI).
Qed.

Lemma Run_requestPhase retries pages : Run I o (requestPhase R retries pages).
Proof.
  induction pages as [|url rest IH]; simpl; [apply Run_ret|].
  apply Run_bind; [apply Run_processUrl|]. intros _. exact IH.
Qed.

Lemma Run_printSummary (pps : Partition) : Run I o (printSummary pps).
Proof.
  induction pps as [|[status pages] rest IH]; simpl; [apply Run_ret|].
  apply Run_bind; [|intros _; exact IH].
  destruct (length pages =? 0)%nat; [apply Run_ret|].
  now apply (Run_console R n I o HI).
Qed.

Lemma Run_printIndexable (pages : list string) : Run I o (printIndexable pages).
Proof.
  induction pages as [|url rest IH]; simpl; [apply Run_ret|].
  apply Run_bind; [now apply (Run_console R n I o HI)|]. intros _. exact IH.
Qed.

Lemma Run_reportAndRequest options (pps : Partition) :
  Run I o (reportAndRequest R options pps).
Proof.
  unfold reportAndRequest.
  apply Run_bind; [apply Run_printSummary|]. intros _.
  apply Run_bind; [|intros _].
  - destruct (length _ =? 0)%nat; [now apply (Run_console R n I o HI)|].
    apply Run_bind; [now apply (Run_console R n I o HI)|]. intros _.
    apply Run_printIndexable.
  - apply Run_bind; [apply Run_requestPhase|]. intros _.
    now apply (Run_console R n I o HI).
Qed.

Lemma Run_statusBatch siteUrl pages (cache : Cache) :
  Run I o (batch (checkUrl R siteUrl) pages 50 (cache, initialPagesPerStatus)).
Proof. unfold batch. apply Run_batchFrom. intros. apply Run_checkUrl. Qed.

End WalkPhases.

(** ** The phases keep the pool, the disk and the round-robin index *)

Section PhaseStateInvariant.
Context {W : Type} (R : Remote W).

Lemma getAccessToken_outcome email key (st : State W) :
  admits exitOne (getAccessToken R email key st).1.
Proof.
  unfold getAccessToken.
  destruct (nonEmpty email); simpl; [|reflexivity].
  destruct (nonEmpty key); simpl; [|reflexivity].
  mrun. destruct (authorize R email key (world st)) as [[tok|msg] w]; simpl.
  - now destruct (truthy tok).
  - exact Logic.I.
Qed.

Lemma rotateAccount_outcome (st : State W) :
  (0 < length (validCredentials st))%nat →
  admits exitOne (rotateAccount R st).1.
Proof.
  intros Hpos.
  destruct (rotateAccount_frame R st Hpos) as (next & _ & Hnext & _).
  rewrite (rotateAccount_unfold R st next Hnext).
  pose proof (getAccessToken_outcome (client_email (credential next))
                (private_key (credential next)) (rotating st next)) as Hout.
  destruct (getAccessToken R _ _ _) as [[tok|msg|code|] st']; exact Hout.
Qed.

Lemma PhaseState_invariant n i0 cs disk t0 :
  PhaseInvariant R n (PhaseState (W:=W) n i0 cs disk t0) exitOne.
Proof.
  split.
  - intros st (Hlen & Hidx & _). auto.
  - intros w e st Hrot Hwr (Hlen & Hidx & Hcs & Hdisk & evs & Htr & Hw & Hi).
    repeat split; auto. exists (evs ++ [e]). simpl.
    split; [rewrite Htr; now rewrite app_assoc|].
    split.
    + rewrite writes_app, Hw. unfold writes. simpl. now rewrite Hwr.
    + rewrite rotations_app. unfold rotations at 2. simpl. rewrite Hrot.
      now rewrite app_nil_r.
  - intros st (Hlen & Hidx & Hcs & Hdisk & evs & Htr & Hw & Hi).
    assert (Hpos : (0 < length (validCredentials st))%nat) by lia.
    split; [|now apply rotateAccount_outcome].
    destruct (rotateAccount_frame R st Hpos)
      as (next & evr & _ & Htr' & Hsil & Hidx' & Hcf & _ & _).
    pose proof (rotateAccount_length R st Hpos) as Hlen'.
    pose proof (rotateAccount_credentials R st Hpos) as Hcs'.
    pose proof (nextIndex_lt st Hpos) as Hlt.
    split; [congruence|]. split; [rewrite Hidx'; lia|].
    split; [congruence|]. split; [congruence|].
    exists (evs ++ Console (RotatingTo (client_email (credential next))) :: evr).
    split; [rewrite Htr', Htr; now rewrite app_assoc|].
    silence Hsil. split.
    + rewrite writes_app, Hw. unfold writes in *. simpl. assumption.
    + rewrite Hidx'. unfold nextIndex. rewrite Hlen, Hi.
      rewrite rotations_app, length_app. unfold rotations at 3. simpl.
      fold (rotations evr). rewrite (silent_rotations _ Hsil). simpl.
      rewrite Nat.Div0.add_mod_idemp_l. f_equal. lia.
Qed.

Lemma PhaseState_start (st : State W) :
  poolOk st →
  PhaseState (length (validCredentials st)) (currentAccountIndex st)
    (credential <$> validCredentials st) (cacheFiles st) (trace st) st.
Proof.
  intros Hok. unfold poolOk in Hok. repeat split; auto.
  exists []. rewrite app_nil_r. repeat split; auto.
  simpl. rewrite Nat.add_0_r. symmetry. now apply Nat.mod_small.
Qed.

End PhaseStateInvariant.

Section RoundRobin.
Context {W : Type} (R : Remote W).

(** X5: over a whole batch of status checks, and over the whole request
    phase, whatever the outcome, the pool keeps its size and its
    credentials, the disk is not touched, no file is written, and the
    active-session index ends where it started plus one step, round the
    pool, for every rotation made. *)
Theorem phases_round_robin (st : State W) (siteUrl : string)
    (pages urls : list string) (cache : Cache) (retries : nat)
    (Hpool : poolOk st) :
  let n := length (validCredentials st) in
  let after (st' : State W) :=
    length (validCredentials st') = n ∧
    credential <$> validCredentials st' = credential <$> validCredentials st ∧
    cacheFiles st' = cacheFiles st ∧
    ∃ evs, trace st' = trace st ++ evs ∧ writes evs = [] ∧
           currentAccountIndex st'
           = ((currentAccountIndex st + length (rotations evs)) mod n)%nat in
  after (batch (checkUrl R siteUrl) pages 50 (cache, initialPagesPerStatus) st).2
  ∧ after (requestPhase R retries urls st).2.
Proof.
  intros n after.
  pose proof (PhaseState_invariant R n (currentAccountIndex st)
                (credential <$> validCredentials st) (cacheFiles st) (trace st))
    as HI.
  pose proof (PhaseState_start st Hpool) as Hst. fold n in Hst.
  split.
  - destruct (Run_statusBatch R n _ _ HI siteUrl pages cache st Hst)
      as [(Hlen & _ & Hcs & Hdisk & Hevs) _].
    unfold after. auto.
  - destruct (Run_requestPhase R n _ _ HI retries urls st Hst)
      as [(Hlen & _ & Hcs & Hdisk & Hevs) _].
    unfold after. auto.
Qed.

(** X6: when the handling of a URL in the request phase ends with the
    failure message, every session has been rotated to once and the active
    session is the one it was before the URL was handled. *)
Theorem exhaustion_full_cycle (st : State W) (retries : nat) (url : string)
    (evs : list Event)
    (Hpool : poolOk st)
    (Hrun : trace (processUrl R retries url st).2 = trace st ++ evs)
    (Hfailed : failures evs = [url]) :
  length (rotations evs) = length (validCredentials st) ∧
  currentAccountIndex (processUrl R retries url st).2 = currentAccountIndex st.
Proof.
  set (n := length (validCredentials st)).
  pose proof (PhaseState_invariant R n (currentAccountIndex st)
                (credential <$> validCredentials st) (cacheFiles st) (trace st))
    as HI.
  destruct (Run_processUrl R n _ _ HI retries url st (PhaseState_start st Hpool))
    as [(_ & _ & _ & _ & evs1 & Htr1 & _ & Hidx) _].
  rewrite Hrun in Htr1. apply app_inv_head in Htr1. subst evs1.
  destruct (processUrl_shape R retries url st Hpool)
    as (evs2 & ats & Htr2 & _ & _ & _ & Hrot & _ & _ & _ & _ & Hshape).
  cbv zeta in Htr2. rewrite Hrun in Htr2. apply app_inv_head in Htr2.
  subst evs2.
  assert (Hn : length (rotations evs) = n).
  { destruct Hshape as [(_ & Hok & Hnok)|(fin & _ & _ & _ & _ & Hnone)].
    - destruct (processUrl R retries url st).1 as [[]|msg|code|] eqn:Hres.
      + destruct (Hok eq_refl) as [Hlen _]. fold n in Hlen. congruence.
      + rewrite Hnok in Hfailed by discriminate. discriminate.
      + rewrite Hnok in Hfailed by discriminate. discriminate.
      + rewrite Hnok in Hfailed by discriminate. discriminate.
    - rewrite Hnone in Hfailed. discriminate. }
  split; [exact Hn|].
  rewrite Hidx, Hn. unfold poolOk in Hpool. fold n in Hpool.
  rewrite <- (Nat.mul_1_l n) at 1. rewrite Nat.Div0.mod_add.
  now apply Nat.mod_small.
Qed.

End RoundRobin.

Lemma phases_round_robin_witness :
  let w := Fixture.mkWorld 0 [] [429; 404; 429] [200] [] [] [] [] in
  let st := Fixture.start w [Fixture.session "a"; Fixture.session "b";
                             Fixture.session "c"] in
  let r := requestPhase Fixture.remote 0 ["https://a/1"; "https://a/2"] st in
  rotations (trace r.2) = ["b"; "c"] ∧ currentAccountIndex r.2 = 2%nat.
Proof.
  intros w st r.
  assert (Hpool : poolOk st) by (unfold poolOk; simpl; lia).
  assert (Hrot : rotations (trace r.2) = ["b"; "c"]) by reflexivity.
  split; [exact Hrot|].
  destruct (phases_round_robin Fixture.remote st "https://a" []
              ["https://a/1"; "https://a/2"] ∅ 0 Hpool)
    as [_ (_ & _ & _ & evs & Htr & _ & Hidx)].
  change (trace st ++ evs) with evs in Htr.
  rewrite <- Htr in Hidx. fold r in Hidx. rewrite Hidx, Hrot. reflexivity.
Defined.

Lemma exhaustion_full_cycle_witness :
  let w := Fixture.mkWorld 0 [] [429; 403] [] [] [] [] [] in
  let st := Fixture.start w [Fixture.session "a"; Fixture.session "b"] in
  currentAccountIndex (processUrl Fixture.remote 0 "https://a/1" st).2 = 0%nat.
Proof.
  intros w st.
  assert (Hpool : poolOk st) by (unfold poolOk; simpl; lia).
  apply (exhaustion_full_cycle Fixture.remote st 0 "https://a/1"
           (trace (processUrl Fixture.remote 0 "https://a/1" st).2) Hpool).
  - reflexivity.
  - reflexivity.
Defined.

(** ** Exit codes and file writes of a whole run *)

Lemma Run_tryCatch {W A} (I : State W → Prop) (o : Outcomes) (m : M W A)
    (handler : string → M W A) :
  Run I o m → (∀ msg, Run I o (handler msg)) → Run I o (tryCatch m handler).
Proof.
  intros Hm Hh st Hst. unfold tryCatch.
  destruct (Hm st Hst) as [HI' Hout].
  destruct (m st) as [[a|msg|code|] st']; simpl in *; auto.
  now apply Hh.
Qed.

Section Preparation.
Context {W : Type} (R : Remote W) (disk : gmap string Cache)
  (t0 : list Event).

Lemma U_emit (e : Event) :
  silentEvent e → Run (Undisturbed (W:=W) disk t0) exitOne (emit e).
Proof.
  intros He st (Hdisk & evs & Htr & Hsil). unfold emit. simpl.
  split; [|exact Logic.I]. split; [exact Hdisk|].
  exists (evs ++ [e]). split; [rewrite Htr; now rewrite app_assoc|].
  apply silent_app; [exact Hsil|].
  apply silent_cons; [exact He|apply silent_nil].
Qed.

Lemma U_console (line : Line) :
  rotationOf (Console line) = None → failureOf (Console line) = None →
  Run (Undisturbed (W:=W) disk t0) exitOne (console line).
Proof. intros Hr Hf. apply U_emit. now repeat split. Qed.

Lemma U_callAttempt {A} (f : W → Attempt A * W) (ev : Event) :
  silentEvent ev →
  Run (Undisturbed (W:=W) disk t0) exitOne (callAttempt f ev).
Proof.
  intros He st (Hdisk & evs & Htr & Hsil). unfold callAttempt.
  destruct (f (world st)) as [[a|msg] w]; simpl;
    (split; [|exact Logic.I]); (split; [exact Hdisk|]);
    exists (evs ++ [ev]); (split; [rewrite Htr; now rewrite app_assoc|]);
    (apply silent_app; [exact Hsil|]);
    (apply silent_cons; [exact He|apply silent_nil]).
Qed.

Lemma U_liftAttempt {A} (r : Attempt A) :
  Run (Undisturbed (W:=W) disk t0) exitOne (liftAttempt r).
Proof. destruct r; intros st Hst; (split; [exact Hst|exact Logic.I]). Qed.

Lemma U_setValidCredentials l :
  Run (Undisturbed (W:=W) disk t0) exitOne (setValidCredentials l).
Proof. intros st Hst. split; [exact Hst|exact Logic.I]. Qed.

Lemma U_setCurrentAccountIndex i :
  Run (Undisturbed (W:=W) disk t0) exitOne (setCurrentAccountIndex i).
Proof. intros st Hst. split; [exact Hst|exact Logic.I]. Qed.

Lemma U_getAccessToken email key :
  Run (Undisturbed (W:=W) disk t0) exitOne (getAccessToken R email key).
Proof.
  unfold getAccessToken.
  destruct (nonEmpty email); simpl.
  2:{ apply Run_bind; [now apply U_console|]. intros _. now apply Run_exit. }
  destruct (nonEmpty key); simpl.
  2:{ apply Run_bind; [now apply U_console|]. intros _. now apply Run_exit. }
  apply Run_bind; [apply U_callAttempt; now repeat split|]. intros token.
  destruct (truthy token); simpl; [apply Run_ret|now apply Run_throw].
Qed.

Lemma U_getServiceAccountCredentials path :
  Run (Undisturbed (W:=W) disk t0) exitOne
    (getServiceAccountCredentials R path).
Proof.
  unfold getServiceAccountCredentials. apply Run_bind_get. intros st Hst.
  destruct (_ && _ && _)%bool.
  - apply Run_bind; [now apply U_console| |exact Hst].
    intros _. now apply Run_exit.
  - apply Run_bind; [apply U_liftAttempt| |exact Hst].
    intros [key|keys]; apply Run_ret.
Qed.

Lemma U_verifyCredentials siteUrl cs :
  ∀ v,
    Run (Undisturbed (W:=W) disk t0) exitOne
      (verifyCredentials R siteUrl cs v).
Proof.
  induction cs as [|c cs IH]; intros v; simpl; [apply Run_ret|].
  apply Run_bind; [|intros v'; apply IH].
  apply Run_tryCatch.
  - apply Run_bind; [apply U_getAccessToken|]. intros token.
    apply Run_bind; [apply U_callAttempt; now repeat split|]. intros url.
    apply Run_bind_get. intros st Hst.
    apply Run_bind; [apply U_setValidCredentials| |exact Hst].
    intros _. apply Run_ret.
  - intros msg. apply Run_bind; [now apply U_console|]. intros _.
    apply Run_ret.
Qed.

Lemma U_buildPool siteUrl cs :
  Run (Undisturbed (W:=W) disk t0) exitOne (buildPool R siteUrl cs).
Proof.
  unfold buildPool.
  apply Run_bind; [apply U_setValidCredentials|]. intros _.
  apply Run_bind; [apply U_verifyCredentials|]. intros v.
  apply Run_bind_get. intros st Hst.
  destruct (_ || _)%bool; [|now apply Run_ret].
  apply Run_bind; [now apply U_console| |exact Hst].
  intros _. now apply Run_exit.
Qed.

Lemma U_prepare input options :
  Run (Undisturbed (W:=W) disk t0) exitOne (prepare R input options).
Proof.
  unfold prepare. destruct (nonEmpty input); simpl.
  2:{ apply Run_bind; [now apply U_console|]. intros _. now apply Run_exit. }
  apply Run_bind.
  { destruct (_ && _)%bool;
      [apply Run_ret|apply U_getServiceAccountCredentials]. }
  intros cs. apply Run_bind; [now apply U_console|]. intros _.
  apply Run_bind; [apply U_buildPool|]. intros siteUrl.
  apply Run_bind; [apply U_setCurrentAccountIndex|]. intros _.
  apply Run_ret.
Qed.

End Preparation.

Lemma prepare_cachePath {W} (R : Remote W) input options (st st1 : State W)
    cachePath siteUrl :
  prepare R input options st = (Ok (cachePath, siteUrl), st1) →
  cachePath = cachePathOf R (convertToSiteUrl R input).
Proof.
  unfold prepare. destruct (nonEmpty input); simpl; [|mrun; discriminate].
  unfold bind at 1.
  destruct ((if truthy (opt_client_email options)
                && truthy (opt_private_key options)
             then ret _ else getServiceAccountCredentials R (opt_path options))
              st) as [[cs|msg|code|] st0]; try discriminate.
  unfold bind at 1. unfold console, emit. unfold bind at 1.
  destruct (buildPool R _ cs _) as [[url|msg|code|] st2]; try discriminate.
  mrun. now intros [= <- _ _].
Qed.

Lemma bind_unfold {W A B} (m : M W A) (k : A → M W B) (st : State W) :
  bind m k st =
    match m st with
    | (Ok a, st') => k a st'
    | (Throw msg, st') => (Throw msg, st')
    | (Exit code, st') => (Exit code, st')
    | (OutOfFuel, st') => (OutOfFuel, st')
    end.
Proof. reflexivity. Qed.

Section WholeRun.
Context {W : Type} (R : Remote W).

Lemma Run_callAttempt {A} n (I : State W → Prop)
    (HI : PhaseInvariant R n I exitOne) (f : W → Attempt A * W) (ev : Event) :
  rotationOf ev = None → writeOf ev = None → Run I exitOne (callAttempt f ev).
Proof.
  intros Hr Hw st Hst. unfold callAttempt.
  destruct (f (world st)) as [[a|msg] w]; simpl;
    (split; [now apply (inv_step R n I exitOne HI)|exact Logic.I]).
Qed.

Lemma Run_resolvePages n (I : State W → Prop)
    (HI : PhaseInvariant R n I exitOne) siteUrl urls :
  Run I exitOne (resolvePages R siteUrl urls).
Proof.
  unfold resolvePages. destruct (length (default [] urls) =? 0)%nat.
  - apply Run_bind; [now apply (Run_console R n I exitOne HI)|]. intros _.
    apply Run_bind; [apply (Run_currentSession R n I exitOne HI)|].
    intros session.
    apply Run_bind; [now apply (Run_callAttempt n I HI)|].
    intros [sitemaps pages].
    destruct (length sitemaps =? 0)%nat.
    + apply Run_bind; [now apply (Run_console R n I exitOne HI)|].
      intros _. now apply Run_exit.
    + apply Run_bind; [now apply (Run_console R n I exitOne HI)|].
      intros _. apply Run_ret.
  - apply Run_bind.
    { intros st Hst. unfold liftAttempt.
      destruct (checkCustomUrls R siteUrl (default [] urls));
        (split; [exact Hst|exact Logic.I]). }
    intros pages.
    apply Run_bind; [now apply (Run_console R n I exitOne HI)|].
    intros _. apply Run_ret.
Qed.

(** The status phase from a phase state: it either returns, having written
    the document once, or fails with the phase state kept. *)
Lemma statusPhase_effects n i0 cs disk t0 cachePath siteUrl pages
    (st : State W) :
  PhaseState n i0 cs disk t0 st →
  let r := statusPhase R cachePath siteUrl pages st in
  admits exitOne r.1 ∧
  ((∃ pps doc,
      r.1 = Ok pps ∧
      poolOk r.2 ∧
      length (validCredentials r.2) = n ∧
      credential <$> validCredentials r.2 = cs ∧
      cacheFiles r.2 = <[cachePath := doc]> disk ∧
      ∃ evs, trace r.2 = t0 ++ evs ∧ writes evs = [(cachePath, doc)] ∧
             last evs = Some (WriteFile cachePath doc))
   ∨
   ((∀ pps, r.1 ≠ Ok pps) ∧ PhaseState n i0 cs disk t0 r.2)).
Proof.
  intros Hst r. subst r. rewrite statusPhase_unfold.
  destruct (Run_statusBatch R n _ _ (PhaseState_invariant R n i0 cs disk t0)
              siteUrl pages (default ∅ (cacheFiles st !! cachePath)) st Hst)
    as [Hst' Hout].
  destruct (batch _ _ _ _ _) as [[[doc pps]|msg|code|] st']; simpl in *.
  - split; [exact Logic.I|]. left. exists pps, doc.
    destruct Hst' as (Hlen & Hidx & Hcs & Hdisk & evs & Htr & Hw & _).
    split; [reflexivity|]. split; [unfold poolOk; simpl; lia|].
    split; [exact Hlen|]. split; [exact Hcs|]. split; [now rewrite Hdisk|].
    exists (evs ++ [Console (DoneStatus (length pages));
                    WriteFile cachePath doc]).
    split; [rewrite Htr; now rewrite <- !app_assoc|].
    split; [rewrite writes_app, Hw; reflexivity|now rewrite last_app].
  - split; [exact Hout|]. right. split; [discriminate|exact Hst'].
  - split; [exact Hout|]. right. split; [discriminate|exact Hst'].
  - destruct Hout.
Qed.

(** What a whole run does to the disk, and how it can end. *)
Lemma index_effects env input options (st : State W) :
  let r := index R env input options st in
  let path := cachePathOf R (convertToSiteUrl R input) in
  admits exitOne r.1 ∧
  ∃ evs,
    trace r.2 = trace st ++ evs ∧
    ((writes evs = [] ∧ cacheFiles r.2 = cacheFiles st ∧ ∀ u, r.1 ≠ Ok u)
     ∨
     (∃ doc, writes evs = [(path, doc)] ∧
             cacheFiles r.2 = <[path := doc]> (cacheFiles st))).
Proof.
  intros r path. subst r. unfold index.
  set (opts := resolveOptions env options).
  destruct (U_prepare R (cacheFiles st) (trace st) input opts st)
    as [(Hdisk1 & ev1 & Htr1 & Hsil1) Hout1].
  { split; [reflexivity|]. exists []. rewrite app_nil_r.
    split; [reflexivity|apply silent_nil]. }
  pose proof (silent_writes _ Hsil1) as Hw1.
  pose proof (prepare_ok R input opts st) as Hok1.
  pose proof (prepare_cachePath R input opts st) as Hpath.
  rewrite bind_unfold.
  destruct (prepare R input opts st) as [[[cachePath siteUrl]|msg|code|] st1];
    simpl in Hdisk1, Htr1, Hout1; cbn [fst snd].
  2,3,4: (split; [exact Hout1|]; exists ev1; split; [exact Htr1|];
          left; repeat split; auto; discriminate).
  specialize (Hpath st1 cachePath siteUrl eq_refl). subst cachePath.
  fold path.
  destruct (Hok1 st1 path siteUrl eq_refl) as (Hpool1 & _).
  (* page-set resolution *)
  set (n := length (validCredentials st1)).
  pose proof (PhaseState_invariant R n (currentAccountIndex st1)
                (credential <$> validCredentials st1) (cacheFiles st1)
                (trace st1)) as HI.
  destruct (Run_resolvePages n _ HI siteUrl (opt_urls opts) st1
              (PhaseState_start st1 Hpool1)) as [Hst2 Hout2].
  rewrite bind_unfold.
  destruct (resolvePages R siteUrl (opt_urls opts) st1)
    as [[pages|msg|code|] st2]; simpl in Hst2, Hout2; cbn [fst snd].
  2,3,4: (split; [exact Hout2|];
          destruct Hst2 as (_ & _ & _ & Hdisk2 & ev2 & Htr2 & Hw2 & _);
          exists (ev1 ++ ev2);
          split; [rewrite Htr2, Htr1; now rewrite app_assoc|];
          left; rewrite writes_app, Hw1, Hw2;
          split; [reflexivity|]; split; [congruence|discriminate]).
  (* status phase *)
  destruct (statusPhase_effects n _ _ _ _ path siteUrl pages st2 Hst2)
    as [Hout3 Hcase3].
  rewrite bind_unfold.
  destruct (statusPhase R path siteUrl pages st2) as [[pps|msg|code|] st3];
    simpl in Hout3, Hcase3; cbn [fst snd].
  2,3,4: (split; [exact Hout3|];
          destruct Hcase3 as [(pps & doc & Hres & _)|[_ Hst3]];
            [discriminate|];
          destruct Hst3 as (_ & _ & _ & Hdisk3 & ev3 & Htr3 & Hw3 & _);
          exists (ev1 ++ ev3);
          split; [rewrite Htr3, Htr1; now rewrite app_assoc|];
          left; rewrite writes_app, Hw1, Hw3;
          split; [reflexivity|]; split; [congruence|discriminate]).
  destruct Hcase3 as [(pps' & doc & _ & Hpool3 & _ & _ & Hdisk3 & ev3 & Htr3
                       & Hw3 & _)|[Hno _]];
    [|now destruct (Hno pps)].
  (* summary and request phase *)
  set (n3 := length (validCredentials st3)).
  pose proof (PhaseState_invariant R n3 (currentAccountIndex st3)
                (credential <$> validCredentials st3) (cacheFiles st3)
                (trace st3)) as HI3.
  destruct (Run_reportAndRequest R n3 _ _ HI3 opts pps st3
              (PhaseState_start st3 Hpool3))
    as [(_ & _ & _ & Hdisk4 & ev4 & Htr4 & Hw4 & _) Hout4].
  split; [exact Hout4|].
  exists (ev1 ++ ev3 ++ ev4).
  split; [rewrite Htr4, Htr3, Htr1; now rewrite <- !app_assoc|].
  right. exists doc.
  rewrite !writes_app, Hw1, Hw3, Hw4. split; [reflexivity|].
  rewrite Hdisk4, Hdisk3. congruence.
Qed.

End WholeRun.
Section WholeRunTheorems.
Context {W : Type} (R : Remote W).

(** X1: however a run of [index] ends, if it ends the process it does so
    with exit code 1; and the rotation loops never use up the iteration
    allowance of the model. *)
Theorem index_exit_code (env : ProcessEnv) (input : string)
    (options : IndexOptions) (st : State W) :
  match (index R env input options st).1 with
  | Exit code => code = 1
  | OutOfFuel => False
  | Ok _ | Throw _ => True
  end.
Proof.
  destruct (index_effects R env input options st) as [Hout _].
  destruct (index R env input options st).1; exact Hout.
Qed.

(** X2: a run of [index] writes at most one file, and only the cache
    document whose path is derived from the site URL of [input], before
    ownership is verified.  A run that returns has written it exactly
    once; a run that writes nothing leaves every cache document as it was
    and does not return normally. *)
Theorem index_writes (env : ProcessEnv) (input : string)
    (options : IndexOptions) (st : State W) :
  let r := index R env input options st in
  let path := cachePathOf R (convertToSiteUrl R input) in
  ∃ evs,
    trace r.2 = trace st ++ evs ∧
    ((writes evs = [] ∧ cacheFiles r.2 = cacheFiles st ∧ ∀ u, r.1 ≠ Ok u)
     ∨
     (∃ doc, writes evs = [(path, doc)] ∧
             cacheFiles r.2 = <[path := doc]> (cacheFiles st))).
Proof. intros r path. now destruct (index_effects R env input options st). Qed.

End WholeRunTheorems.

(** ** Pools of complete credentials *)

Section CompleteCredentials.
Context {W : Type} (R : Remote W).

Lemma getAccessToken_fields email key (st : State W) token :
  (getAccessToken R email key st).1 = Ok token →
  nonEmpty email = true ∧ nonEmpty key = true.
Proof.
  unfold getAccessToken.
  destruct (nonEmpty email); simpl; [|mrun; discriminate].
  destruct (nonEmpty key); simpl; [|mrun; discriminate].
  auto.
Qed.

Lemma getAccessToken_no_exit email key (st : State W) :
  nonEmpty email = true → nonEmpty key = true →
  admits throwOnly (getAccessToken R email key st).1.
Proof.
  intros He Hk. unfold getAccessToken. rewrite He, Hk. simpl. mrun.
  destruct (authorize R email key (world st)) as [[tok|msg] w]; simpl;
    [|exact Logic.I].
  destruct (truthy tok); exact Logic.I.
Qed.

(** A pool of complete credentials is an invariant of the two phases,
    with the outcomes a token request for a complete credential can
    have. *)
Lemma CompletePool_invariant (o : Outcomes) n :
  (∀ email key (st : State W),
     nonEmpty email = true → nonEmpty key = true →
     admits o (getAccessToken R email key st).1) →
  PhaseInvariant R n (CompletePool (W:=W) n) o.
Proof.
  intros Htoken. split.
  - intros st (Hlen & Hidx & _). auto.
  - intros w e st _ _ Hst. exact Hst.
  - intros st (Hlen & Hidx & Hcomplete).
    assert (Hpos : (0 < length (validCredentials st))%nat) by lia.
    destruct (rotateAccount_frame R st Hpos)
      as (next & evr & Hnext & _ & _ & Hidx' & _ & _ & _).
    pose proof (rotateAccount_length R st Hpos) as Hlen'.
    pose proof (rotateAccount_credentials R st Hpos) as Hcs'.
    pose proof (nextIndex_lt st Hpos) as Hlt.
    split.
    + split; [congruence|]. split; [rewrite Hidx'; lia|]. now rewrite Hcs'.
    + rewrite (rotateAccount_unfold R st next Hnext).
      assert (Hnextc : complete (credential next)).
      { rewrite Forall_forall in Hcomplete. apply Hcomplete.
        apply list_elem_of_fmap. exists next. split; [reflexivity|].
        eapply list_elem_of_lookup_2; eauto. }
      destruct Hnextc as [He Hk].
      pose proof (Htoken (client_email (credential next))
                    (private_key (credential next)) (rotating st next) He Hk)
        as Hout.
      destruct (getAccessToken R _ _ _) as [[token|msg|code|] st'];
        exact Hout.
Qed.

End CompleteCredentials.

(** ** Throttling alone never aborts a phase *)

Section Completion.
Context {W : Type} (R : Remote W) (Hreliable : ReliableTokens R).

Lemma getAccessToken_reliable email key (st : State W) :
  nonEmpty email = true → nonEmpty key = true →
  admits noFailure (getAccessToken R email key st).1.
Proof.
  intros He Hk. unfold getAccessToken. rewrite He, Hk. simpl. mrun.
  destruct (Hreliable email key (world st)) as (token & Hauth & Htok).
  destruct (authorize R email key (world st)) as [r w]. simpl in Hauth.
  subst r. simpl. rewrite Htok. exact Logic.I.
Qed.

(** X4: when the token exchange is reliable and every credential of the
    pool has both fields, neither rotation loop can cut a phase short:
    whatever the status fetches, probes and indexing requests answer, the
    batch of status checks returns, on whatever document was read from the
    cache file, and the summary with the request phase returns.  Reading
    the cache file before the batch and writing it after are not part of
    the statement. *)
Theorem phases_run_to_completion (st : State W)
    (siteUrl : string) (pages : list string) (statusPerUrl : Cache)
    (options : IndexOptions) (pagesPerStatus : Partition)
    (Hpool : poolOk st)
    (Hcomplete : Forall complete (credential <$> validCredentials st)) :
  (∃ checked,
     (batch (checkUrl R siteUrl) pages 50
        (statusPerUrl, initialPagesPerStatus) st).1 = Ok checked) ∧
  (reportAndRequest R options pagesPerStatus st).1 = Ok tt.
Proof.
  set (n := length (validCredentials st)).
  assert (Hst : CompletePool n st) by (repeat split; auto).
  split.
  - destruct (Run_statusBatch R n _ _
                (CompletePool_invariant R noFailure n getAccessToken_reliable)
                siteUrl pages statusPerUrl st Hst)
      as [_ Hout].
    destruct (batch _ _ _ _ _) as [[checked|msg|code|] st'];
      simpl in *; try contradiction.
    eauto.
  - destruct (Run_reportAndRequest R n _ _
                (CompletePool_invariant R noFailure n getAccessToken_reliable)
                options pagesPerStatus st Hst) as [_ Hout].
    destruct (reportAndRequest R options pagesPerStatus st).1 as [[]|?|?|];
      simpl in *; try contradiction.
    reflexivity.
Qed.

End Completion.

Lemma phases_run_to_completion_witness :
  let st := Throttled.start [Fixture.session "a"; Fixture.session "b"] in
  let options :=
    {| opt_client_email := None; opt_private_key := None;
       opt_path := None; opt_urls := None; opt_quota := None |} in
  (∃ checked,
     (batch (checkUrl Throttled.remote "https://a")
        ["https://a/1"; "https://a/2"] 50 (∅, initialPagesPerStatus) st).1
     = Ok checked) ∧
  (reportAndRequest Throttled.remote options initialPagesPerStatus st).1
  = Ok tt.
Proof.
  intros st options.
  assert (Hreliable : ReliableTokens Throttled.remote).
  { intros email key w. exists "token". split; reflexivity. }
  assert (Hpool : poolOk st) by (unfold poolOk; simpl; lia).
  assert (Hcomplete : Forall complete (credential <$> validCredentials st))
    by (repeat constructor).
  exact (phases_run_to_completion Throttled.remote Hreliable st
           "https://a" ["https://a/1"; "https://a/2"] ∅ options
           initialPagesPerStatus Hpool Hcomplete).
Defined.

(** ** [shared/auth.ts] on its own *)

Section Auth.
Context {W : Type} (R : Remote W).

(** X7: [getAccessToken] asks the token endpoint exactly once when both
    fields of the credential are present, and then never ends the process;
    when a field is missing it ends the process with exit code 1 without
    contacting the endpoint.  A token it returns is never empty. *)
Theorem getAccessToken_guard (client_email private_key : string)
    (st : State W) :
  let r := getAccessToken R client_email private_key st in
  (∃ evs,
     trace r.2 = trace st ++ evs ∧
     if nonEmpty client_email && nonEmpty private_key
     then authorizations evs = [client_email] ∧ ∀ code, r.1 ≠ Exit code
     else authorizations evs = [] ∧ r.1 = Exit 1 ∧ world r.2 = world st) ∧
  (∀ token, r.1 = Ok token → nonEmpty token = true).
Proof.
  intros r. subst r. unfold getAccessToken.
  destruct (nonEmpty client_email); simpl.
  2:{ mrun. split; [|discriminate]. eexists. split; [reflexivity|].
      repeat split. }
  destruct (nonEmpty private_key); simpl.
  2:{ mrun. split; [|discriminate]. eexists. split; [reflexivity|].
      repeat split. }
  mrun.
  destruct (authorize R client_email private_key (world st))
    as [[[token|]|msg] w]; simpl.
  - destruct (nonEmpty token) eqn:Htoken; simpl.
    + split; [|congruence]. eexists. split; [reflexivity|].
      split; [reflexivity|discriminate].
    + split; [|discriminate]. eexists. split; [reflexivity|].
      split; [reflexivity|discriminate].
  - split; [|discriminate]. eexists. split; [reflexivity|].
    split; [reflexivity|discriminate].
  - split; [|discriminate]. eexists. split; [reflexivity|].
    split; [reflexivity|discriminate].
Qed.

(** X8: [getServiceAccountCredentials] ends the process with exit code 1
    when none of its three candidate files exists.  Otherwise it reads one
    file, which does exist, and changes nothing: the custom path when one
    is given and exists, else the file of the working directory when it
    exists, else the file of the home directory; an array comes back as it
    is, a single object as a one-element list, and a failed read is
    thrown, never turned into an exit. *)
Theorem credentials_file_choice (customPath : option string) (st : State W) :
  let present p := existsSync R p (world st) in
  let custom := truthy customPath && present (default "" customPath) in
  let r := getServiceAccountCredentials R customPath st in
  if negb (present "service_account.json")
     && negb (present (homeServiceAccountPath R)) && negb custom
  then r.1 = Exit 1 ∧ world r.2 = world st
  else
    ∃ chosen,
      present chosen = true ∧
      r = (keysOf (readServiceAccountFile R chosen (world st)), st) ∧
      (if custom then chosen = default "" customPath
       else if present "service_account.json"
            then chosen = "service_account.json"
            else chosen = homeServiceAccountPath R).
Proof.
  intros present custom r. subst r present custom.
  unfold getServiceAccountCredentials. mrun.
  destruct (existsSync R "service_account.json" (world st)) eqn:Hlocal;
    destruct (existsSync R (homeServiceAccountPath R) (world st)) eqn:Hhome;
    destruct (truthy customPath) eqn:Hgiven;
    destruct (existsSync R (default "" customPath) (world st)) eqn:Hcustom;
    simpl; rewrite ?Hlocal, ?Hhome, ?Hcustom;
    try (split; reflexivity);
    (eexists; split; [|split; [|reflexivity]];
     [eassumption
     |destruct (readServiceAccountFile R _ (world st)) as [[key|keys]|msg];
      reflexivity]).
Qed.

End Auth.

Lemma getAccessToken_guard_witness :
  (getAccessToken Throttled.remote "a" "key" (Throttled.start [])).1
  = Ok "token" ∧
  nonEmpty "token" = true.
Proof.
  split; [reflexivity|].
  apply (proj2 (getAccessToken_guard Throttled.remote "a" "key"
                  (Throttled.start []))).
  reflexivity.
Defined.

(** ** The partition by status *)

Lemma addPage_cons s url k v (rest : Partition) :
  addPage s url ((k, v) :: rest) =
    if decide (k = s) then (k, v ++ [url]) :: rest
    else (k, v) :: addPage s url rest.
Proof. unfold addPage. simpl. destruct (decide (k = s)); reflexivity. Qed.

Lemma addPage_keys s url (p : Partition) :
  s ∈ p.*1 → (addPage s url p).*1 = p.*1.
Proof.
  induction p as [|[k v] rest IH]; intros Hin.
  - now apply elem_of_nil in Hin.
  - rewrite addPage_cons. destruct (decide (k = s)) as [->|Hne]; [reflexivity|].
    simpl. f_equal. apply IH.
    simpl in Hin. apply elem_of_cons in Hin.
    destruct Hin as [Heq|Hin]; [congruence|exact Hin].
Qed.

Lemma addPage_pages s url (p : Partition) :
  concat (addPage s url p).*2 ≡ₚ url :: concat p.*2.
Proof.
  induction p as [|[k v] rest IH].
  - reflexivity.
  - rewrite addPage_cons. destruct (decide (k = s)) as [->|Hne]; simpl.
    + rewrite <- app_assoc. simpl.
      now rewrite <- Permutation_middle.
    + rewrite IH. now rewrite <- Permutation_middle.
Qed.

Lemma status_filed (s : Status.t) : s ∈ initialPagesPerStatus.*1.
Proof. destruct s; simpl; set_solver. Qed.

Lemma indexablePagesOf_pages (p : Partition) (url : string) :
  url ∈ indexablePagesOf p → url ∈ concat p.*2.
Proof.
  unfold indexablePagesOf. induction p as [|[k v] rest IH]; simpl.
  - auto.
  - rewrite !elem_of_app. intros [Hin|Hin]; [|right; now apply IH].
    left. destruct (includes indexableStatuses k); [exact Hin|].
    now apply elem_of_nil in Hin.
Qed.

Section PartitionInvariant.
Context {W : Type} (R : Remote W).

Lemma checkUrl_files siteUrl url (cache cache' : Cache) pps pps'
    (st st' : State W) :
  checkUrl R siteUrl url (cache, pps) st = (Ok (cache', pps'), st') →
  ∃ s, pps' = addPage s url pps.
Proof.
  rewrite checkUrl_unfold.
  destruct (cache !! url) as [result|].
  - destruct (shouldRecheck _ _ _).
    + destruct (fetchLive R siteUrl url cache st)
        as [[[result' cache1]|msg|code|] st1]; try discriminate.
      intros [= _ <- _]. eauto.
    + intros [= _ <- _]. eauto.
  - destruct (fetchLive R siteUrl url cache st)
      as [[[result' cache1]|msg|code|] st1]; try discriminate.
    intros [= _ <- _]. eauto.
Qed.

Lemma statusBatch_partition siteUrl size batchCount :
  ∀ items settled (cache cache' : Cache) pps pps' (st st' : State W),
    batchFrom (checkUrl R siteUrl) size batchCount settled items (cache, pps)
      st = (Ok (cache', pps'), st') →
    (∀ s, s ∈ pps.*1) →
    pps'.*1 = pps.*1 ∧ concat pps'.*2 ≡ₚ concat pps.*2 ++ items.
Proof.
  induction items as [|url rest IH];
    intros settled cache cache' pps pps' st st' Hrun Hkeys.
  - simpl in Hrun. unfold ret in Hrun. injection Hrun as _ <- _.
    now rewrite app_nil_r.
  - rewrite batchFrom_cons in Hrun.
    destruct (checkUrl R siteUrl url (cache, pps) st)
      as [[[cache1 pps1]|msg|code|] st1] eqn:Hone; try discriminate.
    destruct (checkUrl_files _ _ _ _ _ _ _ _ Hone) as [s ->].
    pose proof (addPage_keys s url pps (Hkeys s)) as Hsame.
    destruct (IH _ _ _ _ _ _ _ Hrun) as [Hk Hp].
    { intros s'. rewrite Hsame. apply Hkeys. }
    split; [congruence|].
    rewrite Hp, addPage_pages. simpl.
    now rewrite <- Permutation_middle.
Qed.

(** X12: the partition the status phase returns has the nine statuses as
    its keys, in the order in which the entry point lists them, and files
    every page of the page set exactly as often as the page set holds it:
    the pages of all buckets together are a rearrangement of the page set.
    So on a page set without repetition no page is filed twice, and every
    page the request phase handles is a page of the page set. *)
Theorem status_partition (cachePath siteUrl : string) (pages : list string)
    (st : State W) (pagesPerStatus : Partition)
    (Hrun : (statusPhase R cachePath siteUrl pages st).1 = Ok pagesPerStatus) :
  pagesPerStatus.*1 = initialPagesPerStatus.*1 ∧
  concat pagesPerStatus.*2 ≡ₚ pages ∧
  (NoDup pages → NoDup (concat pagesPerStatus.*2)) ∧
  (∀ url, url ∈ indexablePagesOf pagesPerStatus → url ∈ pages).
Proof.
  rewrite statusPhase_unfold in Hrun. unfold batch in Hrun.
  destruct (batchFrom _ _ _ _ _ _ _) as [[[cache' pps']|msg|code|] st'] eqn:Hb;
    try discriminate.
  injection Hrun as ->.
  destruct (statusBatch_partition _ _ _ _ _ _ _ _ _ _ _ Hb status_filed)
    as [Hk Hp].
  simpl in Hp.
  split; [exact Hk|]. split; [exact Hp|].
  split; [intros Hnd; now rewrite Hp|].
  intros url Hin. rewrite <- Hp. now apply indexablePagesOf_pages.
Qed.

End PartitionInvariant.

Lemma status_partition_witness :
  let w := Fixture.mkWorld 1000
             [Status.RateLimited; Status.Error; Status.SubmittedAndIndexed]
             [] [] [] [] [] [] in
  let st := Fixture.start w [Fixture.session "a"; Fixture.session "b"] in
  let pps :=
    match (statusPhase Fixture.remote "cache.json" "https://a"
             ["https://a/1"; "https://a/2"] st).1 with
    | Ok pps => pps
    | _ => []
    end in
  concat pps.*2 ≡ₚ ["https://a/1"; "https://a/2"].
Proof.
  intros w st pps.
  apply (status_partition Fixture.remote "cache.json" "https://a"
           ["https://a/1"; "https://a/2"] st pps).
  reflexivity.
Defined.

(** ** Pages that are settled in the cache *)

Lemma addPage_not_indexable s url (p : Partition) :
  includes indexableStatuses s = false →
  indexablePagesOf (addPage s url p) = indexablePagesOf p.
Proof.
  intros Hs. unfold indexablePagesOf.
  induction p as [|[k v] rest IH].
  - unfold addPage. simpl. now rewrite Hs.
  - rewrite addPage_cons. destruct (decide (k = s)) as [->|Hne]; simpl.
    + now rewrite Hs.
    + now rewrite IH.
Qed.

Lemma replay_not_indexable (cache : Cache) (pages : list string) :
  (∀ url, url ∈ pages →
          ∃ r, cache !! url = Some r ∧
               includes indexableStatuses (status r) = false) →
  ∀ p, indexablePagesOf (replay cache p pages) = indexablePagesOf p.
Proof.
  unfold replay. induction pages as [|url rest IH]; intros Hall p.
  - reflexivity.
  - simpl.
    destruct (Hall url) as (r & Hr & Hs); [apply elem_of_cons; now left|].
    rewrite Hr, IH.
    + now apply addPage_not_indexable.
    + intros v Hv. apply Hall. apply elem_of_cons. now right.
Qed.

Lemma printSummary_quiet {W} (pps : Partition) :
  ∀ st : State W,
    ∃ evs,
      printSummary pps st
      = (Ok tt, mkState (world st) (validCredentials st)
                  (currentAccountIndex st) (cacheFiles st) (trace st ++ evs)) ∧
      silent evs.
Proof.
  induction pps as [|[s pages] rest IH]; intros st.
  - exists []. rewrite app_nil_r. split; [now destruct st|constructor].
  - simpl. rewrite bind_unfold.
    destruct (length pages =? 0)%nat.
    + unfold ret at 1. apply IH.
    + unfold console, emit.
      destruct (IH (mkState (world st) (validCredentials st)
                      (currentAccountIndex st) (cacheFiles st)
                      (trace st ++ [Console (StatusCount s (length pages))])))
        as (evs & -> & Hsil).
      simpl. exists (Console (StatusCount s (length pages)) :: evs).
      split; [now rewrite <- app_assoc|].
      apply silent_cons; [repeat split|exact Hsil].
Qed.

Section SettledPages.
Context {W : Type} (R : Remote W).

(** X13: when the cache document holds, for every page of the page set, a
    record whose status is not one of the indexable ones, the two phases
    return without a single status fetch, probe, indexing request or
    rotation, whatever the age of the records and whatever the pool: the
    world and the pool are as before, and the only write puts the document
    read back in its place. *)
Theorem settled_pages_cost_nothing (cachePath siteUrl : string)
    (pages : list string) (options : IndexOptions) (st : State W)
    (Hsettled : ∀ url,
       url ∈ pages →
       ∃ r, default ∅ (cacheFiles st !! cachePath) !! url = Some r ∧
            includes indexableStatuses (status r) = false) :
  let cache : Cache := default ∅ (cacheFiles st !! cachePath) in
  let r := bind (statusPhase R cachePath siteUrl pages)
             (reportAndRequest R options) st in
  r.1 = Ok tt ∧
  world r.2 = world st ∧
  validCredentials r.2 = validCredentials st ∧
  currentAccountIndex r.2 = currentAccountIndex st ∧
  cacheFiles r.2 = <[cachePath := cache]> (cacheFiles st) ∧
  ∃ evs,
    trace r.2 = trace st ++ evs ∧
    statusCalls evs = [] ∧ indexingCalls evs = [] ∧ rotations evs = [] ∧
    writes evs = [(cachePath, cache)].
Proof.
  intros cache r. subst r.
  rewrite bind_unfold, statusPhase_unfold. fold cache. unfold batch.
  destruct (statusBatch_hits R siteUrl 50 ((length pages + 50 - 1) / 50)%nat
              cache pages 0%nat initialPagesPerStatus st)
    as (st1 & Hrun & Hw & Hvc & Hi & Hcf & evs1 & Htr & Hsil1).
  { intros v Hv. destruct (Hsettled v Hv) as (r & Hr & Hs).
    exists r. split; [exact Hr|]. unfold Settled, shouldRecheck.
    now rewrite Hs. }
  rewrite Hrun. unfold reportAndRequest.
  rewrite (replay_not_indexable cache pages Hsettled). simpl.
  rewrite bind_unfold.
  match goal with
  | |- context [printSummary ?p ?s] =>
      destruct (printSummary_quiet p s) as (evs2 & -> & Hsil2)
  end.
  mrun. silence Hsil1. silence Hsil2.
  repeat (split; [solve [auto]|]).
  split; [now rewrite Hcf|].
  eexists. rewrite Htr, <- !app_assoc. split; [reflexivity|].
  observe. auto.
Qed.

End SettledPages.

Lemma settled_pages_cost_nothing_witness :
  let record :=
    {| status := Status.SubmittedAndIndexed; lastCheckedAt := 0 |} in
  let cache : Cache := {[ "https://a/1" := record ]} in
  let st : State unit :=
    mkState tt [] 0 {[ "cache.json" := cache ]} [] in
  let options :=
    {| opt_client_email := None; opt_private_key := None;
       opt_path := None; opt_urls := None; opt_quota := None |} in
  (bind (statusPhase Throttled.remote "cache.json" "https://a" ["https://a/1"])
     (reportAndRequest Throttled.remote options) st).1 = Ok tt.
Proof.
  intros record cache st options.
  apply (settled_pages_cost_nothing Throttled.remote "cache.json" "https://a"
           ["https://a/1"] options st).
  intros url Hurl. apply list_elem_of_singleton in Hurl. subst url.
  exists record. split; reflexivity.
Defined.

(** ** Options and the page source *)

Lemma split_nonempty (sep : ascii) (s : string) : split sep s ≠ [].
Proof.
  destruct s as [|c rest]; simpl; [discriminate|].
  destruct (Ascii.eqb c sep); [discriminate|].
  destruct (split sep rest); discriminate.
Qed.

Section PageList.
Context {W : Type} (R : Remote W).

(** X10: a page list that is given, by the caller as a non-empty array or,
    when the caller gives none, by a non-empty [GIS_URLS], is the page
    source: the caller's array wins over the environment, sitemap
    discovery is not consulted and no remote call is made; the pages are
    what the custom-URL check keeps of the list, and [GIS_URLS] is cut at
    its commas. *)
Theorem given_list_is_the_source (env : ProcessEnv) (options : IndexOptions)
    (siteUrl : string) (st : State W)
    (Hgiven :
       (∃ urls, opt_urls options = Some urls ∧ urls ≠ []) ∨
       (opt_urls options = None ∧ truthy (GIS_URLS env) = true)) :
  let given :=
    match opt_urls options with
    | Some urls => urls
    | None => split "," (default "" (GIS_URLS env))
    end in
  let r := resolvePages R siteUrl (opt_urls (resolveOptions env options)) st in
  world r.2 = world st ∧
  match checkCustomUrls R siteUrl given with
  | Returns pages =>
      r.1 = Ok pages ∧
      trace r.2 = trace st ++ [Console (FoundInList (length pages))]
  | Fails msg => r.1 = Throw msg ∧ trace r.2 = trace st
  end.
Proof.
  intros given r. subst r given. unfold resolvePages, resolveOptions. simpl.
  assert (Hlen : ∀ l : list string, l ≠ [] → (length l =? 0)%nat = false).
  { intros [|x l] Hl; [contradiction|reflexivity]. }
  destruct Hgiven as [(urls & -> & Hne)|[-> Henv]]; simpl.
  - rewrite (Hlen urls Hne). mrun.
    destruct (checkCustomUrls R siteUrl urls) as [pages|msg]; simpl; auto.
  - rewrite Henv. simpl.
    rewrite (Hlen _ (split_nonempty "," (default "" (GIS_URLS env)))). mrun.
    destruct (checkCustomUrls R siteUrl _) as [pages|msg]; simpl; auto.
Qed.

(** X11: the entry point completes the caller's options object in place,
    so a second call with the same object finds the completed options;
    completing them again from the same environment changes nothing, and
    the run made with them is the run made with the original options. *)
Theorem resolveOptions_idempotent (env : ProcessEnv) (input : string)
    (options : IndexOptions) :
  resolveOptions env (resolveOptions env options) = resolveOptions env options ∧
  index R env input (resolveOptions env options) = index R env input options.
Proof.
  assert (Hres : resolveOptions env (resolveOptions env options)
                 = resolveOptions env options).
  { unfold resolveOptions. simpl.
    destruct options as [email key path urls quota]. simpl. f_equal.
    - destruct (truthy email) eqn:He; simpl; [now rewrite He|].
      now destruct (truthy (GIS_CLIENT_EMAIL env)).
    - destruct (truthy key) eqn:Hk; simpl; [now rewrite Hk|].
      now destruct (truthy (GIS_PRIVATE_KEY env)).
    - destruct (truthy path) eqn:Hp; simpl; [now rewrite Hp|].
      now destruct (truthy (GIS_PATH env)).
    - destruct urls; [reflexivity|].
      now destruct (truthy (GIS_URLS env)).
    - now destruct quota. }
  split; [exact Hres|]. unfold index. now rewrite Hres.
Qed.

End PageList.

Lemma given_list_is_the_source_witness :
  let env :=
    {| GIS_CLIENT_EMAIL := None; GIS_PRIVATE_KEY := None; GIS_PATH := None;
       GIS_URLS := Some "https://a/1,https://a/2";
       GIS_QUOTA_RPM_RETRY := None |} in
  let options :=
    {| opt_client_email := None; opt_private_key := None;
       opt_path := None; opt_urls := None; opt_quota := None |} in
  let r := resolvePages Throttled.remote "https://a"
             (opt_urls (resolveOptions env options)) (Throttled.start []) in
  r.1 = Ok ["https://a/1"; "https://a/2"].
Proof.
  intros env options r.
  apply (given_list_is_the_source Throttled.remote env options "https://a"
           (Throttled.start [])).
  right. split; reflexivity.
Defined.

(** ** The request phase, URL by URL *)

Lemma started_app a b : started (a ++ b) = started a ++ started b.
Proof. apply collect_app. Qed.

Section Visits.
Context {W : Type} (R : Remote W).

Lemma getAccessToken_started email key (st : State W) :
  ∃ evs,
    trace (getAccessToken R email key st).2 = trace st ++ evs ∧
    started evs = [].
Proof.
  unfold getAccessToken.
  destruct (nonEmpty email); simpl; [|mrun; eexists; split; reflexivity].
  destruct (nonEmpty key); simpl; [|mrun; eexists; split; reflexivity].
  mrun. destruct (authorize R email key (world st)) as [[tok|msg] w]; simpl.
  - destruct (truthy tok); simpl; eexists; split; reflexivity.
  - eexists; split; reflexivity.
Qed.

Lemma rotateAccount_started (st : State W) :
  poolOk st →
  ∃ evs,
    trace (rotateAccount R st).2 = trace st ++ evs ∧ started evs = [].
Proof.
  intros Hok.
  destruct (lookup_lt_is_Some_2 _ _ (nextIndex_lt st (poolOk_pos st Hok)))
    as [next Hnext].
  rewrite (rotateAccount_unfold R st next Hnext).
  destruct (getAccessToken_started (client_email (credential next))
              (private_key (credential next)) (rotating st next))
    as (evs & Htr & Hs).
  exists (Console (RotatingTo (client_email (credential next))) :: evs).
  split; [|exact Hs].
  destruct (getAccessToken R _ _ _) as [[tok|msg|code|] st']; simpl in *;
    rewrite Htr, <- app_assoc; reflexivity.
Qed.

Lemma rotate_then_started {A} (rest : M W A) (st : State W) :
  poolOk st →
  (∀ st', poolOk st' →
          ∃ evs, trace (rest st').2 = trace st' ++ evs ∧ started evs = []) →
  ∃ evs,
    trace (bind (rotateAccount R) (λ _, rest) st).2 = trace st ++ evs ∧
    started evs = [].
Proof.
  intros Hok Hrest.
  destruct (rotateAccount_started st Hok) as (evr & Htr & Hs).
  pose proof (pres_poolOk _ _ _ (rotateAccount_preserved R st Hok) Hok) as Hok'.
  rewrite bind_unfold.
  destruct (rotateAccount R st) as [[tok|msg|code|] st']; simpl in *; eauto.
  destruct (Hrest st' Hok') as (evs & Htr' & Hs').
  exists (evr ++ evs). rewrite Htr', Htr, app_assoc, started_app, Hs, Hs'.
  split; reflexivity.
Qed.

Lemma requestLoop_started fuel url retries :
  ∀ k (st : State W),
    poolOk st →
    ∃ evs,
      trace (requestLoop R fuel url retries k st).2 = trace st ++ evs ∧
      started evs = [].
Proof.
  induction fuel as [|fuel IH]; intros k st Hok.
  - exists []. rewrite app_nil_r. split; [|reflexivity].
    simpl. mrun. now destruct (k <? length (validCredentials st))%nat.
  - destruct (Nat.lt_ge_cases k (length (validCredentials st))) as [Hk|Hk].
    2:{ rewrite requestLoop_exit by exact Hk.
        exists []. now rewrite app_nil_r. }
    destruct (lookup_lt_is_Some_2 (validCredentials st)
                (currentAccountIndex st) Hok) as [session Hsession].
    rewrite (requestLoop_step R fuel url retries k st session Hk Hsession).
    cbv zeta.
    pose proof (afterProbe_preserved R st (accessToken session) url retries)
      as Hp1.
    set (st1 := afterProbe R st (accessToken session) url retries) in *.
    assert (Htr1 : ∃ e, trace st1 = trace st ++ [e] ∧ startedOf e = None)
      by (eexists; split; reflexivity).
    destruct Htr1 as (e1 & Htr1 & He1).
    assert (Hok1 : poolOk st1) by (apply Hp1; exact Hok).
    clearbody st1.
    destruct (throttled _).
    { destruct (rotate_then_started
                  (requestLoop R fuel url retries (S k)) st1 Hok1 (IH (S k)))
        as (evs & Htr & Hs).
      exists (e1 :: evs). rewrite Htr, Htr1, <- app_assoc.
      split; [reflexivity|]. unfold started in *. simpl. now rewrite He1. }
    destruct (_ =? 404).
    + pose proof (afterSubmit_preserved R st1 (accessToken session) url)
        as Hp2.
      set (st2 := afterSubmit R st1 (accessToken session) url) in *.
      assert (Htr2 : ∃ e, trace st2 = trace st1 ++ [e] ∧ startedOf e = None)
        by (eexists; split; reflexivity).
      destruct Htr2 as (e2 & Htr2 & He2).
      assert (Hok2 : poolOk st2) by (apply Hp2; exact Hok1).
      clearbody st2.
      destruct (throttled _).
      * destruct (rotate_then_started
                    (requestLoop R fuel url retries (S k)) st2 Hok2 (IH (S k)))
          as (evs & Htr & Hs).
        exists (e1 :: e2 :: evs). rewrite Htr, Htr2, Htr1, <- !app_assoc.
        split; [reflexivity|]. unfold started in *. simpl.
        now rewrite He1, He2.
      * exists [e1; e2; Console IndexingRequested].
        cbn [snd]. rewrite logged_trace, Htr2, Htr1, <- !app_assoc.
        split; [reflexivity|]. unfold started. simpl. now rewrite He1, He2.
    + destruct (_ <? 400).
      * exists [e1; Console AlreadyRequested].
        cbn [snd]. rewrite logged_trace, Htr1, <- !app_assoc.
        split; [reflexivity|]. unfold started. simpl. now rewrite He1.
      * exists [e1]. split; [exact Htr1|]. unfold started. simpl.
        now rewrite He1.
Qed.

(** One URL of the request phase: its handling is started once, it fails
    at most once, and every indexing request is for it. *)
Lemma processUrl_visits retries url (st : State W) :
  poolOk st →
  let r := processUrl R retries url st in
  ∃ evs,
    trace r.2 = trace st ++ evs ∧
    poolOk r.2 ∧
    started evs = [url] ∧
    (failures evs = [] ∨ failures evs = [url]) ∧
    Forall (λ p, p.1 = url) (submissions evs).
Proof.
  intros Hok r.
  destruct (processUrl_shape R retries url st Hok)
    as (evs & attempts & Htr & Hp & _ & _ & _ & _ & _ & _ & Hsub & Hcase).
  fold r in Htr, Hp, Hcase.
  exists evs. split; [exact Htr|]. split; [apply Hp; exact Hok|].
  split.
  - subst r. rewrite processUrl_unfold in Htr.
    pose proof (logged_preserved R st (ProcessingUrl url)) as Hp0.
    destruct (requestLoop_started (length (validCredentials st)) url retries
                0 (logged st (ProcessingUrl url))) as (evl & Htrl & Hs).
    { apply Hp0. exact Hok. }
    rewrite logged_trace in Htrl.
    destruct (requestLoop R _ _ _ _ _) as [[[|]|msg|code|] st'];
      simpl in Htr, Htrl; rewrite ?logged_trace in Htr;
      rewrite Htrl, <- ?app_assoc in Htr; apply app_inv_head in Htr;
      subst evs; unfold started in *; simpl; rewrite ?collect_app, Hs;
      reflexivity.
  - split; [|exact Hsub].
    destruct Hcase as [(_ & Hyes & Hno)|(final & _ & _ & _ & _ & Hf)];
      [|now left].
    destruct r.1 as [[]|msg|code|].
    + right. now apply Hyes.
    + left. now apply Hno.
    + left. now apply Hno.
    + left. now apply Hno.
Qed.

(** X14: the request phase takes the indexable pages in order.  What it
    starts is always an initial piece of the list, and the whole list when
    it returns: a URL on which every account was throttled is reported as
    failed, once, and the loop goes on with the next one.  No indexing
    request is sent for a URL that was not started. *)
Theorem request_phase_visits_all (retriesOnRateLimit : nat)
    (indexablePages : list string) (st : State W) (Hpool : poolOk st) :
  let r := requestPhase R retriesOnRateLimit indexablePages st in
  ∃ evs,
    trace r.2 = trace st ++ evs ∧
    started evs `prefix_of` indexablePages ∧
    (r.1 = Ok tt → started evs = indexablePages) ∧
    failures evs `sublist_of` started evs ∧
    Forall (λ p, p.1 ∈ started evs) (submissions evs).
Proof.
  revert st Hpool.
  induction indexablePages as [|url rest IH]; intros st Hpool r; subst r.
  - exists []. simpl. rewrite app_nil_r.
    split; [reflexivity|]. split; [now exists []|].
    split; [reflexivity|]. split; constructor.
  - simpl. rewrite bind_unfold.
    destruct (processUrl_visits retriesOnRateLimit url st Hpool)
      as (evs1 & Htr1 & Hok1 & Hs1 & Hf1 & Hsub1).
    assert (Hsub1' : Forall (λ p, p.1 ∈ [url]) (submissions evs1)).
    { eapply Forall_impl; [exact Hsub1|]. intros p ->. now left. }
    assert (Hfail1 : failures evs1 `sublist_of` [url]).
    { destruct Hf1 as [->| ->]; [apply sublist_nil_l|reflexivity]. }
    destruct (processUrl R retriesOnRateLimit url st) as [[[]|msg|code|] st1];
      simpl in *.
    2,3,4: exists evs1; rewrite Hs1;
           (split; [exact Htr1|]); (split; [now exists rest|]);
           (split; [discriminate|]); (split; assumption).
    destruct (IH st1 Hok1) as (evs & Htr & Hpre & Hall & Hfail & Hsub).
    exists (evs1 ++ evs).
    split; [rewrite Htr, Htr1; now rewrite app_assoc|].
    rewrite started_app, failures_app, submissions_app, Hs1. simpl.
    split; [now apply prefix_cons|].
    split; [intros Hret; f_equal; now apply Hall|].
    split.
    { change (url :: started evs) with ([url] ++ started evs).
      now apply sublist_app. }
    apply Forall_app. split.
    + eapply Forall_impl; [exact Hsub1|]. intros p ->. now left.
    + eapply Forall_impl; [exact Hsub|]. intros p Hp. now right.
Qed.

End Visits.

Lemma request_phase_visits_all_witness :
  let st := Throttled.start [Fixture.session "a"; Fixture.session "b"] in
  let r := requestPhase Throttled.remote 0 ["https://a/1"; "https://a/2"] st in
  r.1 = Ok tt ∧
  started (trace r.2) = ["https://a/1"; "https://a/2"] ∧
  failures (trace r.2) = ["https://a/1"; "https://a/2"].
Proof.
  intros st r.
  assert (Hpool : poolOk st) by (unfold poolOk; simpl; lia).
  destruct (request_phase_visits_all Throttled.remote 0
              ["https://a/1"; "https://a/2"] st Hpool)
    as (evs & Htr & _ & Hall & _).
  fold r in Htr, Hall.
  assert (Hret : r.1 = Ok tt) by reflexivity.
  split; [exact Hret|].
  change (trace st ++ evs) with evs in Htr. rewrite Htr.
  split; [exact (Hall Hret)|].
  rewrite <- Htr. reflexivity.
Defined.

(** ** The verified site URL *)

Section VerifiedSite.
Context {W : Type} (R : Remote W).

(** Once a site URL is held, the rest of the loop over the credentials
    keeps it. *)
Lemma verifyCredentials_keeps siteUrl cs :
  Forall complete cs →
  ∀ v (st : State W),
    truthy v = true → (verifyCredentials R siteUrl cs v st).1 = Ok v.
Proof.
  induction 1 as [|c cs Hc _ IH]; intros v st Hv.
  - reflexivity.
  - destruct (verifyCredentials_cons R siteUrl c cs v st Hc)
      as (st1 & v1 & evs1 & Heq & _ & _ & _ & _ & _ & _ & _ & Hcase).
    rewrite Heq.
    assert (Hv1 : v1 = v).
    { destruct (verifyOne R siteUrl c (world st)).1 as [[token url]|].
      - destruct Hcase as (_ & -> & _). now rewrite Hv.
      - now destruct Hcase as (_ & -> & _). }
    subst v1. now apply IH.
Qed.

Lemma verifyCredentials_first siteUrl cs :
  Forall complete cs → SiteFormNonEmpty R siteUrl →
  ∀ (st : State W) v,
    (verifyCredentials R siteUrl cs None st).1 = Ok v → truthy v = true →
    ∃ pre c post token url,
      v = Some url ∧ cs = pre ++ c :: post ∧
      (survivors R siteUrl pre (world st)).1 = [] ∧
      (verifyOne R siteUrl c (survivors R siteUrl pre (world st)).2).1
        = Some (token, url).
Proof.
  intros Hcs Hsite. induction Hcs as [|c cs Hc Hcs IH]; intros st v Hrun Hv.
  - simpl in Hrun. injection Hrun as <-. discriminate Hv.
  - destruct (verifyCredentials_cons R siteUrl c cs None st Hc)
      as (st1 & v1 & evs1 & Heq & _ & Hw1 & _ & _ & _ & _ & _ & Hcase).
    rewrite Heq in Hrun.
    destruct (verifyOne R siteUrl c (world st)) as [[[token url]|] w1] eqn:Hone;
      simpl in Hw1, Hcase.
    + destruct Hcase as (_ & -> & _). simpl in Hrun.
      assert (Hurl : nonEmpty url = true).
      { eapply verifyOne_url; [exact Hsite|]. now rewrite Hone. }
      rewrite (verifyCredentials_keeps siteUrl cs Hcs (Some url) st1 Hurl)
        in Hrun.
      injection Hrun as <-.
      exists [], c, cs, token, url. simpl. now rewrite Hone.
    + destruct Hcase as (_ & -> & _).
      destruct (IH st1 v Hrun Hv)
        as (pre & c' & post & token & url & -> & -> & Hnone & Hfirst).
      exists (c :: pre), c', post, token, url. simpl. rewrite Hone.
      rewrite Hw1 in Hnone, Hfirst.
      destruct (survivors R siteUrl pre w1) as [sessions w2]. simpl in *.
      auto.
Qed.

(** X9: the site URL the run goes on with is the answer the ownership
    check gave to the first credential of the list that succeeded; the
    answers given to later credentials are not used.  (Credentials with
    both fields; a successful ownership check returns a non-empty site
    URL.) *)
Theorem site_of_first_success (siteUrl : string) (cs : list ServiceAccount)
    (st : State W) (verified : string)
    (Hcomplete : Forall complete cs)
    (Hsite : SiteFormNonEmpty R siteUrl)
    (Hrun : (buildPool R siteUrl cs st).1 = Ok verified) :
  ∃ pre c post token,
    cs = pre ++ c :: post ∧
    (survivors R siteUrl pre (world st)).1 = [] ∧
    (verifyOne R siteUrl c (survivors R siteUrl pre (world st)).2).1
      = Some (token, verified).
Proof.
  unfold buildPool in Hrun. rewrite bind_unfold in Hrun.
  unfold setValidCredentials at 1 in Hrun.
  set (st0 := mkState (world st) [] (currentAccountIndex st) (cacheFiles st)
                (trace st)) in Hrun.
  rewrite bind_unfold in Hrun.
  pose proof (verifyCredentials_first siteUrl cs Hcomplete Hsite st0) as Hfirst.
  destruct (verifyCredentials R siteUrl cs None st0) as [[v|msg|code|] st1];
    try discriminate.
  mrun.
  destruct (length (validCredentials st1) =? 0)%nat; simpl in Hrun;
    [discriminate|].
  destruct (truthy v) eqn:Hv; simpl in Hrun; [|discriminate].
  destruct (Hfirst v eq_refl Hv)
    as (pre & c & post & token & url & -> & -> & Hnone & Hone).
  injection Hrun as <-.
  exists pre, c, post, token. auto.
Qed.

End VerifiedSite.

Lemma site_of_first_success_witness :
  let w := Fixture.mkWorld 0 [] [] [] [] [] [] ["a"] in
  let st := Fixture.start w [] in
  let cs := [Fixture.account "a"; Fixture.account "b"] in
  ∃ pre c post token,
    cs = pre ++ c :: post ∧
    (survivors Fixture.remote "https://a" pre w).1 = [] ∧
    (verifyOne Fixture.remote "https://a" c
       (survivors Fixture.remote "https://a" pre w).2).1
      = Some (token, "https://a").
Proof.
  intros w st cs.
  apply (site_of_first_success Fixture.remote "https://a" cs st "https://a").
  - repeat constructor.
  - intros token w' url. simpl.
    destruct (Fixture.isDenied w' token); [discriminate|].
    intros [= <-]. reflexivity.
  - reflexivity.
Defined.

(** ** Where a run can exit *)

Section ExitPoints.
Context {W : Type} (R : Remote W).

(** The loop over the credentials adds only credentials with both fields
    to the pool: a credential lacking one ends the run before it is
    added. *)
Lemma verifyCredentials_complete siteUrl cs :
  ∀ v (st : State W),
    Forall complete (credential <$> validCredentials st) →
    Forall complete
      (credential <$> validCredentials (verifyCredentials R siteUrl cs v st).2).
Proof.
  induction cs as [|c cs IH]; intros v st Hst; [exact Hst|].
  rewrite verifyCredentials_unfold.
  pose proof (getAccessToken_fields R (client_email c) (private_key c) st)
    as Hfields.
  destruct (getAccessToken_frame R (client_email c) (private_key c) st)
    as (ev0 & _ & _ & Hvc0 & _).
  destruct (getAccessToken R (client_email c) (private_key c) st)
    as [[token|msg|code|] st0]; simpl in *.
  - destruct (checkSiteUrl R token siteUrl (world st0)) as [[url|msg] w1];
      apply IH; simpl; rewrite Hvc0; [|exact Hst].
    rewrite fmap_app. apply Forall_app. split; [exact Hst|].
    constructor; [exact (Hfields token eq_refl)|constructor].
  - apply IH. simpl. now rewrite Hvc0.
  - now rewrite Hvc0.
  - now rewrite Hvc0.
Qed.

Lemma buildPool_complete siteUrl cs (st : State W) :
  Forall complete
    (credential <$> validCredentials (buildPool R siteUrl cs st).2).
Proof.
  unfold buildPool. rewrite bind_unfold. unfold setValidCredentials at 1.
  set (st0 := mkState (world st) [] (currentAccountIndex st) (cacheFiles st)
                (trace st)).
  assert (H0 : Forall complete (credential <$> validCredentials st0))
    by constructor.
  pose proof (verifyCredentials_complete siteUrl cs None st0 H0) as Hc.
  rewrite bind_unfold.
  destruct (verifyCredentials R siteUrl cs None st0) as [[v|msg|code|] st1];
    simpl in Hc; try exact Hc.
  mrun. destruct (_ || _)%bool; exact Hc.
Qed.

Lemma prepare_complete input options (st st1 : State W) cachePath siteUrl :
  prepare R input options st = (Ok (cachePath, siteUrl), st1) →
  Forall complete (credential <$> validCredentials st1).
Proof.
  unfold prepare. destruct (nonEmpty input); simpl; [|mrun; discriminate].
  unfold bind at 1.
  destruct ((if truthy (opt_client_email options)
                && truthy (opt_private_key options)
             then ret _ else getServiceAccountCredentials R (opt_path options))
              st) as [[cs|msg|code|] st0]; try discriminate.
  unfold bind at 1. unfold console, emit. unfold bind at 1.
  match goal with
  | |- context [buildPool R ?u cs ?s] =>
      pose proof (buildPool_complete u cs s) as Hc;
      destruct (buildPool R u cs s) as [[url|msg|code|] st2]; try discriminate
  end.
  mrun. now intros [= _ _ <-].
Qed.

(** Page-set resolution leaves pool, index and disk alone, and what it
    adds to the trace is silent. *)
Lemma resolvePages_frame siteUrl urls (st : State W) :
  let r := resolvePages R siteUrl urls st in
  validCredentials r.2 = validCredentials st ∧
  currentAccountIndex r.2 = currentAccountIndex st ∧
  cacheFiles r.2 = cacheFiles st ∧
  ∃ evs, trace r.2 = trace st ++ evs ∧ silent evs.
Proof.
  intros r. subst r. unfold resolvePages.
  destruct (length (default [] urls) =? 0)%nat.
  - unfold currentSession. mrun.
    destruct (validCredentials st !! currentAccountIndex st) as [session|];
      simpl.
    2:{ do 3 (split; [reflexivity|]). eexists. split; [reflexivity|].
        repeat constructor. }
    destruct (getSitemapPages R (accessToken session) siteUrl (world st))
      as [[[sitemaps pages]|msg] w]; simpl.
    2:{ do 3 (split; [reflexivity|]). eexists.
        rewrite <- app_assoc. split; [reflexivity|]. repeat constructor. }
    destruct (length sitemaps =? 0)%nat; simpl;
      (do 3 (split; [reflexivity|])); eexists; rewrite <- !app_assoc;
      (split; [reflexivity|]); repeat constructor.
  - mrun. destruct (checkCustomUrls R siteUrl (default [] urls)) as [pages|msg];
      simpl; (do 3 (split; [reflexivity|])).
    + eexists. split; [reflexivity|]. repeat constructor.
    + exists []. rewrite app_nil_r. split; [reflexivity|constructor].
Qed.

(** X3: a run that ends through [process.exit] has not begun its work:
    up to the exit it has fetched no status, sent no probe and no indexing
    request, rotated to no account and written nothing, and the disk is as
    it was.  Every session of the pool went through [getAccessToken] when
    the pool was built, so its credential has both fields, and a token
    request during the phases can throw but cannot exit. *)
Theorem exit_only_before_phases (env : ProcessEnv) (input : string)
    (options : IndexOptions) (st : State W) (code : Z)
    (Hexit : (index R env input options st).1 = Exit code) :
  ∃ evs,
    trace (index R env input options st).2 = trace st ++ evs ∧
    silent evs ∧
    cacheFiles (index R env input options st).2 = cacheFiles st.
Proof.
  unfold index in *.
  set (opts := resolveOptions env options) in *.
  destruct (U_prepare R (cacheFiles st) (trace st) input opts st)
    as [(Hdisk1 & ev1 & Htr1 & Hsil1) _].
  { split; [reflexivity|]. exists []. rewrite app_nil_r.
    split; [reflexivity|apply silent_nil]. }
  pose proof (prepare_ok R input opts st) as Hok1.
  pose proof (prepare_complete input opts st) as Hc1.
  rewrite bind_unfold in *.
  destruct (prepare R input opts st) as [[[cachePath siteUrl]|msg|code'|] st1];
    simpl in Hdisk1, Htr1; cbn [fst snd] in *.
  2,3,4: (exists ev1; auto).
  destruct (Hok1 st1 _ _ eq_refl) as (Hpool1 & _).
  specialize (Hc1 st1 _ _ eq_refl).
  destruct (resolvePages_frame siteUrl (opt_urls opts) st1)
    as (Hvc2 & Hi2 & Hcf2 & ev2 & Htr2 & Hsil2).
  rewrite bind_unfold in *.
  destruct (resolvePages R siteUrl (opt_urls opts) st1)
    as [[pages|msg|code'|] st2]; simpl in Hvc2, Hi2, Hcf2, Htr2;
    cbn [fst snd] in *.
  2,3,4: (exists (ev1 ++ ev2);
          split; [rewrite Htr2, Htr1; now rewrite app_assoc|];
          split; [now apply silent_app|congruence]).
  exfalso.
  set (n := length (validCredentials st2)).
  pose proof (CompletePool_invariant R throwOnly n (getAccessToken_no_exit R))
    as HI.
  assert (Hst2 : CompletePool n st2).
  { split; [reflexivity|]. unfold poolOk in Hpool1.
    split; [unfold n; rewrite Hvc2, Hi2; exact Hpool1|now rewrite Hvc2]. }
  rewrite bind_unfold, statusPhase_unfold in Hexit.
  destruct (Run_statusBatch R n _ _ HI siteUrl pages
              (default ∅ (cacheFiles st2 !! cachePath)) st2 Hst2)
    as [Hst3 Hout3].
  destruct (batch _ _ _ _ _) as [[[doc pps]|msg|code'|] st3];
    simpl in Hst3, Hout3; cbn [fst snd] in Hexit; try discriminate;
    [|contradiction].
  match type of Hexit with
  | (reportAndRequest R opts pps ?s).1 = _ =>
      destruct (Run_reportAndRequest R n _ _ HI opts pps s Hst3) as [_ Hout4]
  end.
  rewrite Hexit in Hout4. exact Hout4.
Qed.

End ExitPoints.

Lemma exit_only_before_phases_witness :
  let options :=
    {| opt_client_email := Some "a"; opt_private_key := Some "key";
       opt_path := None; opt_urls := None; opt_quota := None |} in
  let r := index Fixture.remote Fixture.noEnv "https://a" options
             (Fixture.start Fixture.quiet []) in
  r.1 = Exit 1 ∧ silent (trace r.2).
Proof.
  intros options r.
  assert (Hexit : r.1 = Exit 1) by reflexivity.
  split; [exact Hexit|].
  destruct (exit_only_before_phases Fixture.remote Fixture.noEnv "https://a"
              options (Fixture.start Fixture.quiet []) 1 Hexit)
    as (evs & Htr & Hsil & _).
  fold r in Htr. change (trace (Fixture.start Fixture.quiet []) ++ evs)
    with evs in Htr.
  rewrite Htr. exact Hsil.
Defined.

(** ** The partition and the written document *)

Lemma addPage_indexable s u (p : Partition) (v : string) :
  v ∈ indexablePagesOf (addPage s u p) ↔
  v ∈ indexablePagesOf p ∨ (v = u ∧ includes indexableStatuses s = true).
Proof.
  unfold indexablePagesOf. induction p as [|[k pages] rest IH].
  - unfold addPage. simpl. destruct (includes indexableStatuses s); simpl.
    + rewrite elem_of_cons, !elem_of_nil. tauto.
    + rewrite elem_of_nil. split; [tauto|]. intros [[]|[_ Hf]]. discriminate.
  - rewrite addPage_cons. destruct (decide (k = s)) as [->|Hne]; simpl.
    + rewrite !elem_of_app.
      destruct (includes indexableStatuses s); simpl.
      * rewrite elem_of_app, elem_of_cons, elem_of_nil. tauto.
      * rewrite elem_of_nil. split; [tauto|].
        intros [H|[_ Hf]]; [exact H|discriminate].
    + rewrite !elem_of_app, IH. tauto.
Qed.

Lemma replay_indexable (doc : Cache) (pages : list string) (v : string) :
  ∀ p,
    v ∈ indexablePagesOf (replay doc p pages) ↔
    v ∈ indexablePagesOf p ∨
    (v ∈ pages ∧
     ∃ r, doc !! v = Some r ∧ includes indexableStatuses (status r) = true).
Proof.
  unfold replay. induction pages as [|u rest IH]; intros p; simpl.
  - rewrite elem_of_nil. tauto.
  - rewrite IH, elem_of_cons. destruct (doc !! u) as [r|] eqn:Hu.
    + rewrite addPage_indexable. split.
      * intros [[H|[-> Hs]]|[Hin Hr]]; [now left| |right; split; auto].
        right. split; [now left|]. exists r. auto.
      * intros [H|[[->|Hin] (r' & Hr' & Hs)]].
        -- left. now left.
        -- rewrite Hu in Hr'. injection Hr' as <-. left. right. auto.
        -- right. split; [exact Hin|]. exists r'. auto.
    + split.
      * intros [H|[Hin Hr]]; [now left|right; split; auto].
      * intros [H|[[->|Hin] (r' & Hr' & Hs)]].
        -- now left.
        -- rewrite Hu in Hr'. discriminate.
        -- right. split; [exact Hin|]. exists r'. auto.
Qed.

(** ** Buckets of a replayed partition *)

Lemma pagesOf_addPage (s' s : Status.t) (u : string) (p : Partition) :
  pagesOf s' (addPage s u p) =
    if decide (s' = s) then Some (default [] (pagesOf s p) ++ [u])
    else pagesOf s' p.
Proof.
  induction p as [|[k v] rest IH].
  - unfold addPage. simpl. repeat case_decide; simplify_eq/=; done.
  - rewrite addPage_cons. destruct (decide (k = s)) as [->|Hne]; simpl.
    + repeat case_decide; simplify_eq/=; done.
    + rewrite IH. repeat case_decide; simplify_eq/=; done.
Qed.

Lemma pagesOf_replay (doc : Cache) (s : Status.t) (l : list string) :
  ∀ p,
    is_Some (pagesOf s p) →
    pagesOf s (replay doc p l)
    = Some (default [] (pagesOf s p) ++ filedUnder doc s l).
Proof.
  unfold replay, filedUnder. induction l as [|u l IH]; intros p [x Hx].
  - simpl. rewrite Hx. simpl. now rewrite app_nil_r.
  - simpl. destruct (doc !! u) as [r|] eqn:Hu.
    + rewrite IH, pagesOf_addPage.
      2:{ rewrite pagesOf_addPage. destruct (decide (s = status r)); eauto. }
      destruct (decide (s = status r)) as [->|Hne].
      * rewrite filter_cons_True by (rewrite Hu; reflexivity).
        simpl. now rewrite <- app_assoc.
      * rewrite filter_cons_False; [reflexivity|].
        rewrite Hu. simpl. congruence.
    + rewrite IH by eauto.
      rewrite filter_cons_False; [reflexivity|]. rewrite Hu. discriminate.
Qed.


Lemma initial_bucket (s : Status.t) : pagesOf s initialPagesPerStatus = Some [].
Proof. now destruct s. Qed.

(** The buckets of the replay of a document over a page list. *)
Lemma replay_bucket (doc : Cache) (s : Status.t) (l : list string) :
  pagesOf s (replay doc initialPagesPerStatus l) = Some (filedUnder doc s l).
Proof.
  rewrite pagesOf_replay by (rewrite initial_bucket; eauto).
  now rewrite initial_bucket.
Qed.

Lemma filedUnder_Permutation (doc : Cache) (s : Status.t) (l l' : list string) :
  l ≡ₚ l' → filedUnder doc s l ≡ₚ filedUnder doc s l'.
Proof. intros Hl. unfold filedUnder. now rewrite Hl. Qed.

Lemma elem_of_filedUnder (doc : Cache) (s : Status.t) (l : list string) u :
  u ∈ filedUnder doc s l ↔ u ∈ l ∧ status <$> doc !! u = Some s.
Proof. unfold filedUnder. rewrite list_elem_of_filter. tauto. Qed.

Section PartitionAndDocument.
Context {W : Type} (R : Remote W).

(** A batch over items without repetition: the partition it returns is the
    replay of the store it returns, and the records of other URLs are as
    they were. *)
Lemma statusBatch_replay siteUrl size batchCount :
  ∀ items settled (cache cache' : Cache) pps pps' (st st' : State W),
    poolOk st → NoDup items →
    batchFrom (checkUrl R siteUrl) size batchCount settled items (cache, pps) st
      = (Ok (cache', pps'), st') →
    pps' = replay cache' pps items ∧
    ∀ u, u ∉ items → cache' !! u = cache !! u.
Proof.
  induction items as [|url rest IH];
    intros settled cache cache' pps pps' st st' Hok Hnd Hrun.
  - simpl in Hrun. unfold ret in Hrun. injection Hrun as <- <- _. auto.
  - rewrite batchFrom_cons in Hrun.
    destruct (checkUrl R siteUrl url (cache, pps) st)
      as [[[cache1 pps1]|msg|code|] st1] eqn:Hone; try discriminate.
    destruct (checkUrl_ok R siteUrl url cache cache1 pps pps1 st st1 Hok Hone)
      as (result & evs & Hrec & -> & _ & Hp & _ & _ & _ & Hcase).
    apply NoDup_cons in Hnd. destruct Hnd as [Hfresh Hnd].
    destruct (afterItem_preserved R size batchCount (S settled) rest st1)
      as [Hp1 _].
    destruct (IH _ _ _ _ _ _ _
                (pres_poolOk _ _ _ Hp1 (pres_poolOk _ _ _ Hp Hok)) Hnd Hrun)
      as [-> Hkeep].
    split.
    + unfold replay. simpl. now rewrite (Hkeep url Hfresh), Hrec.
    + intros u Hu. rewrite not_elem_of_cons in Hu. destruct Hu as [Hne Hu].
      rewrite (Hkeep u Hu).
      destruct Hcase as [(_ & _ & -> & _)|(_ & -> & _)]; [reflexivity|].
      now apply lookup_insert_ne.
Qed.

(** X15: on a page set without repetition, what the status phase reports
    is what it writes, in whatever order the pages are handled: let the
    phase be run over any rearrangement of the page set.  Then every
    status has a bucket, and the pages filed in it are, up to their order,
    the pages of the page set whose record in the document written has
    that status.  So the pages handed to the request phase are exactly the
    pages of the page set whose record in the written document has an
    indexable status. *)
Theorem partition_matches_document (cachePath siteUrl : string)
    (pages schedule : list string) (st st' : State W)
    (pagesPerStatus : Partition)
    (Hpool : poolOk st) (Hpages : NoDup pages)
    (Hschedule : schedule ≡ₚ pages)
    (Hrun : statusPhase R cachePath siteUrl schedule st
            = (Ok pagesPerStatus, st')) :
  ∃ doc : Cache,
    cacheFiles st' !! cachePath = Some doc ∧
    (∀ s, ∃ bucket,
       pagesOf s pagesPerStatus = Some bucket ∧
       bucket ≡ₚ filedUnder doc s pages ∧
       ∀ url, url ∈ bucket ↔ url ∈ pages ∧ status <$> doc !! url = Some s) ∧
    ∀ url,
      url ∈ indexablePagesOf pagesPerStatus ↔
      url ∈ pages ∧ ∃ r, doc !! url = Some r ∧ indexable (status r).
Proof.
  rewrite statusPhase_unfold in Hrun. unfold batch in Hrun.
  destruct (batchFrom _ _ _ _ _ _ _) as [[[doc pps]|msg|code|] st1] eqn:Hb;
    try discriminate.
  injection Hrun as <- <-.
  assert (Hnd : NoDup schedule) by now rewrite Hschedule.
  destruct (statusBatch_replay _ _ _ _ _ _ _ _ _ _ _ Hpool Hnd Hb)
    as [-> _].
  exists doc. simpl. rewrite lookup_insert_eq.
  split; [reflexivity|]. split.
  - intros s. exists (filedUnder doc s schedule).
    split; [apply replay_bucket|].
    split; [now apply filedUnder_Permutation|].
    intros url. rewrite elem_of_filedUnder. now rewrite Hschedule.
  - intros url. rewrite replay_indexable.
    assert (Hnone : url ∉ indexablePagesOf initialPagesPerStatus)
      by (simpl; apply not_elem_of_nil).
    rewrite Hschedule. split.
    + intros [H|[Hin (r & Hr & Hs)]]; [contradiction|].
      split; [exact Hin|]. exists r. split; [exact Hr|].
      now apply includes_indexable.
    + intros [Hin (r & Hr & Hs)]. right. split; [exact Hin|].
      exists r. split; [exact Hr|]. now apply includes_indexable.
Qed.

End PartitionAndDocument.

Lemma partition_matches_document_witness :
  let w := Fixture.mkWorld 1000
             [Status.RateLimited; Status.Error; Status.SubmittedAndIndexed]
             [] [] [] [] [] [] in
  let st := Fixture.start w [Fixture.session "a"; Fixture.session "b"] in
  let pages := ["https://a/1"; "https://a/2"] in
  let schedule := ["https://a/2"; "https://a/1"] in
  let r := statusPhase Fixture.remote "cache.json" "https://a" schedule st in
  let pps := match r.1 with Ok pps => pps | _ => [] end in
  ∃ doc : Cache,
    cacheFiles r.2 !! "cache.json" = Some doc ∧
    (∀ s, ∃ bucket,
       pagesOf s pps = Some bucket ∧
       bucket ≡ₚ filedUnder doc s pages ∧
       ∀ url, url ∈ bucket ↔ url ∈ pages ∧ status <$> doc !! url = Some s) ∧
    ∀ url,
      url ∈ indexablePagesOf pps ↔
      url ∈ pages ∧ ∃ r, doc !! url = Some r ∧ indexable (status r).
Proof.
  intros w st pages schedule r pps.
  apply (partition_matches_document Fixture.remote "cache.json" "https://a"
           pages schedule st r.2 pps).
  - unfold poolOk. simpl. lia.
  - apply NoDup_cons. split; [|apply NoDup_singleton].
    intros Hin. apply list_elem_of_singleton in Hin. discriminate Hin.
  - apply Permutation_swap.
  - reflexivity.
Defined.

(** ** Two runs in succession *)


Section TwoRuns.
Context {W : Type} (R : Remote W).







End TwoRuns.


